(** * mac_apt: evidence discovery (mac_apt.py)

    A shallow embedding of the discovery logic of the launcher script
    [mac_apt.py]: the fixed-offset signature detectors, the macOS
    installation validator, the APFS container orchestration with its
    metadata database, the partition-table scan and the whole-image
    detection of the main program.

    Python exceptions are modelled by an error type, early [return]s by an
    outcome of their own, the global [mac_info] object, the output folder
    and the log by an explicit world that every step threads through.

    The launcher's own helpers follow: the input types, the plugins to
    run, the extent files of a VMDK image and the end of the process. *)

From Stdlib Require Import ZArith List String Ascii Bool Lia.
From Stdlib.Strings Require Import Byte.
From stdpp Require Import base gmap list strings.

Open Scope Z_scope.

(* ===================================================================== *)
(** ** Bytes, exceptions and results *)
(* ===================================================================== *)

#[global] Instance byte_eq_dec : EqDecision byte := Byte.byte_eq_dec.

(** A Python bytes literal: [b"NXSB"] is [b'NXSB']. *)
Definition b (s : string) : list byte := list_byte_of_string s.

(** The exceptions the modelled code raises or receives. *)
Inductive exn : Type :=
| IOError                  (* the image layer cannot satisfy a read *)
| CannotSeek (offset : Z)  (* ValueError('Cannot seek into image @ offset {}') *)
| BadUuidBytes             (* ValueError of UUID(bytes=...): not 16 bytes *)
| AttributeError           (* attribute of None *)
| UnicodeDecodeError       (* bytes.decode('utf-8') *)
| FileNotFoundError        (* os.remove / sqlite open of a missing file *)
| DecryptionError          (* no working credential for an encrypted volume *)
| DecoderError (what : string). (* any other failure of an external decoder *)

#[global] Instance exn_eq_dec : EqDecision exn.
Proof. solve_decision. Defined.

(** The result of a call that has no effect on the world. *)
Inductive result (A : Type) : Type :=
| Ok (a : A)
| Exc (e : exn).
Arguments Ok {A} a.
Arguments Exc {A} e.

#[global] Instance result_eq_dec {A} `{EqDecision A} : EqDecision (result A).
Proof. solve_decision. Defined.

(* ===================================================================== *)
(** ** The image: pytsk3.Img_Info and its subclasses *)
(* ===================================================================== *)

(** [ewf_Img_Info], [vmdk_Img_Info], [aff4_Img_Info], [sparse_Img_Info] and
    [pytsk3.Img_Info] itself all offer [read(offset, size)] and
    [get_size()]; the detectors use nothing else. *)
Class Img_Info (I : Type) : Type := {
  read : I → Z → Z → result (list byte);
  get_size : I → Z
}.

(** A raw (dd) image opened by [pytsk3.Img_Info(path)]: a logical size and
    the extents that hold data, every other byte being zero. *)
Record RawImage : Type := {
  raw_size : Z;
  raw_extents : list (Z * list byte)
}.

Fixpoint byte_at (extents : list (Z * list byte)) (pos : Z) : byte :=
  match extents with
  | [] => x00
  | (start, data) :: rest =>
      if decide (start ≤ pos < start + Z.of_nat (length data))
      then nth (Z.to_nat (pos - start)) data x00
      else byte_at rest pos
  end.

(** The Sleuth Kit refuses a read that starts outside the image (pytsk3
    raises IOError) and returns a short buffer at the end of the image. *)
Definition raw_read (img : RawImage) (offset size : Z) : result (list byte) :=
  if decide (0 ≤ offset < raw_size img)
  then Ok (byte_at (raw_extents img) <$> seqZ offset (Z.min size (raw_size img - offset)))
  else Exc IOError.

#[global] Instance RawImage_Img_Info : Img_Info RawImage := {
  read := raw_read;
  get_size := raw_size
}.

(* ===================================================================== *)
(** ** Signature detectors (pure part) *)
(* ===================================================================== *)

(** [IsApfsContainer(img, partition_start_offset)], lines 259-266. *)
Definition IsApfsContainer {I} `{Img_Info I} (img : I) (partition_start_offset : Z)
  : result bool :=
  match read img (partition_start_offset + 0x20) 4 with
  | Ok data => if decide (data = b"NXSB") then Ok true else Ok false
  | Exc _ => Exc (CannotSeek (partition_start_offset + 0x20))
  end.

(** [IsHFSVolume(img, partition_start_offset)], lines 268-275. *)
Definition IsHFSVolume {I} `{Img_Info I} (img : I) (partition_start_offset : Z)
  : result bool :=
  match read img (partition_start_offset + 0x400) 2 with
  | Ok data =>
      if decide (data = [x48; x58]) then Ok true
      else if decide (data = [x48; x2b]) then Ok true
      else Ok false
  | Exc _ => Exc (CannotSeek (partition_start_offset + 0x400))
  end.

(** [UUID(bytes=...)]: sixteen bytes, compared as such. *)
Definition UUID_of_bytes (bs : list byte) : result (list byte) :=
  if decide (length bs = 16%nat) then Ok bs else Exc BadUuidBytes.

(** [UUID("{ef57347c-0000-aa11-aa11-00306543ecac}")]. *)
Definition apfs_boot_uuid : list byte :=
  [xef; x57; x34; x7c; x00; x00; xaa; x11; xaa; x11; x00; x30; x65; x43; xec; xac].

(** [GetApfsContainerUuid(img, container_start_offset)], lines 277-281:
    nothing is caught here. *)
Definition GetApfsContainerUuid {I} `{Img_Info I} (img : I) (container_start_offset : Z)
  : result (list byte) :=
  match read img (container_start_offset + 72) 16 with
  | Ok uuid_bytes => UUID_of_bytes uuid_bytes
  | Exc e => Exc e
  end.

(** [str(uuid).upper()]: 8-4-4-4-12 upper-case hexadecimal digits. *)
Definition hex_digit (n : N) : ascii :=
  nth (N.to_nat n) (list_ascii_of_string "0123456789ABCDEF") "0"%char.

Definition hex_of_byte (x : byte) : string :=
  let n := Byte.to_N x in
  String (hex_digit (n / 16)) (String (hex_digit (n mod 16)) EmptyString).

Definition hex_of_bytes (bs : list byte) : string :=
  foldr (λ x acc, hex_of_byte x +:+ acc) "" bs.

Definition uuid_str_upper (u : list byte) : string :=
  hex_of_bytes (take 4 u) +:+ "-" +:+
  hex_of_bytes (take 2 (drop 4 u)) +:+ "-" +:+
  hex_of_bytes (take 2 (drop 6 u)) +:+ "-" +:+
  hex_of_bytes (take 2 (drop 8 u)) +:+ "-" +:+
  hex_of_bytes (drop 10 u).

(* ===================================================================== *)
(** ** Data model *)
(* ===================================================================== *)

(** [vol.role] is compared with four values of the decoder's
    [VolumeRoleType] enumeration; every other value is left unclassified. *)
Inductive VolumeRoleType : Type :=
| role_system
| role_data
| role_preboot
| role_update
| role_other (value : Z).

#[global] Instance VolumeRoleType_eq_dec : EqDecision VolumeRoleType.
Proof. solve_decision. Defined.

(** An APFS volume object of the container. [dbo] is the database handle
    the orchestrator attaches; a handle is the path of the open file. *)
Record Volume : Type := {
  volume_name : string;
  role : VolumeRoleType;
  vol_uuid : string;
  is_encrypted : bool;
  dbo : option string
}.

Definition set_dbo (db : option string) (v : Volume) : Volume :=
  {| volume_name := volume_name v; role := role v; vol_uuid := vol_uuid v;
     is_encrypted := is_encrypted v; dbo := db |}.

(** The file system [mac_info.macos_FS] the validator looks into. Volumes
    are objects shared between [apfs_container.volumes] and the handles of
    [mac_info]: they are named by their position in the container. *)
Inductive FsHandle : Type :=
| TskFs (partition_start_offset : Z)
| ApfsVolumeFs (vol : nat)
| CombinedFs (sys_vol data_vol : nat).

#[global] Instance FsHandle_eq_dec : EqDecision FsHandle.
Proof. solve_decision. Defined.

(** A partition of [pytsk3.Volume_Info]: TSK_VS_PART_INFO. *)
Record Part : Type := {
  flags : Z;
  desc : list byte;
  start : Z;
  len : Z;
  slot_num : Z
}.

(** pytsk3's TSK_VS_PART_FLAG_ENUM. *)
Definition TSK_VS_PART_FLAG_ALLOC : Z := 0x01.
Definition TSK_VS_PART_FLAG_UNALLOC : Z := 0x02.
Definition TSK_VS_PART_FLAG_META : Z := 0x04.

(** pytsk3's file system types, as far as [IsMacOsPartition] tells them
    apart. *)
Inductive TSK_FS_TYPE : Type :=
| TSK_FS_TYPE_HFS
| TSK_FS_TYPE_HFS_DETECT
| TSK_FS_TYPE_other (value : Z).

(** What [pytsk3.FS_Info(img, offset)] gives: the type of the file system
    and whether its root folder opens. *)
Record FS_Info_t : Type := {
  ftype : TSK_FS_TYPE;
  open_dir_root : result unit
}.

(** Modelled from the spec: the persisted cache record that [ApfsDbInfo]
    (plugins/helpers/apfs_reader.py, not part of the sources at hand) reads
    and writes. Section 3: schema_version and, per volume, role and
    identifier; the container uuid is the name of the file. The version is
    absent until [WriteVersionInfo] has run. *)
Record VolRecord : Type := {
  rec_role : VolumeRoleType;
  rec_uuid : string
}.

#[global] Instance VolRecord_eq_dec : EqDecision VolRecord.
Proof. solve_decision. Defined.

Record ApfsDb : Type := {
  db_version : option Z;
  db_volumes : list VolRecord
}.

#[global] Instance ApfsDb_eq_dec : EqDecision ApfsDb.
Proof. solve_decision. Defined.

Definition empty_db : ApfsDb := {| db_version := None; db_volumes := [] |}.

Definition record_of (v : Volume) : VolRecord :=
  {| rec_role := role v; rec_uuid := vol_uuid v |}.

(** The external collaborators, by what they answer on the evidence at
    hand: the partition-table and file-system decoders of pytsk3, the APFS
    decoder, the native HFS parser and the path lookup of [mac_info]. *)
Record Decoders : Type := {
  (** [pytsk3.Volume_Info(img)]: the partitions and [vs_info.block_size] *)
  Volume_Info : result (list Part * Z);
  (** [pytsk3.FS_Info(img, offset=...)] *)
  FS_Info : Z → result FS_Info_t;
  (** [mac_info.hfs_native.Initialize(img, offset)] *)
  hfs_native_Initialize : Z → result unit;
  (** [ApfsContainer(img, container_size, container_start_offset)] *)
  ApfsContainer : Z → Z → result (list Volume);
  (** block-level failures of [mac_info.ReadApfsVolumes()] *)
  read_volume_records : result unit;
  (** the passwords and recovery keys that unlock the container *)
  credential_unlocks : string → bool;
  (** [mac_info.CreateCombinedVolume()] *)
  combined_volume_created : bool;
  (** [mac_info.IsValidFilePath(path)] on the active file system *)
  path_is_valid : option FsHandle → string → bool;
  (** [desc.decode('utf-8').upper()] of a label that is not pure ASCII *)
  decode_upper_non_ascii : list byte → result string;
  (** the schema version [ApfsDbInfo] expects *)
  apfs_db_version : Z;
  (** [SqliteWriter.CreateSqliteDb]'s next available name for a taken one *)
  next_available_file_name : string → string;
  (** [Disk_Info(mac_info, path).Write()] *)
  Disk_Info_Write : result unit
}.

(** The installation context: the fields of [mac_info] (and of its
    [output_params]) that discovery reads or writes. *)
Record MacInfo : Type := {
  output_path : string;
  password : string;
  dont_decrypt : bool;
  is_apfs : bool;
  macos_partition_start_offset : Z;
  volumes : list Volume;            (* apfs_container.volumes *)
  apfs_sys_volume : option nat;
  apfs_data_volume : option nat;
  apfs_preboot_volume : option nat;
  apfs_update_volume : option nat;
  apfs_db : option string;
  macos_FS : option FsHandle;
  apfs_db_path : option string;     (* output_params.apfs_db_path *)
  hfs_native : option Z             (* offset hfs_native was initialized at *)
}.

Inductive level : Type := DEBUG | INFO | WARNING | ERROR.

(** The functions whose calls the trace records. *)
Inductive fn : Type :=
| F_IsApfsContainer
| F_IsHFSVolume
| F_IsApfsBootContainer
| F_GetApfsContainerUuid
| F_IsMacOsPartition
| F_FindMacOsPartitionInApfsContainer
| F_FindMacOsFiles
| F_GetSystemInfo
| F_GetUserInfo
| F_ReadApfsVolumes
| F_WriteVolInfo
| F_WriteVersionInfo
| F_Volume_Info
| F_FindMacOsPartition.

(** What a run leaves behind, in order: log lines (by their template),
    the lines of [log.exception] with the exception being handled, calls,
    and the files of the output folder removed or created. *)
Inductive event : Type :=
| Log (lvl : level) (msg : string)
| LogException (msg : string) (e : exn)
| Call (f : fn) (offset : Z)
| os_remove (path : string)
| CreateSqliteDb_at (path : string).

#[global] Instance level_eq_dec : EqDecision level.
Proof. solve_decision. Defined.
#[global] Instance fn_eq_dec : EqDecision fn.
Proof. solve_decision. Defined.
#[global] Instance event_eq_dec : EqDecision event.
Proof. solve_decision. Defined.

(** The state of a run: the log and call trace (newest event first), the
    database files of the output folder by path, the global [mac_info]
    and the global [found_macos] of the main program. *)
Record world : Type := {
  trace : list event;
  files : gmap string ApfsDb;
  mi : MacInfo;
  found_macos : bool
}.

(** Attribute assignment on [mac_info]. *)
Definition set_is_apfs (x : bool) (m : MacInfo) : MacInfo :=
  {| output_path := output_path m; password := password m;
     dont_decrypt := dont_decrypt m; is_apfs := x;
     macos_partition_start_offset := macos_partition_start_offset m;
     volumes := volumes m; apfs_sys_volume := apfs_sys_volume m;
     apfs_data_volume := apfs_data_volume m;
     apfs_preboot_volume := apfs_preboot_volume m;
     apfs_update_volume := apfs_update_volume m; apfs_db := apfs_db m;
     macos_FS := macos_FS m; apfs_db_path := apfs_db_path m;
     hfs_native := hfs_native m |}.
Definition set_macos_partition_start_offset (x : Z) (m : MacInfo) : MacInfo :=
  {| output_path := output_path m; password := password m;
     dont_decrypt := dont_decrypt m; is_apfs := is_apfs m;
     macos_partition_start_offset := x; volumes := volumes m;
     apfs_sys_volume := apfs_sys_volume m;
     apfs_data_volume := apfs_data_volume m;
     apfs_preboot_volume := apfs_preboot_volume m;
     apfs_update_volume := apfs_update_volume m; apfs_db := apfs_db m;
     macos_FS := macos_FS m; apfs_db_path := apfs_db_path m;
     hfs_native := hfs_native m |}.
Definition set_volumes (x : list Volume) (m : MacInfo) : MacInfo :=
  {| output_path := output_path m; password := password m;
     dont_decrypt := dont_decrypt m; is_apfs := is_apfs m;
     macos_partition_start_offset := macos_partition_start_offset m;
     volumes := x; apfs_sys_volume := apfs_sys_volume m;
     apfs_data_volume := apfs_data_volume m;
     apfs_preboot_volume := apfs_preboot_volume m;
     apfs_update_volume := apfs_update_volume m; apfs_db := apfs_db m;
     macos_FS := macos_FS m; apfs_db_path := apfs_db_path m;
     hfs_native := hfs_native m |}.
Definition set_apfs_sys_volume (x : option nat) (m : MacInfo) : MacInfo :=
  {| output_path := output_path m; password := password m;
     dont_decrypt := dont_decrypt m; is_apfs := is_apfs m;
     macos_partition_start_offset := macos_partition_start_offset m;
     volumes := volumes m; apfs_sys_volume := x;
     apfs_data_volume := apfs_data_volume m;
     apfs_preboot_volume := apfs_preboot_volume m;
     apfs_update_volume := apfs_update_volume m; apfs_db := apfs_db m;
     macos_FS := macos_FS m; apfs_db_path := apfs_db_path m;
     hfs_native := hfs_native m |}.
Definition set_apfs_data_volume (x : option nat) (m : MacInfo) : MacInfo :=
  {| output_path := output_path m; password := password m;
     dont_decrypt := dont_decrypt m; is_apfs := is_apfs m;
     macos_partition_start_offset := macos_partition_start_offset m;
     volumes := volumes m; apfs_sys_volume := apfs_sys_volume m;
     apfs_data_volume := x; apfs_preboot_volume := apfs_preboot_volume m;
     apfs_update_volume := apfs_update_volume m; apfs_db := apfs_db m;
     macos_FS := macos_FS m; apfs_db_path := apfs_db_path m;
     hfs_native := hfs_native m |}.
Definition set_apfs_preboot_volume (x : option nat) (m : MacInfo) : MacInfo :=
  {| output_path := output_path m; password := password m;
     dont_decrypt := dont_decrypt m; is_apfs := is_apfs m;
     macos_partition_start_offset := macos_partition_start_offset m;
     volumes := volumes m; apfs_sys_volume := apfs_sys_volume m;
     apfs_data_volume := apfs_data_volume m; apfs_preboot_volume := x;
     apfs_update_volume := apfs_update_volume m; apfs_db := apfs_db m;
     macos_FS := macos_FS m; apfs_db_path := apfs_db_path m;
     hfs_native := hfs_native m |}.
Definition set_apfs_update_volume (x : option nat) (m : MacInfo) : MacInfo :=
  {| output_path := output_path m; password := password m;
     dont_decrypt := dont_decrypt m; is_apfs := is_apfs m;
     macos_partition_start_offset := macos_partition_start_offset m;
     volumes := volumes m; apfs_sys_volume := apfs_sys_volume m;
     apfs_data_volume := apfs_data_volume m;
     apfs_preboot_volume := apfs_preboot_volume m; apfs_update_volume := x;
     apfs_db := apfs_db m; macos_FS := macos_FS m;
     apfs_db_path := apfs_db_path m; hfs_native := hfs_native m |}.
Definition set_apfs_db (x : option string) (m : MacInfo) : MacInfo :=
  {| output_path := output_path m; password := password m;
     dont_decrypt := dont_decrypt m; is_apfs := is_apfs m;
     macos_partition_start_offset := macos_partition_start_offset m;
     volumes := volumes m; apfs_sys_volume := apfs_sys_volume m;
     apfs_data_volume := apfs_data_volume m;
     apfs_preboot_volume := apfs_preboot_volume m;
     apfs_update_volume := apfs_update_volume m; apfs_db := x;
     macos_FS := macos_FS m; apfs_db_path := apfs_db_path m;
     hfs_native := hfs_native m |}.
Definition set_macos_FS (x : option FsHandle) (m : MacInfo) : MacInfo :=
  {| output_path := output_path m; password := password m;
     dont_decrypt := dont_decrypt m; is_apfs := is_apfs m;
     macos_partition_start_offset := macos_partition_start_offset m;
     volumes := volumes m; apfs_sys_volume := apfs_sys_volume m;
     apfs_data_volume := apfs_data_volume m;
     apfs_preboot_volume := apfs_preboot_volume m;
     apfs_update_volume := apfs_update_volume m; apfs_db := apfs_db m;
     macos_FS := x; apfs_db_path := apfs_db_path m;
     hfs_native := hfs_native m |}.
Definition set_apfs_db_path (x : option string) (m : MacInfo) : MacInfo :=
  {| output_path := output_path m; password := password m;
     dont_decrypt := dont_decrypt m; is_apfs := is_apfs m;
     macos_partition_start_offset := macos_partition_start_offset m;
     volumes := volumes m; apfs_sys_volume := apfs_sys_volume m;
     apfs_data_volume := apfs_data_volume m;
     apfs_preboot_volume := apfs_preboot_volume m;
     apfs_update_volume := apfs_update_volume m; apfs_db := apfs_db m;
     macos_FS := macos_FS m; apfs_db_path := x; hfs_native := hfs_native m |}.
Definition set_hfs_native (x : option Z) (m : MacInfo) : MacInfo :=
  {| output_path := output_path m; password := password m;
     dont_decrypt := dont_decrypt m; is_apfs := is_apfs m;
     macos_partition_start_offset := macos_partition_start_offset m;
     volumes := volumes m; apfs_sys_volume := apfs_sys_volume m;
     apfs_data_volume := apfs_data_volume m;
     apfs_preboot_volume := apfs_preboot_volume m;
     apfs_update_volume := apfs_update_volume m; apfs_db := apfs_db m;
     macos_FS := macos_FS m; apfs_db_path := apfs_db_path m;
     hfs_native := x |}.
Definition set_password (x : string) (m : MacInfo) : MacInfo :=
  {| output_path := output_path m; password := x;
     dont_decrypt := dont_decrypt m; is_apfs := is_apfs m;
     macos_partition_start_offset := macos_partition_start_offset m;
     volumes := volumes m; apfs_sys_volume := apfs_sys_volume m;
     apfs_data_volume := apfs_data_volume m;
     apfs_preboot_volume := apfs_preboot_volume m;
     apfs_update_volume := apfs_update_volume m; apfs_db := apfs_db m;
     macos_FS := macos_FS m; apfs_db_path := apfs_db_path m;
     hfs_native := hfs_native m |}.
Definition set_dont_decrypt (x : bool) (m : MacInfo) : MacInfo :=
  {| output_path := output_path m; password := password m; dont_decrypt := x;
     is_apfs := is_apfs m;
     macos_partition_start_offset := macos_partition_start_offset m;
     volumes := volumes m; apfs_sys_volume := apfs_sys_volume m;
     apfs_data_volume := apfs_data_volume m;
     apfs_preboot_volume := apfs_preboot_volume m;
     apfs_update_volume := apfs_update_volume m; apfs_db := apfs_db m;
     macos_FS := macos_FS m; apfs_db_path := apfs_db_path m;
     hfs_native := hfs_native m |}.

Definition set_trace (x : list event) (w : world) : world :=
  {| trace := x; files := files w; mi := mi w; found_macos := found_macos w |}.
Definition set_files (x : gmap string ApfsDb) (w : world) : world :=
  {| trace := trace w; files := x; mi := mi w; found_macos := found_macos w |}.
Definition set_mi (x : MacInfo) (w : world) : world :=
  {| trace := trace w; files := files w; mi := x; found_macos := found_macos w |}.
Definition set_found_macos (x : bool) (w : world) : world :=
  {| trace := trace w; files := files w; mi := mi w; found_macos := x |}.

(* ===================================================================== *)
(** ** The monad of statements *)
(* ===================================================================== *)

(** How a statement ends: it falls through to the next one, it returns
    from the enclosing function, or it raises. *)
Inductive outcome (A : Type) : Type :=
| Normal (a : A)
| Return (v : bool)
| Raise (e : exn).
Arguments Normal {A} a.
Arguments Return {A} v.
Arguments Raise {A} e.

Definition M (A : Type) : Type := world → outcome A * world.

#[global] Instance M_ret : MRet M := λ A a w, (Normal a, w).

#[global] Instance M_bind : MBind M := λ A B k m w,
  match m w with
  | (Normal a, w') => k a w'
  | (Return v, w') => (Return v, w')
  | (Raise e, w') => (Raise e, w')
  end.

Definition return_ {A} (v : bool) : M A := λ w, (Return v, w).
Definition raise {A} (e : exn) : M A := λ w, (Raise e, w).

Definition lift {A} (r : result A) : M A :=
  match r with
  | Ok a => mret a
  | Exc e => raise e
  end.

(** [try: body except: handler]. A [return] inside the body is not an
    exception; what the body did to the world before raising stays done. *)
Definition try_except {A} (body : M A) (handler : exn → M A) : M A := λ w,
  match body w with
  | (Raise e, w') => handler e w'
  | other => other
  end.

(** The boundary of a function: its [return] is the caller's value. *)
Definition call (body : M bool) : M bool := λ w,
  match body w with
  | (Return v, w') => (Normal v, w')
  | other => other
  end.

(** [for x in xs: body], with the variables the loop carries from one
    iteration to the next. [continue] ends the iteration: the body then
    yields the carried variables as they are. *)
Fixpoint for_each {A S} (xs : list A) (s : S) (body : S → A → M S) : M S :=
  match xs with
  | [] => mret s
  | x :: rest => s' ← body s x; for_each rest s' body
  end.

(** The elements of a list with their positions, from [k] on. *)
Fixpoint enumerate {A} (k : nat) (xs : list A) : list (nat * A) :=
  match xs with
  | [] => []
  | x :: rest => (k, x) :: enumerate (S k) rest
  end.

Definition emit (e : event) : M unit := λ w,
  (Normal tt, set_trace (e :: trace w) w).

Definition log (lvl : level) (msg : string) : M unit := emit (Log lvl msg).

(** [log.exception(msg)] inside a handler: the line carries the exception. *)
Definition log_exception (msg : string) (e : exn) : M unit :=
  emit (LogException msg e).

Definition get_mi : M MacInfo := λ w, (Normal (mi w), w).

Definition modify_mi (f : MacInfo → MacInfo) : M unit := λ w,
  (Normal tt, set_mi (f (mi w)) w).

Definition get_files : M (gmap string ApfsDb) := λ w, (Normal (files w), w).

Definition modify_files (f : gmap string ApfsDb → gmap string ApfsDb) : M unit := λ w,
  (Normal tt, set_files (f (files w)) w).

Definition get_found_macos : M bool := λ w, (Normal (found_macos w), w).

Definition assign_found_macos (v : bool) : M unit := λ w,
  (Normal tt, set_found_macos v w).

(* ===================================================================== *)
(** ** The program *)
(* ===================================================================== *)

(** ASCII upper- and lower-casing, as [str.upper()] and [str.lower()] act
    on the letters of an ASCII label. *)
Definition upper_ascii (c : ascii) : ascii :=
  let n := N_of_ascii c in
  if ((97 <=? n) && (n <=? 122))%N then ascii_of_N (n - 32) else c.

Definition lower_ascii (c : ascii) : ascii :=
  let n := N_of_ascii c in
  if ((65 <=? n) && (n <=? 90))%N then ascii_of_N (n + 32) else c.

Definition is_ascii_byte (x : byte) : bool := (Byte.to_N x <? 128)%N.

Definition upper (s : list ascii) : list ascii := map upper_ascii s.
Definition lower (s : list ascii) : list ascii := map lower_ascii s.

(** Equality of two labels without regard to letter case. *)
Definition eq_ignore_case (d : list byte) (label : string) : Prop :=
  lower (map ascii_of_byte d) = lower (list_ascii_of_string label).

Section Program.

Context {I : Type} `{Img_Info I}.
Variable img : I.
Variable D : Decoders.

(** [part.desc.decode('utf-8').upper()] *)
Definition decode_upper (d : list byte) : result string :=
  if forallb is_ascii_byte d
  then Ok (string_of_list_ascii (upper (map ascii_of_byte d)))
  else decode_upper_non_ascii D d.

(** *** FindMacOsFiles, lines 208-220 *)

Definition IsValidFilePath (path : string) : M bool :=
  m ← get_mi; mret (path_is_valid D (macos_FS m) path).

Definition FindMacOsFiles : M bool :=
  call (
    emit (Call F_FindMacOsFiles 0);;
    version ← IsValidFilePath "/System/Library/CoreServices/SystemVersion.plist";
    if version : bool then
      kernel ← IsValidFilePath "/System/Library/Kernels/kernel";
      kernel ← (if kernel : bool then mret true else IsValidFilePath "/mach_kernel");
      (if kernel : bool
       then log INFO "Found valid OSX/macOS kernel"
       else log INFO "Could not find OSX/macOS kernel!");;
      emit (Call F_GetSystemInfo 0);;
      emit (Call F_GetUserInfo 0);;
      return_ true
    else
      log INFO "Could not find OSX/macOS installation!";;
      return_ false).

(** *** IsMacOsPartition, lines 222-243 *)

Definition IsMacOsPartition (partition_start_offset : Z) : M bool :=
  call (
    emit (Call F_IsMacOsPartition partition_start_offset);;
    try_except (
      fs ← lift (FS_Info D partition_start_offset);
      match ftype fs with
      | TSK_FS_TYPE_HFS | TSK_FS_TYPE_HFS_DETECT => mret tt
      | TSK_FS_TYPE_other _ =>
          log INFO " Skipping non-HFS partition";; return_ false
      end;;
      try_except (
        lift (open_dir_root fs);;
        modify_mi (set_macos_FS (Some (TskFs partition_start_offset)));;
        modify_mi (set_macos_partition_start_offset partition_start_offset);;
        lift (hfs_native_Initialize D partition_start_offset);;
        modify_mi (set_hfs_native (Some partition_start_offset));;
        found ← FindMacOsFiles;
        return_ found)
      (λ _,
        log ERROR "Could not open / (root folder on partition)";;
        log DEBUG "Exception info"))
    (λ e, log_exception "Exception" e);;
    return_ false).

(** *** The detectors as statements: each call is recorded *)

Definition call_IsApfsContainer (partition_start_offset : Z) : M bool :=
  emit (Call F_IsApfsContainer partition_start_offset);;
  lift (IsApfsContainer img partition_start_offset).

Definition call_IsHFSVolume (partition_start_offset : Z) : M bool :=
  emit (Call F_IsHFSVolume partition_start_offset);;
  lift (IsHFSVolume img partition_start_offset).

Definition call_GetApfsContainerUuid (container_start_offset : Z) : M (list byte) :=
  emit (Call F_GetApfsContainerUuid container_start_offset);;
  lift (GetApfsContainerUuid img container_start_offset).

(** [IsApfsBootContainer(img, gpt_part_offset)], lines 245-257. *)
Definition IsApfsBootContainer (gpt_part_offset : Z) : M bool :=
  call (
    emit (Call F_IsApfsBootContainer gpt_part_offset);;
    try_except (
      uuid_bytes ← lift (read img gpt_part_offset 16);
      uuid ← lift (UUID_of_bytes uuid_bytes);
      if decide (uuid = apfs_boot_uuid)
      then
        log DEBUG "Got UUID={uuid}, IS  a bootable APFS container!, defined in GPT at {gpt_part_offset}";;
        return_ true
      else
        log DEBUG "Got UUID={uuid}, not a bootable APFS container!, defined in GPT at {gpt_part_offset}")
    (λ _, raise (CannotSeek gpt_part_offset));;
    return_ false).

(** *** The metadata database: SqliteWriter and ApfsDbInfo *)

Definition os_path_exists (path : string) : M bool :=
  fs ← get_files; mret (if fs !! path is Some _ then true else false).

Definition os_remove_file (path : string) : M unit :=
  fs ← get_files;
  match fs !! path with
  | Some _ => emit (os_remove path);; modify_files (delete path)
  | None => raise FileNotFoundError
  end.

(** [SqliteWriter.CreateSqliteDb(path)]: "Will create with next avail file
    name" (line 330); the file created is empty. *)
Definition CreateSqliteDb (path : string) : M string :=
  fs ← get_files;
  let created := match fs !! path with
                 | None => path
                 | Some _ => next_available_file_name D path
                 end in
  emit (CreateSqliteDb_at created);;
  modify_files (<[created := empty_db]>);;
  mret created.

(** Modelled from the spec: [ApfsDbInfo.CheckVerInfo] of
    plugins/helpers/apfs_reader.py, which is not among the sources at hand.
    Section 4.4 step 1: the schema version matches. *)
Definition CheckVerInfo (db : string) : M bool :=
  fs ← get_files;
  match fs !! db with
  | Some d => mret (bool_decide (db_version d = Some (apfs_db_version D)))
  | None => raise FileNotFoundError
  end.

(** Modelled from the spec: [ApfsDbInfo.CheckVolInfoAndGetVolEncKey] of
    plugins/helpers/apfs_reader.py, which is not among the sources at hand.
    Section 3: the recorded volume roles and identifiers match the live
    container's volumes. *)
Definition CheckVolInfoAndGetVolEncKey (db : string) (vols : list Volume) : M bool :=
  fs ← get_files;
  match fs !! db with
  | Some d => mret (bool_decide (db_volumes d = record_of <$> vols))
  | None => raise FileNotFoundError
  end.

(** Modelled from the spec: [ApfsDbInfo.WriteVolInfo] of
    plugins/helpers/apfs_reader.py, which is not among the sources at hand.
    Section 4.4 step 5: the roles and identifiers of the volumes are
    persisted. *)
Definition WriteVolInfo (db : string) (vols : list Volume) : M unit :=
  emit (Call F_WriteVolInfo 0);;
  fs ← get_files;
  match fs !! db with
  | Some d =>
      modify_files (<[db := {| db_version := db_version d;
                               db_volumes := record_of <$> vols |}]>)
  | None => raise FileNotFoundError
  end.

(** Modelled from the spec: [ApfsDbInfo.WriteVersionInfo] of
    plugins/helpers/apfs_reader.py, which is not among the sources at hand.
    Section 4.4 step 5: the schema version is persisted. *)
Definition WriteVersionInfo (db : string) : M unit :=
  emit (Call F_WriteVersionInfo 0);;
  fs ← get_files;
  match fs !! db with
  | Some d =>
      modify_files (<[db := {| db_version := Some (apfs_db_version D);
                               db_volumes := db_volumes d |}]>)
  | None => raise FileNotFoundError
  end.

(** Modelled from the spec: [ApfsMacInfo.ReadApfsVolumes] of
    plugins/helpers/macinfo.py, which is not among the sources at hand.
    Section 4.4 step 6: when the container's volumes are encrypted, a
    password or recovery key must be applied before reads succeed; absence
    of a working credential surfaces as DecryptionError. Any other failure
    is the block decoder's. *)
Definition ReadApfsVolumes : M unit :=
  emit (Call F_ReadApfsVolumes 0);;
  m ← get_mi;
  if existsb is_encrypted (volumes m) && negb (dont_decrypt m)
     && negb (credential_unlocks D (password m))
  then raise DecryptionError
  else lift (read_volume_records D).

(** Modelled from the spec: [ApfsMacInfo.UseCombinedVolume] and
    [ApfsMacInfo.CreateCombinedVolume] of plugins/helpers/macinfo.py, which
    is not among the sources at hand. Section 4.4 step 3: the combined view
    of the system and the data volume becomes the file system that the
    validator sees. *)
Definition UseCombinedVolume : M unit :=
  m ← get_mi;
  match apfs_sys_volume m, apfs_data_volume m with
  | Some s, Some d => modify_mi (set_macos_FS (Some (CombinedFs s d)))
  | _, _ => raise AttributeError
  end.

Definition CreateCombinedVolume : M bool :=
  if combined_volume_created D
  then UseCombinedVolume;; mret true
  else mret false.

(** Modelled from the spec: the constructor [macinfo.ApfsMacInfo] of
    plugins/helpers/macinfo.py, which is not among the sources at hand.
    Section 3: the context keeps the output parameters and the credentials
    it is given; every volume handle and the cache store start absent,
    which the test [mac_info.apfs_data_volume is None] of line 350 relies
    on. *)
Definition ApfsMacInfo (old : MacInfo) : MacInfo :=
  {| output_path := output_path old; password := password old;
     dont_decrypt := dont_decrypt old; is_apfs := false;
     macos_partition_start_offset := 0; volumes := [];
     apfs_sys_volume := None; apfs_data_volume := None;
     apfs_preboot_volume := None; apfs_update_volume := None;
     apfs_db := None; macos_FS := None;
     apfs_db_path := apfs_db_path old; hfs_native := None |}.

(** [mac_info.<handle>.dbo = mac_info.apfs_db]: the volume object is the
    one in [apfs_container.volumes]; on None the assignment raises. *)
Definition assign_dbo (handle : MacInfo → option nat) : M unit :=
  m ← get_mi;
  match handle m with
  | Some i => modify_mi (set_volumes (alter (set_dbo (apfs_db m)) i (volumes m)))
  | None => raise AttributeError
  end.

(** [os.path.join(output_path, "APFS_Volumes_" + str(container_uuid).upper() + ".db")] *)
Definition apfs_sqlite_path_of (out : string) (container_uuid : list byte) : string :=
  out +:+ "/" +:+ "APFS_Volumes_" +:+ uuid_str_upper container_uuid +:+ ".db".

(** *** FindMacOsPartitionInApfsContainer, lines 283-368 *)

(** Lines 292-304: the volumes are classified by role; a later volume of
    the same role replaces an earlier one. *)
Definition classify_volume (_ : unit) (iv : nat * Volume) : M unit :=
  let '(i, vol) := iv in
  match role vol with
  | role_system =>
      log DEBUG "{} is SYSTEM volume type";; modify_mi (set_apfs_sys_volume (Some i))
  | role_data =>
      log DEBUG "{} is DATA volume type";; modify_mi (set_apfs_data_volume (Some i))
  | role_preboot =>
      log DEBUG "{} is PREBOOT volume type";; modify_mi (set_apfs_preboot_volume (Some i))
  | role_update =>
      log DEBUG "{} is UPDATE volume type";; modify_mi (set_apfs_update_volume (Some i))
  | role_other _ => mret tt
  end.

Definition classify_volumes : M unit :=
  m ← get_mi; for_each (enumerate 0 (volumes m)) tt classify_volume.

(** Lines 306-347: the database is opened, and reused or rebuilt. The
    statement yields the local variables [use_existing_db] and
    [apfs_sqlite_path] the rest of the function sees. *)
Definition open_or_rebuild_db (container_uuid : list byte) : M (bool * string) :=
  m ← get_mi;
  let apfs_sqlite_path := apfs_sqlite_path_of (output_path m) container_uuid in
  db_exists ← os_path_exists apfs_sqlite_path;
  use_existing_db ←
    (if db_exists : bool then
       let existing_db := apfs_sqlite_path in
       ver_ok ← CheckVerInfo existing_db;
       vol_ok ← (if ver_ok : bool
                 then CheckVolInfoAndGetVolEncKey existing_db (volumes m)
                 else mret false);
       if vol_ok : bool then
         modify_mi (set_apfs_db (Some existing_db));;
         (if apfs_sys_volume m is Some _ then
            assign_dbo apfs_data_volume;;
            assign_dbo apfs_sys_volume;;
            assign_dbo apfs_preboot_volume;;
            assign_dbo apfs_update_volume;;
            UseCombinedVolume
          else mret tt);;
         log INFO "Found an existing APFS_Volumes.db in the output folder, looks good, will not create a new one!";;
         mret true
       else
         log INFO "Found an existing APFS_Volumes.db in the output folder, but it is STALE, creating a new one!";;
         os_remove_file apfs_sqlite_path;;
         mret false
     else mret false);
  apfs_sqlite_path ←
    (if use_existing_db : bool then mret apfs_sqlite_path
     else
       apfs_sqlite_path ← CreateSqliteDb apfs_sqlite_path;
       modify_mi (set_apfs_db (Some apfs_sqlite_path));;
       try_except (
         log INFO "Reading APFS volumes from container, this may take a few minutes ...";;
         ReadApfsVolumes;;
         WriteVolInfo apfs_sqlite_path (volumes m);;
         (if apfs_sys_volume m is Some _ then
            assign_dbo apfs_data_volume;;
            assign_dbo apfs_sys_volume;;
            created ← CreateCombinedVolume;
            if created : bool then mret tt else return_ false
          else mret tt);;
         WriteVersionInfo apfs_sqlite_path)
       (λ e, log_exception "Error while reading APFS volumes" e;; return_ false);;
       mret apfs_sqlite_path);
  modify_mi (set_apfs_db_path (Some apfs_sqlite_path));;
  mret (use_existing_db, apfs_sqlite_path).

(** Lines 356-362: the first volume whose root passes the validator. *)
Definition try_volume (_ : unit) (iv : nat * Volume) : M unit :=
  let '(i, _) := iv in
  modify_mi (set_macos_FS (Some (ApfsVolumeFs i)));;
  m ← get_mi;
  modify_mi (set_volumes (alter (set_dbo (apfs_db m)) i (volumes m)));;
  found ← FindMacOsFiles;
  if found : bool then return_ true else mret tt.

(** Lines 349-364. *)
Definition find_macos_volume : M unit :=
  m ← get_mi;
  if apfs_sys_volume m is Some _ then
    (if apfs_data_volume m is Some _ then mret tt
     else log ERROR "Found system volume, but no Data volume!";; return_ false);;
    found ← FindMacOsFiles;
    return_ found
  else
    for_each (enumerate 0 (volumes m)) tt try_volume;;
    modify_mi (set_macos_FS None).

(** Lines 305-367: the try statement around the database and the search. *)
Definition find_in_container (container_uuid : list byte) : M unit :=
  try_except (
    open_or_rebuild_db container_uuid;;
    find_macos_volume)
  (λ e,
    log INFO "Sqlite db could not be created at : ";;
    log_exception "Exception occurred when trying to create APFS_Volumes Sqlite db" e).

Definition FindMacOsPartitionInApfsContainer
    (container_size container_start_offset : Z) (container_uuid : list byte) : M bool :=
  call (
    emit (Call F_FindMacOsPartitionInApfsContainer container_start_offset);;
    modify_mi ApfsMacInfo;;
    modify_mi (set_is_apfs true);;
    modify_mi (set_macos_partition_start_offset container_start_offset);;
    vols ← lift (ApfsContainer D container_size container_start_offset);
    modify_mi (set_volumes vols);;
    classify_volumes;;
    find_in_container container_uuid;;
    return_ false).

(** *** FindMacOsPartition, lines 370-397 *)

(** One iteration of the loop over the partition table. The loop carries
    [gpt_header_offset] and [gpt_partitions_offset]. *)
Definition scan_part (block_size : Z) (gpt : Z * Z) (part : Part) : M (Z * Z) :=
  let '(gpt_header_offset, gpt_partitions_offset) := gpt in
  if bool_decide (Z.land (flags part) TSK_VS_PART_FLAG_META ≠ 0)
     && bool_decide (desc part = b"GPT Header")
  then
    let gpt_header_offset := block_size * start part in
    mret (gpt_header_offset, gpt_header_offset + block_size)
  else if bool_decide (Z.land (flags part) TSK_VS_PART_FLAG_ALLOC ≠ 0)
  then
    let partition_start_offset := block_size * start part in
    label ← lift (decode_upper (desc part));
    if decide (label = "EFI SYSTEM PARTITION") then
      log DEBUG "Skipping EFI System Partition @ offset {}";;
      mret gpt                                               (* continue *)
    else if decide (label = "APPLE_PARTITION_MAP") then
      log DEBUG "Skipping Apple_partition_map @ offset {}";;
      mret gpt                                               (* continue *)
    else
      log INFO "Looking at FS with volume label '{}'  @ offset {}";;
      is_apfs ← call_IsApfsContainer partition_start_offset;
      if is_apfs : bool then
        is_boot ← IsApfsBootContainer (gpt_partitions_offset + 128 * slot_num part);
        if is_boot : bool then
          uuid ← call_GetApfsContainerUuid partition_start_offset;
          log INFO "Found an APFS container with uuid: {}";;
          found ← FindMacOsPartitionInApfsContainer
                    (block_size * len part) partition_start_offset uuid;
          return_ found
        else mret gpt
      else
        found ← IsMacOsPartition partition_start_offset;
        if found : bool then return_ true else mret gpt
  else mret gpt.

Definition FindMacOsPartition (vol_info : list Part) (block_size : Z) : M bool :=
  call (
    emit (Call F_FindMacOsPartition 0);;
    for_each vol_info (-1, -1) (scan_part block_size);;
    return_ false).

(** *** The main program, lines 634-649: whole-image detection, then the
    partition table *)

Definition detect_macos : M unit :=
  is_apfs ← call_IsApfsContainer 0;
  (if is_apfs : bool then
     log DEBUG "Found container at offset zero in image, must be a container image";;
     uuid ← call_GetApfsContainerUuid 0;
     log INFO "Found an APFS container with uuid: {}";;
     found ← FindMacOsPartitionInApfsContainer (get_size img) 0 uuid;
     assign_found_macos found
   else
     is_hfs ← call_IsHFSVolume 0;
     if is_hfs : bool then
       found ← IsMacOsPartition 0;
       assign_found_macos found
     else mret tt);;
  found_macos ← get_found_macos;
  if found_macos : bool then mret tt
  else
    try_except (
      emit (Call F_Volume_Info 0);;
      '(vol_info, block_size) ← lift (Volume_Info D);
      found ← FindMacOsPartition vol_info block_size;
      assign_found_macos found;;
      lift (Disk_Info_Write D))
    (λ e, log_exception "Error while trying to read partitions on disk" e).

(** Lines 652-664, without the plugins: the outcome is reported. *)
Definition report_macos : M unit :=
  found_macos ← get_found_macos;
  if found_macos : bool then
    m ← get_mi;
    if is_apfs m then mret tt
    else
      lift (hfs_native_Initialize D (macos_partition_start_offset m));;
      modify_mi (set_hfs_native (Some (macos_partition_start_offset m)))
  else
    log WARNING ":( Could not find a partition having a macOS installation on it".

End Program.

(* ===================================================================== *)
(** ** Evidence used in the examples *)
(* ===================================================================== *)

Module Evidence.

(** Decoders that find nothing: no partition table, no file system, a
    container without volumes, no path. *)
Definition nothing : Decoders :=
  {| Volume_Info := Exc (DecoderError "no partition table");
     FS_Info := λ _, Exc (DecoderError "no file system");
     hfs_native_Initialize := λ _, Ok tt;
     ApfsContainer := λ _ _, Ok [];
     read_volume_records := Ok tt;
     credential_unlocks := λ _, false;
     combined_volume_created := true;
     path_is_valid := λ _ _, false;
     decode_upper_non_ascii := λ _, Exc UnicodeDecodeError;
     apfs_db_version := 5;
     next_available_file_name := λ p, p +:+ "_1";
     Disk_Info_Write := Ok tt |}.

Definition blank_mac_info : MacInfo :=
  {| output_path := "out"; password := ""; dont_decrypt := false;
     is_apfs := false; macos_partition_start_offset := 0; volumes := [];
     apfs_sys_volume := None; apfs_data_volume := None;
     apfs_preboot_volume := None; apfs_update_volume := None;
     apfs_db := None; macos_FS := None; apfs_db_path := None;
     hfs_native := None |}.

(** The world when the image has just been opened: nothing logged, an
    empty output folder, [found_macos = False]. *)
Definition initial : world :=
  {| trace := []; files := ∅; mi := blank_mac_info; found_macos := false |}.

(** A truncated image of sixteen bytes. *)
Definition short_image : RawImage := {| raw_size := 16; raw_extents := [] |}.

Definition uuid_1 : list byte :=
  [x01; x23; x45; x67; x89; xab; xcd; xef; x01; x23; x45; x67; x89; xab; xcd; xef].

(** An image that is one APFS container: the signature at 0x20 and the
    container uuid at 72. *)
Definition container_image : RawImage :=
  {| raw_size := 0x100000;
     raw_extents := [(0x20, b"NXSB"); (72, uuid_1)] |}.

(** An image with an HFS+ volume header signature at 0x400. *)
Definition hfs_image : RawImage :=
  {| raw_size := 0x100000; raw_extents := [(0x400, [x48; x2b])] |}.

(** An image of zeros. *)
Definition zero_image : RawImage := {| raw_size := 0x100000; raw_extents := [] |}.

Definition vol (name : string) (r : VolumeRoleType) (id : string) (enc : bool) : Volume :=
  {| volume_name := name; role := r; vol_uuid := id; is_encrypted := enc; dbo := None |}.

Definition plist : string := "/System/Library/CoreServices/SystemVersion.plist".

Definition with_container (vols : list Volume) (D : Decoders) : Decoders :=
  {| Volume_Info := Volume_Info D; FS_Info := FS_Info D;
     hfs_native_Initialize := hfs_native_Initialize D;
     ApfsContainer := λ _ _, Ok vols;
     read_volume_records := read_volume_records D;
     credential_unlocks := credential_unlocks D;
     combined_volume_created := combined_volume_created D;
     path_is_valid := path_is_valid D;
     decode_upper_non_ascii := decode_upper_non_ascii D;
     apfs_db_version := apfs_db_version D;
     next_available_file_name := next_available_file_name D;
     Disk_Info_Write := Disk_Info_Write D |}.

(** A container with a system and a preboot volume, and no data volume. *)
Definition system_only_volumes : list Volume :=
  [vol "Macintosh HD" role_system "S-1" false; vol "Preboot" role_preboot "P-1" false].

Definition system_only : Decoders := with_container system_only_volumes nothing.

(** A Catalina-style container without an update volume; the combined view
    of its system and data volumes holds a macOS installation. *)
Definition split_volumes : list Volume :=
  [vol "Macintosh HD" role_system "S-1" false;
   vol "Macintosh HD - Data" role_data "D-1" false;
   vol "Preboot" role_preboot "P-1" false].

Definition split_container : Decoders :=
  {| Volume_Info := Exc (DecoderError "no partition table");
     FS_Info := λ _, Exc (DecoderError "no file system");
     hfs_native_Initialize := λ _, Ok tt;
     ApfsContainer := λ _ _, Ok split_volumes;
     read_volume_records := Ok tt;
     credential_unlocks := λ _, false;
     combined_volume_created := true;
     path_is_valid := λ fs path,
       match fs with
       | Some (CombinedFs 0 1) => bool_decide (path = plist)
       | _ => false
       end;
     decode_upper_non_ascii := λ _, Exc UnicodeDecodeError;
     apfs_db_version := 5;
     next_available_file_name := λ p, p +:+ "_1";
     Disk_Info_Write := Ok tt |}.

Definition db_path : string :=
  "out/APFS_Volumes_01234567-89AB-CDEF-0123-456789ABCDEF.db".

(** The output folder after an earlier run on the split container. *)
Definition cached : world :=
  {| trace := [];
     files := {[ db_path := {| db_version := Some 5;
                               db_volumes := record_of <$> split_volumes |} ]};
     mi := blank_mac_info; found_macos := false |}.

(** The output folder with a database of an older schema, and [mac_info]
    with the volumes of the split container classified. *)
Definition stale_db : ApfsDb :=
  {| db_version := Some 4; db_volumes := [] |}.

Definition stale : world :=
  {| trace := [];
     files := {[ db_path := stale_db ]};
     mi := set_apfs_preboot_volume (Some 2%nat)
             (set_apfs_data_volume (Some 1%nat)
               (set_apfs_sys_volume (Some 0%nat)
                 (set_volumes split_volumes blank_mac_info)));
     found_macos := false |}.

(** A container whose one volume is encrypted; "secret" unlocks it and no
    password is given. *)
Definition locked_volumes : list Volume :=
  [vol "Macintosh HD" (role_other 0) "V-1" true].

Definition locked_container : Decoders :=
  {| Volume_Info := Exc (DecoderError "no partition table");
     FS_Info := λ _, Exc (DecoderError "no file system");
     hfs_native_Initialize := λ _, Ok tt;
     ApfsContainer := λ _ _, Ok locked_volumes;
     read_volume_records := Ok tt;
     credential_unlocks := String.eqb "secret";
     combined_volume_created := true;
     path_is_valid := λ fs path,
       match fs with
       | Some (ApfsVolumeFs 0) => bool_decide (path = plist)
       | _ => false
       end;
     decode_upper_non_ascii := λ _, Exc UnicodeDecodeError;
     apfs_db_version := 5;
     next_available_file_name := λ p, p +:+ "_1";
     Disk_Info_Write := Ok tt |}.

(** A container whose one volume is readable and holds no macOS. *)
Definition data_only : Decoders :=
  with_container [vol "Backup" (role_other 0) "V-2" false] nothing.

(** A disk with a GUID partition table: the EFI system partition, an APFS
    container without macOS, and an HFS+ volume with a macOS installation. *)
Definition gpt_header : Part :=
  {| flags := TSK_VS_PART_FLAG_META; desc := b"GPT Header"; start := 1; len := 1;
     slot_num := -1 |}.
Definition efi_part : Part :=
  {| flags := TSK_VS_PART_FLAG_ALLOC; desc := b"EFI System Partition";
     start := 40; len := 409600; slot_num := 0 |}.
Definition apfs_part : Part :=
  {| flags := TSK_VS_PART_FLAG_ALLOC; desc := b"Backup"; start := 409640;
     len := 1000000; slot_num := 1 |}.
Definition hfs_part : Part :=
  {| flags := TSK_VS_PART_FLAG_ALLOC; desc := b"Macintosh HD"; start := 1409640;
     len := 2000000; slot_num := 2 |}.
Definition unallocated_part : Part :=
  {| flags := TSK_VS_PART_FLAG_UNALLOC; desc := b"Unallocated"; start := 3409640;
     len := 2014; slot_num := -1 |}.

Definition gpt_disk_image : RawImage :=
  {| raw_size := 512 * 3411654;
     raw_extents :=
       [(512 * 409640 + 0x20, b"NXSB");
        (512 * 409640 + 72, uuid_1);
        (512 * 1 + 512 + 128 * 1, apfs_boot_uuid);
        (512 * 1409640 + 0x400, [x48; x2b])] |}.

Definition gpt_disk (table : list Part) : Decoders :=
  {| Volume_Info := Ok (table, 512);
     FS_Info := λ offset,
       if decide (offset = 512 * 1409640)
       then Ok {| ftype := TSK_FS_TYPE_HFS; open_dir_root := Ok tt |}
       else Exc (DecoderError "Cannot determine file system type");
     hfs_native_Initialize := λ _, Ok tt;
     ApfsContainer := λ _ _, Ok [vol "Backup" (role_other 0) "V-2" false];
     read_volume_records := Ok tt;
     credential_unlocks := λ _, false;
     combined_volume_created := true;
     path_is_valid := λ fs path,
       match fs with
       | Some (TskFs offset) =>
           bool_decide (offset = 512 * 1409640) && bool_decide (path = plist)
       | _ => false
       end;
     decode_upper_non_ascii := λ _, Exc UnicodeDecodeError;
     apfs_db_version := 5;
     next_available_file_name := λ p, p +:+ "_1";
     Disk_Info_Write := Ok tt |}.

End Evidence.

(* ===================================================================== *)
(** ** Vocabulary of the statements *)
(* ===================================================================== *)

(** The events a statement adds to the trace (newest first). *)
Definition trace_grows_by (w w' : world) (new : list event) : Prop :=
  trace w' = new ++ trace w.

Definition kernel_log (found : bool) : event :=
  if found then Log INFO "Found valid OSX/macOS kernel"
  else Log INFO "Could not find OSX/macOS kernel!".

(** The position of the last volume of role [r], counting from [k];
    [acc] when there is none. *)
Fixpoint last_with_role (r : VolumeRoleType) (vols : list Volume) (k : nat)
    (acc : option nat) : option nat :=
  match vols with
  | [] => acc
  | v :: rest =>
      last_with_role r rest (S k) (if decide (role v = r) then Some k else acc)
  end.

(** The handles of [mac_info] once the volumes are classified. *)
Definition classified (vols : list Volume) (k : nat) (m : MacInfo) : MacInfo :=
  set_apfs_sys_volume (last_with_role role_system vols k (apfs_sys_volume m))
    (set_apfs_data_volume (last_with_role role_data vols k (apfs_data_volume m))
      (set_apfs_preboot_volume (last_with_role role_preboot vols k (apfs_preboot_volume m))
        (set_apfs_update_volume (last_with_role role_update vols k (apfs_update_volume m))
          m))).

(** [mac_info] once the container at [offset] is open and its volumes are
    classified (lines 285-304). *)
Definition container_opened (vols : list Volume) (offset : Z) (m : MacInfo) : MacInfo :=
  classified vols 0
    (set_volumes vols
      (set_macos_partition_start_offset offset (set_is_apfs true (ApfsMacInfo m)))).

Definition is_log (e : event) : Prop :=
  match e with Log _ _ | LogException _ _ => True | _ => False end.

(** The validator was not called among these events. *)
Definition no_validation (new : list event) : Prop :=
  ∀ o, Call F_FindMacOsFiles o ∉ new.

(** Something was reported at error level among these events: a line of
    [log.error], or a line of [log.exception] with its exception. *)
Definition reported (new : list event) : Prop :=
  (∃ msg, Log ERROR msg ∈ new) ∨ (∃ msg e, LogException msg e ∈ new).

Ltac run :=
  cbv beta iota zeta delta
    [mbind M_bind mret M_ret emit log log_exception get_mi modify_mi get_files modify_files
     get_found_macos assign_found_macos lift raise return_ try_except call
     IsValidFilePath fst snd trace_grows_by].

Ltac unfold_db :=
  unfold find_in_container, open_or_rebuild_db, find_macos_volume, os_path_exists, os_remove_file,
    CreateSqliteDb, CheckVerInfo, CheckVolInfoAndGetVolEncKey, WriteVolInfo,
    WriteVersionInfo, ReadApfsVolumes, CreateCombinedVolume, UseCombinedVolume,
    assign_dbo.

Ltac step := run; cbn -[lookup insert delete apfs_sqlite_path_of elem_of].

(** The new events of a trace that was extended one event at a time. *)
Ltac new_events l tr :=
  lazymatch l with
  | tr => constr:(@nil event)
  | ?e :: ?l' => let p := new_events l' tr in constr:(e :: p)
  | ?l1 ++ ?l' => let p := new_events l' tr in constr:(l1 ++ p)
  end.

Ltac grows :=
  run; cbn [trace set_trace set_mi set_files set_found_macos];
  lazymatch goal with
  | |- ?l = ?n ++ ?tr =>
      let p := new_events l tr in
      unify n p; repeat (cbn [app]; rewrite <- app_assoc); cbn [app]; reflexivity
  end.

Ltac pick_event :=
  repeat first [apply list_elem_of_here | apply list_elem_of_further].

Ltac no_such_event :=
  let Hin := fresh "Hin" in
  intros ? Hin;
  repeat (apply elem_of_cons in Hin as [Hin|Hin]; [discriminate Hin|]);
  by apply elem_of_nil in Hin.

Ltac some_report :=
  first [left; eexists; by pick_event | right; do 2 eexists; by pick_event].

(** The term that keeps a run from reducing further. *)
Ltac blocker t :=
  lazymatch t with
  | ?a = _ => blocker a
  | (let (_, _) := ?s in _) => blocker s
  | match ?s with Normal _ => _ | Return _ => _ | Raise _ => _ end => blocker s
  | match ?s with Some _ => _ | None => _ end => blocker s
  | match ?s with Ok _ => _ | Exc _ => _ end => blocker s
  | (if ?s then _ else _) => blocker s
  | ?f ?x =>
      lazymatch f with
      | match ?s with Some _ => _ | None => _ end => blocker s
      | match ?s with Ok _ => _ | Exc _ => _ end => blocker s
      | (if ?s then _ else _) => blocker s
      | _ => t
      end
  | _ => t
  end.

(** Case analysis on what the environment answers, at the point the run
    has reached. *)
Ltac branch :=
  lazymatch goal with
  | |- context [delete ?k ?m !! ?k] => rewrite (lookup_delete_eq m k)
  | |- ?G =>
      let s := blocker G in
      lazymatch s with
      | <[?k:=_]> _ !! ?k => rewrite lookup_insert_eq
      | delete ?k _ !! ?k => rewrite lookup_delete_eq
      | Normal _ => fail
      | Return _ => fail
      | Raise _ => fail
      | (_, _) => fail
      | bool_decide ?P =>
          first
            [ match goal with H : s = _ |- _ => rewrite H end
            | rewrite (bool_decide_eq_true_2 P) by done
            | rewrite (bool_decide_eq_false_2 P) by done
            | destruct s eqn:? ]
      | _ =>
          first
            [ match goal with
              | H : s = _ |- _ => rewrite H
              | H : ?x = true |- _ => lazymatch s with context [x] => rewrite H end
              | H : ?x = false |- _ => lazymatch s with context [x] => rewrite H end
              end
            | let T := type of s in
              lazymatch T with
              | (_ * world)%type => fail
              | _ => destruct s eqn:?
              end ]
      end
  end.

Ltac explore := step; repeat (branch; step).


(** The record a container's volumes give when the database is built from
    nothing. *)
Definition fresh_db (D : Decoders) (vols : list Volume) : ApfsDb :=
  {| db_version := Some (apfs_db_version D); db_volumes := record_of <$> vols |}.

(** The validity of a database for the live volumes. *)
Definition db_valid (D : Decoders) (d : ApfsDb) (vols : list Volume) : Prop :=
  db_version d = Some (apfs_db_version D) ∧ db_volumes d = record_of <$> vols.

(** Nothing keeps the rebuild from completing: the volumes can be read and,
    with a system volume, there is a data volume to combine it with. *)
Definition rebuild_succeeds (D : Decoders) (m : MacInfo) : Prop :=
  existsb is_encrypted (volumes m) && negb (dont_decrypt m)
    && negb (credential_unlocks D (password m)) = false ∧
  read_volume_records D = Ok tt ∧
  (is_Some (apfs_sys_volume m) →
     is_Some (apfs_data_volume m) ∧ combined_volume_created D = true).


Definition stale_log : event :=
  Log INFO "Found an existing APFS_Volumes.db in the output folder, but it is STALE, creating a new one!".

#[global] Instance db_valid_dec (D : Decoders) (d : ApfsDb) (vols : list Volume) :
  Decision (db_valid D d vols).
Proof. unfold db_valid. apply _. Defined.

(** The line of the handler of line 365, for the exception it caught. *)
Definition reuse_failure_log (e : exn) : event :=
  LogException "Exception occurred when trying to create APFS_Volumes Sqlite db" e.

(** The line of the handler of line 344, for the exception it caught. *)
Definition read_failure_log (e : exn) : event :=
  LogException "Error while reading APFS volumes" e.

Ltac run_in Hyp :=
  cbv beta iota zeta delta
    [mbind M_bind mret M_ret emit log log_exception get_mi modify_mi get_files modify_files
     get_found_macos assign_found_macos lift raise return_ try_except call
     IsValidFilePath fst snd trace_grows_by] in Hyp.

(** However the statement ends, it leaves [found_macos] as it is, and every
    event it adds to the trace satisfies [P]. *)
Definition emits {A} (P : event → Prop) (m : M A) : Prop :=
  ∀ w, found_macos (m w).2 = found_macos w ∧
       ∃ new, trace (m w).2 = new ++ trace w ∧ Forall P new.

Definition is_ascii_char (c : ascii) : bool := (N_of_ascii c <? 128)%N.

(** The functions whose calls the APFS orchestrator records on its way,
    its own call apart. *)
Definition internal_calls : list fn :=
  [F_ReadApfsVolumes; F_WriteVolInfo; F_WriteVersionInfo; F_FindMacOsFiles;
   F_GetSystemInfo; F_GetUserInfo].

(** A partition the scan skips: it is not flagged allocated, or it is
    labelled as the EFI system partition or the Apple partition map. *)
Definition skipped (part : Part) : Prop :=
  Z.land (flags part) TSK_VS_PART_FLAG_ALLOC = 0 ∨
  eq_ignore_case (desc part) "EFI System Partition" ∨
  eq_ignore_case (desc part) "APPLE_PARTITION_MAP".

(** A partition the scan evaluates as a candidate. *)
Definition candidate (D : Decoders) (part : Part) : Prop :=
  Z.land (flags part) TSK_VS_PART_FLAG_ALLOC ≠ 0 ∧
  ∃ label, decode_upper D (desc part) = Ok label ∧
           label ≠ "EFI SYSTEM PARTITION" ∧ label ≠ "APPLE_PARTITION_MAP".

(** The calls that evaluate the partition at [offset] as a candidate. *)
Definition evaluates (offset : Z) (e : event) : Prop :=
  e = Call F_IsApfsContainer offset ∨
  e = Call F_GetApfsContainerUuid offset ∨
  e = Call F_FindMacOsPartitionInApfsContainer offset ∨
  e = Call F_IsMacOsPartition offset.

(** The event is not a call of one of these functions. *)
Definition not_call (fs : list fn) (e : event) : Prop :=
  ∀ f o, e = Call f o → f ∉ fs.

(** The trace when the main program, having found the APFS signature at
    offset 0, calls the orchestrator (lines 634-638). *)
Definition at_whole_image_container (w : world) : world :=
  set_trace
    (Log INFO "Found an APFS container with uuid: {}"
     :: Call F_GetApfsContainerUuid 0
     :: Log DEBUG "Found container at offset zero in image, must be a container image"
     :: Call F_IsApfsContainer 0 :: trace w) w.

(* ===================================================================== *)
(** ** The launcher: arguments, plugins and image helpers of mac_apt.py *)
(* ===================================================================== *)

Definition backslash : ascii := "092"%char.

(** A Python [str] whose characters are all ASCII. *)
Fixpoint is_ascii_str (s : string) : bool :=
  match s with
  | EmptyString => true
  | String c rest => is_ascii_char c && is_ascii_str rest
  end.

Fixpoint upper_str (s : string) : string :=
  match s with
  | EmptyString => EmptyString
  | String c rest => String (upper_ascii c) (upper_str rest)
  end.

Fixpoint lower_str (s : string) : string :=
  match s with
  | EmptyString => EmptyString
  | String c rest => String (lower_ascii c) (lower_str rest)
  end.

(** [collection.index(item)]: the first position of the item; where
    Python raises ValueError there is no position. *)
Fixpoint list_index {A} `{EqDecision A} (collection : list A) (item : A) : option nat :=
  match collection with
  | [] => None
  | x :: rest => if decide (x = item) then Some 0%nat else S <$> list_index rest item
  end.

(** [IsItemPresentInList(collection, item)], lines 47-53. *)
Definition IsItemPresentInList {A} `{EqDecision A} (collection : list A) (item : A)
  : bool :=
  match list_index collection item with
  | Some _ => true
  | None => false                      (* except ValueError: pass *)
  end.

(** [list.remove(x)]: the first occurrence goes; where Python raises
    ValueError there is no list. *)
Fixpoint list_remove {A} `{EqDecision A} (l : list A) (x : A) : option (list A) :=
  match l with
  | [] => None
  | y :: rest => if decide (y = x) then Some rest else (y ::.) <$> list_remove rest x
  end.

(** [s.endswith('-')] and [s[:-1]]. *)
Fixpoint endswith_dash (s : string) : bool :=
  match s with
  | EmptyString => false
  | String c EmptyString => Ascii.eqb c "-"
  | String _ rest => endswith_dash rest
  end.

Fixpoint without_last (s : string) : string :=
  match s with
  | EmptyString => EmptyString
  | String _ EmptyString => EmptyString
  | String c rest => String c (without_last rest)
  end.

(** How the interpreter ends at [sys.exit(arg)]: without an argument the
    exit status is 0; a string argument is printed on stderr and the exit
    status is 1. *)
Record SystemExit : Type := {
  exit_status : Z;
  stderr_text : option string
}.

Definition sys_exit (arg : option string) : SystemExit :=
  match arg with
  | None => {| exit_status := 0; stderr_text := None |}
  | Some text => {| exit_status := 1; stderr_text := Some text |}
  end.

(** [Exit(message)], lines 399-404. [log_exists] is the truth of the
    global [log], which is None until the logger is created (line 497).
    The function yields what it logs and how the process ends. *)
Definition Exit (log_exists : bool) (message : string) : list event * SystemExit :=
  if log_exists && (0 <? String.length message)%nat
  then ([Log INFO message], sys_exit None)
  else ([], sys_exit (Some message)).

(** A plugin of [plugins]: its [__Plugin_Name] and how [Plugin_Start]
    ends on the evidence at hand. *)
Record Plugin : Type := {
  Plugin_Name : string;
  Plugin_Start : result unit
}.

(** The branches of the image loading of lines 577-614, by what they
    construct. *)
Inductive loader : Type :=
| GetImgInfoObjectForE01
| GetImgInfoObjectForVMDK
| MountedVRZip
| GetImgInfoObjectForAff4
| GetImgInfoObjectForSparse
| pytsk3_Img_Info
| MountedMacInfo
| ZipMacInfo.

(** The branches that assign [img]; the others leave it None. *)
Definition opens_image (l : loader) : bool :=
  match l with
  | MountedVRZip | MountedMacInfo | ZipMacInfo => false
  | _ => true
  end.

(** How the selection of the plugins ends (lines 509-535). *)
Inductive selection : Type :=
| Selected (plugins_to_run plugins_not_to_run : list string)
| Exits (message : string)
| Raises_ValueError.

(** The OSError of an [open(path, "rb")] that fails. *)
Inductive os_error : Type :=
| IsADirectoryError
| PermissionError
| OSError (errno : Z).

(** How [OpenExtentDataFiles] ends: the file objects, by path and in
    order, are handed to the handle and it takes them; or RuntimeError is
    raised before any file is opened; or an [open] raises, the file
    objects opened before it staying open; or the handle raises on the
    file objects it is handed. *)
Inductive extents : Type :=
| Opened (file_objects : list string)
| RuntimeError (message : string)
| OpenRaises (file_objects : list string) (e : os_error)
| HandleRaises (file_objects : list string) (e : exn).

Section Launcher.

(** [str.upper()] of a string with characters outside ASCII. *)
Variable unicode_upper : string → string.
(** [CheckUserEnteredPluginNames(names, plugins)] of plugin.py. *)
Variable CheckUserEnteredPluginNames : list string → list Plugin → bool.
(** [os.path.join] and [os.path.exists] of the platform. *)
Variable os_path_join : string → string → string.
Variable os_path_exists_on_disk : string → bool.
(** [open(path, "rb")] once the files of [file_objects] are open: a file
    object, or the OSError it raises. *)
Variable open_rb : list string → string → option os_error.
(** [vmdk_handle.open_extent_data_files_file_objects(file_objects)]: the
    exception of pyvmdk, if it raises one. *)
Variable open_extent_data_files_file_objects : list string → option exn.

(** [s.upper()] *)
Definition str_upper (s : string) : string :=
  if is_ascii_str s then upper_str s else unicode_upper s.

(** [CheckInputType(input_type)], lines 55-57. *)
Definition CheckInputType (input_type : string) : bool :=
  let input_type := str_upper input_type in
  bool_decide (input_type ∈ ["AFF4"; "AXIOMZIP"; "DD"; "DMG"; "E01"; "MOUNTED";
                             "SPARSE"; "VMDK"; "VR"]).

(** The if/elif chain of lines 577-614 on [args.input_type.upper()]. *)
Definition loader_of (input_type : string) : option loader :=
  let t := str_upper input_type in
  if decide (t = "E01") then Some GetImgInfoObjectForE01
  else if decide (t = "VMDK") then Some GetImgInfoObjectForVMDK
  else if decide (t = "VR") then Some MountedVRZip
  else if decide (t = "AFF4") then Some GetImgInfoObjectForAff4
  else if decide (t = "SPARSE") then Some GetImgInfoObjectForSparse
  else if bool_decide (t ∈ ["DD"; "DMG"]) then Some pytsk3_Img_Info
  else if decide (t = "MOUNTED") then Some MountedMacInfo
  else if decide (t = "AXIOMZIP") then Some ZipMacInfo
  else None.

(** The test of line 629: the detection on [img] is entered. *)
Definition detection_entered (input_type : string) : bool :=
  negb (bool_decide (str_upper input_type ∈ ["MOUNTED"; "AXIOMZIP"; "VR"])).

(** *** The plugins to run, lines 509-535 *)

(** Lines 511-515: the names that end in '-' are exclusions. *)
Fixpoint split_plugin_names (names plugins_to_run plugins_not_to_run : list string)
  : list string * list string :=
  match names with
  | [] => (plugins_to_run, plugins_not_to_run)
  | plugin_name :: rest =>
      if endswith_dash plugin_name
      then split_plugin_names rest plugins_to_run
             (plugins_not_to_run ++ [without_last plugin_name])
      else split_plugin_names rest (plugins_to_run ++ [plugin_name]) plugins_not_to_run
  end.

(** Lines 442-447: ALL, FAST and then the name of every plugin. *)
Definition plugin_name_list (plugins : list Plugin) : list string :=
  "ALL" :: "FAST" :: (Plugin_Name <$> plugins).

(** Lines 518-520 and 523-525. *)
Definition all_plugin_names (plugins : list Plugin) : option (list string) :=
  plugins_to_run ← list_remove (plugin_name_list plugins) "ALL";
  list_remove plugins_to_run "FAST".

(** Lines 533-535. *)
Fixpoint remove_excluded (plugins_not_to_run plugins_to_run : list string)
  : option (list string) :=
  match plugins_not_to_run with
  | [] => Some plugins_to_run
  | plugin_name :: rest =>
      if IsItemPresentInList plugins_to_run plugin_name
      then plugins_to_run ← list_remove plugins_to_run plugin_name;
           remove_excluded rest plugins_to_run
      else remove_excluded rest plugins_to_run
  end.

Definition select_plugins (plugins : list Plugin) (args_plugin : list string)
  : selection :=
  let '(plugins_to_run, plugins_not_to_run) :=
    split_plugin_names (str_upper <$> args_plugin) [] [] in
  let chosen : string + option (list string * list string) :=
    if IsItemPresentInList plugins_to_run "ALL" then
      inr (plugins_to_run ← all_plugin_names plugins;
           Some (plugins_to_run, plugins_not_to_run))
    else if IsItemPresentInList plugins_to_run "FAST" then
      inr (plugins_to_run ← all_plugin_names plugins;
           Some (plugins_to_run,
                 plugins_not_to_run ++ ["IDEVICEBACKUPS"; "SPOTLIGHT"; "UNIFIEDLOGS"]))
    else if CheckUserEnteredPluginNames (plugins_to_run ++ plugins_not_to_run) plugins
    then inr (Some (plugins_to_run, plugins_not_to_run))
    else inl "Exiting -> Invalid plugin name entered." in
  match chosen with
  | inl message => Exits message
  | inr None => Raises_ValueError
  | inr (Some (plugins_to_run, plugins_not_to_run)) =>
      match remove_excluded plugins_not_to_run plugins_to_run with
      | Some plugins_to_run => Selected plugins_to_run plugins_not_to_run
      | None => Raises_ValueError
      end
  end.

(** *** OpenExtentDataFiles, lines 113-141 *)

(** [s.rpartition(sep)] for a one-character separator: the text before and
    after its last occurrence, if there is one. *)
Fixpoint rsplit_at (sep : ascii) (s : string) : option (string * string) :=
  match s with
  | EmptyString => None
  | String c rest =>
      match rsplit_at sep rest with
      | Some (head, tail) => Some (String c head, tail)
      | None => if Ascii.eqb c sep then Some (EmptyString, rest) else None
      end
  end.

Definition rpartition (sep : ascii) (s : string) : string * string * string :=
  match rsplit_at sep s with
  | Some (head, tail) => (head, String sep EmptyString, tail)
  | None => (EmptyString, EmptyString, s)
  end.

(** Lines 117-124: the file name of an extent descriptor. *)
Definition extent_file_name (extent_data_filename : string) : string :=
  let '(_, path_separator, filename) := rpartition "/" extent_data_filename in
  let '(path_separator, filename) :=
    if decide (path_separator = EmptyString)
    then let '(_, path_separator, filename) := rpartition backslash extent_data_filename in
         (path_separator, filename)
    else (path_separator, filename) in
  if decide (path_separator = EmptyString) then extent_data_filename else filename.

(** Lines 116-131: the loop stops at the first extent file that is not
    there. *)
Fixpoint locate_extent_data_files (base_directory : string)
    (extent_descriptors : list string) : list string :=
  match extent_descriptors with
  | [] => []
  | extent_data_filename :: rest =>
      let extent_data_file_path :=
        os_path_join base_directory (extent_file_name extent_data_filename) in
      if os_path_exists_on_disk extent_data_file_path
      then extent_data_file_path :: locate_extent_data_files base_directory rest
      else []                                                         (* break *)
  end.

(** Lines 136-139: the files are opened one after the other; an [open]
    that raises leaves the loop with the file objects made so far. *)
Fixpoint open_extent_data_files (extent_data_files file_objects : list string)
  : list string + list string * os_error :=
  match extent_data_files with
  | [] => inl file_objects
  | extent_data_file_path :: rest =>
      match open_rb file_objects extent_data_file_path with
      | None => open_extent_data_files rest (file_objects ++ [extent_data_file_path])
      | Some e => inr (file_objects, e)
      end
  end.

Definition OpenExtentDataFiles (extent_descriptors : list string)
    (number_of_extents : nat) (base_directory : string) : extents :=
  let extent_data_files := locate_extent_data_files base_directory extent_descriptors in
  if decide (length extent_data_files ≠ number_of_extents)
  then RuntimeError "Unable to locate all extent data files."
  else
    match open_extent_data_files extent_data_files [] with
    | inr (file_objects, e) => OpenRaises file_objects e
    | inl file_objects =>
        match open_extent_data_files_file_objects file_objects with
        | None => Opened file_objects
        | Some e => HandleRaises file_objects e
        end
    end.

(** *** The plugins are run, lines 652-664 *)

Definition run_plugin (plugins_to_run : list string) (_ : unit) (plugin : Plugin)
  : M unit :=
  if IsItemPresentInList plugins_to_run (Plugin_Name plugin) then
    log INFO "--------------------------------------------------";;
    log INFO ("Running plugin " +:+ Plugin_Name plugin);;
    try_except (lift (Plugin_Start plugin))
      (λ e, log_exception
              ("An exception occurred while running plugin - " +:+ Plugin_Name plugin) e)
  else mret tt.

Definition process_plugins (D : Decoders) (plugins : list Plugin)
    (plugins_to_run : list string) : M unit :=
  found_macos ← get_found_macos;
  if found_macos : bool then
    m ← get_mi;
    (if is_apfs m then mret tt
     else
       lift (hfs_native_Initialize D (macos_partition_start_offset m));;
       modify_mi (set_hfs_native (Some (macos_partition_start_offset m))));;
    for_each plugins tt (run_plugin plugins_to_run)
  else
    log WARNING ":( Could not find a partition having a macOS installation on it".

End Launcher.

(* ===================================================================== *)
(** ** Vocabulary of the further statements *)
(* ===================================================================== *)

(** What holds when a statement ends, by the way it ends: on falling
    through with a value, on returning from the function, on raising. *)
Definition triple {A} (P : world → Prop) (m : M A)
    (QN : A → world → Prop) (QR : bool → world → Prop) (QE : exn → world → Prop)
  : Prop :=
  ∀ w, P w →
    match m w with
    | (Normal a, w') => QN a w'
    | (Return v, w') => QR v w'
    | (Raise e, w') => QE e w'
    end.

(** The validator's file is present on the file system [mac_info] points
    to. *)
Definition confirmed (D : Decoders) (w : world) : Prop :=
  path_is_valid D (macos_FS (mi w))
    "/System/Library/CoreServices/SystemVersion.plist" = true.

(** The last position of a volume of role [r]. *)
Definition last_position (r : VolumeRoleType) (vols : list Volume) (i : nat) : Prop :=
  (∃ v, vols !! i = Some v ∧ role v = r) ∧
  ∀ j v, (i < j)%nat → vols !! j = Some v → role v ≠ r.

(** Equality of two strings without regard to ASCII letter case. *)
Definition same_ignoring_case (s t : string) : Prop := lower_str s = lower_str t.

(** The character does not occur in the string. *)
Fixpoint free_of (c : ascii) (s : string) : Prop :=
  match s with
  | EmptyString => True
  | String c' rest => c' ≠ c ∧ free_of c rest
  end.

(** The names a plugin list is asked to run and to leave out, as the
    arguments give them. *)
Definition asked (unicode_upper : string → string) (args_plugin : list string)
  : list string * list string :=
  split_plugin_names (str_upper unicode_upper <$> args_plugin) [] [].

(** How often a name occurs in a list of names. *)
Fixpoint occurrences (name : string) (names : list string) : nat :=
  match names with
  | [] => 0%nat
  | n :: rest => ((if decide (n = name) then 1 else 0) + occurrences name rest)%nat
  end.

(** The posts of the statements when the question is what a True result
    stands for: a function that returns True has seen the validator's
    file. *)
Definition found_post (D : Decoders) : bool → world → Prop :=
  λ v w, v = true → confirmed D w.

Definition any_post {A} : A → world → Prop := λ _ _, True.

Definition sound {A} (D : Decoders) (P : world → Prop) (m : M A)
    (QN : A → world → Prop) : Prop :=
  triple P m QN (found_post D) any_post.

(** The failures of the checks on the whole image that the main program
    does not handle: a signature cannot be read, the uuid of the container
    cannot be read, or the container cannot be opened. *)
Definition whole_image_failure {I} `{Img_Info I} (img : I) (D : Decoders) (e : exn)
  : Prop :=
  IsApfsContainer img 0 = Exc e ∨
  (IsApfsContainer img 0 = Ok true ∧
   (GetApfsContainerUuid img 0 = Exc e ∨
    ((∃ uuid, GetApfsContainerUuid img 0 = Ok uuid) ∧
     ApfsContainer D (get_size img) 0 = Exc e))) ∨
  (IsApfsContainer img 0 = Ok false ∧ IsHFSVolume img 0 = Exc e).

(** The file system at an offset is HFS+ with a root folder that opens,
    and the native parser starts on it. *)
Definition hfs_opens (D : Decoders) (offset : Z) : Prop :=
  ∃ fs, FS_Info D offset = Ok fs ∧
        (∀ value, ftype fs ≠ TSK_FS_TYPE_other value) ∧
        open_dir_root fs = Ok tt ∧
        hfs_native_Initialize D offset = Ok tt.

(** What a handle of [mac_info] holds after the volumes are classified:
    the last volume of its role, or what it held before when no volume has
    the role. *)
Definition handle_after (r : VolumeRoleType) (vols : list Volume)
    (before after : option nat) : Prop :=
  ∀ i, after = Some i ↔
       last_position r vols i ∨ ((∀ v, v ∈ vols → role v ≠ r) ∧ before = Some i).

(** The value of a hexadecimal digit, and the byte of two digits. *)
Definition hex_value (c : ascii) : N :=
  let n := N_of_ascii c in
  if (n <? 58)%N then (n - 48)%N else (n - 55)%N.

Definition byte_of_hex (hi lo : ascii) : byte :=
  match Byte.of_N (hex_value hi * 16 + hex_value lo) with
  | Some x => x
  | None => x00
  end.

(** The bytes of a string of two-digit groups. *)
Fixpoint bytes_of_hex (s : string) : list byte :=
  match s with
  | String hi (String lo rest) => byte_of_hex hi lo :: bytes_of_hex rest
  | _ => []
  end.

(** Every file of the list opens, each one with the files before it
    open. *)
Definition all_open (open_rb : list string → string → option os_error)
    (file_objects extent_data_files : list string) : Prop :=
  ∀ before path after, extent_data_files = before ++ path :: after →
    open_rb (file_objects ++ before) path = None.

(** The events of one partition that is looked at as an APFS container
    and no further. *)
Definition signature_checks (offset entry : Z) (e : event) : Prop :=
  is_log e ∨ e = Call F_IsApfsContainer offset ∨ e = Call F_IsApfsBootContainer entry.

(* ===================================================================== *)
(** ** Further evidence used in the examples *)
(* ===================================================================== *)

Module Launch.

Definition wifi : Plugin := {| Plugin_Name := "WIFI"; Plugin_Start := Ok tt |}.
Definition spotlight : Plugin :=
  {| Plugin_Name := "SPOTLIGHT"; Plugin_Start := Exc (DecoderError "store.db") |}.
Definition safari : Plugin := {| Plugin_Name := "SAFARI"; Plugin_Start := Ok tt |}.

Definition plugins : list Plugin := [wifi; spotlight; safari].

(** A name check that accepts the names of the plugins above. *)
Definition known (names : list string) (plugins : list Plugin) : bool :=
  forallb (λ n, bool_decide (n ∈ (Plugin_Name <$> plugins))) names.

(** An APFS container of the disk of [Evidence] whose GPT entry, in slot
    2, does not carry the APFS partition type. *)
Definition unmarked_part : Part :=
  {| flags := TSK_VS_PART_FLAG_ALLOC; desc := b"Backup"; start := 409640;
     len := 1000000; slot_num := 2 |}.

(** The extents of a split VMDK as its descriptor names them, and a
    directory where the second extent's name is a directory. *)
Definition extent_names : list string :=
  ["disk-s001.vmdk"; "C:\vm\disk-s002.vmdk"; "disks/disk-s003.vmdk"].

Definition join (base_directory filename : string) : string :=
  base_directory +:+ "/" +:+ filename.

Definition on_disk (path : string) : bool :=
  bool_decide (path ∈ ["/vm/disk-s001.vmdk"; "/vm/disk-s002.vmdk"; "/vm/disk-s003.vmdk"]).

Definition second_is_directory (file_objects : list string) (path : string)
  : option os_error :=
  if decide (path = "/vm/disk-s002.vmdk") then Some IsADirectoryError else None.

(** A container of three volumes without a system volume; macOS is on the
    second and on the third. *)
Definition three_volumes : list Volume :=
  [Evidence.vol "Recovery" (role_other 4) "V-1" false;
   Evidence.vol "Macintosh HD" (role_other 0) "V-2" false;
   Evidence.vol "Macintosh HD copy" (role_other 0) "V-3" false].

Definition macos_on_later_volumes : Decoders :=
  {| Volume_Info := Exc (DecoderError "no partition table");
     FS_Info := λ _, Exc (DecoderError "no file system");
     hfs_native_Initialize := λ _, Ok tt;
     ApfsContainer := λ _ _, Ok three_volumes;
     read_volume_records := Ok tt;
     credential_unlocks := λ _, false;
     combined_volume_created := true;
     path_is_valid := λ fs path,
       match fs with
       | Some (ApfsVolumeFs 1) | Some (ApfsVolumeFs 2) =>
           bool_decide (path = Evidence.plist)
       | _ => false
       end;
     decode_upper_non_ascii := λ _, Exc UnicodeDecodeError;
     apfs_db_version := 5;
     next_available_file_name := λ p, p +:+ "_1";
     Disk_Info_Write := Ok tt |}.

(** [mac_info] with the three volumes, none of them classified. *)
Definition three_volumes_open : world :=
  set_mi (set_volumes three_volumes Evidence.blank_mac_info) Evidence.initial.

End Launch.

(** The validator's file is present on the volume at a position of the
    container. *)
Definition volume_confirmed (D : Decoders) (i : nat) : bool :=
  path_is_valid D (Some (ApfsVolumeFs i))
    "/System/Library/CoreServices/SystemVersion.plist".

(** The first position below [n] at which [volume_confirmed] holds. *)
Definition first_confirmed (D : Decoders) (n i : nat) : Prop :=
  (i < n)%nat ∧ volume_confirmed D i = true ∧
  ∀ j, (j < i)%nat → volume_confirmed D j = false.

(** The trace when the main program, having found the HFS signature and
    no APFS signature at offset 0, calls [IsMacOsPartition] (lines
    634-640). *)
Definition at_whole_image_hfs (w : world) : world :=
  set_trace (Call F_IsHFSVolume 0 :: Call F_IsApfsContainer 0 :: trace w) w.

(** The scan of the partitions [before] goes through: it comes to the next
    partition with the GPT offsets [gpt], in the world [w']. *)
Definition scan_reaches {I} `{Img_Info I} (img : I) (D : Decoders) (block_size : Z)
    (before : list Part) (w : world) (gpt : Z * Z) (w' : world) : Prop :=
  for_each before (-1, -1) (scan_part img D block_size)
    (set_trace (Call F_FindMacOsPartition 0 :: trace w) w) = (Normal gpt, w').

(** The test of line 374: the entry is the GPT header. *)
Definition is_gpt_header (part : Part) : bool :=
  bool_decide (Z.land (flags part) TSK_VS_PART_FLAG_META ≠ 0)
  && bool_decide (desc part = b"GPT Header").

(** The GPT offsets the scan holds after the entries of a table: those of
    the last GPT header among them, or the ones it started with. *)
Fixpoint gpt_offsets_after (block_size : Z) (parts : list Part) (gpt : Z * Z) : Z * Z :=
  match parts with
  | [] => gpt
  | part :: rest =>
      gpt_offsets_after block_size rest
        (if is_gpt_header part
         then (block_size * start part, block_size * start part + block_size)
         else gpt)
  end.

(* ===================================================================== *)
(** ** Signature detectors *)
(* ===================================================================== *)

Section Detectors.

Context {I : Type} `{Img_Info I}.
Variable img : I.

(** C1, as amended. [IsApfsContainer] returns True exactly when the read of
    4 bytes at offset + 0x20 succeeds with the bytes NXSB, and False exactly
    when the read succeeds with anything else; when the read fails it
    returns nothing: it raises ValueError for that offset. *)
Theorem IsApfsContainer_spec (partition_start_offset : Z) :
  let at_sig := read img (partition_start_offset + 0x20) 4 in
  (IsApfsContainer img partition_start_offset = Ok true ↔ at_sig = Ok (b"NXSB")) ∧
  (IsApfsContainer img partition_start_offset = Ok false ↔
     ∃ data, at_sig = Ok data ∧ data ≠ b"NXSB") ∧
  (IsApfsContainer img partition_start_offset
     = Exc (CannotSeek (partition_start_offset + 0x20)) ↔
     ∃ e, at_sig = Exc e).
Proof.
  unfold IsApfsContainer. cbn zeta.
  destruct (read img (partition_start_offset + 0x20) 4) as [data|e].
  - destruct (decide (data = b"NXSB")) as [->|Hne].
    + repeat split; try done.
      * intros (d & [= <-] & Hd). done.
      * intros (e & [=]).
    + repeat split; try done.
      * intros [= ->]. done.
      * intros _. by exists data.
      * intros (e & [=]).
  - repeat split; try done.
    + intros (d & [=] & _).
    + intros _. by exists e.
Qed.

(** C8. [IsHFSVolume] returns True exactly when the 2 bytes read at
    offset + 0x400 are 0x48 0x58 or 0x48 0x2B, and False exactly when the
    read gives any other bytes. *)
Theorem IsHFSVolume_spec (partition_start_offset : Z) :
  let at_sig := read img (partition_start_offset + 0x400) 2 in
  (IsHFSVolume img partition_start_offset = Ok true ↔
     at_sig = Ok [x48; x58] ∨ at_sig = Ok [x48; x2b]) ∧
  (IsHFSVolume img partition_start_offset = Ok false ↔
     ∃ data, at_sig = Ok data ∧ data ≠ [x48; x58] ∧ data ≠ [x48; x2b]).
Proof.
  unfold IsHFSVolume. cbn zeta.
  destruct (read img (partition_start_offset + 0x400) 2) as [data|e].
  - destruct (decide (data = [x48; x58])) as [->|Hne1];
      [|destruct (decide (data = [x48; x2b])) as [->|Hne2]].
    + repeat split; try done; [by left|].
      intros (d & [= <-] & Hd & _). done.
    + repeat split; try done; [by right|].
      intros (d & [= <-] & _ & Hd). done.
    + repeat split; try done.
      * intros [[= ->]|[= ->]]; done.
      * intros _. by exists data.
  - repeat split; try done.
    + intros [[=]|[=]].
    + intros (d & [=] & _).
Qed.

End Detectors.

(** C1, as stated, fails: on an image of sixteen bytes the read at 0x20
    fails, and [IsApfsContainer] does not return False: the error goes on
    to the caller as a ValueError. *)
Lemma IsApfsContainer_read_failure_is_raised :
  read Evidence.short_image (0 + 0x20) 4 = Exc IOError ∧
  IsApfsContainer Evidence.short_image 0 = Exc (CannotSeek 0x20) ∧
  IsApfsContainer Evidence.short_image 0 ≠ Ok false.
Proof. repeat split; vm_compute; congruence. Qed.

(* ===================================================================== *)
(** ** Traces *)
(* ===================================================================== *)

Lemma no_validation_nil : no_validation [].
Proof. intros o Hin. by apply elem_of_nil in Hin. Qed.

Lemma no_validation_app (l1 l2 : list event) :
  no_validation l1 → no_validation l2 → no_validation (l1 ++ l2).
Proof.
  unfold no_validation. intros H1 H2 o Hin.
  apply elem_of_app in Hin as [Hin|Hin]; [by apply (H1 o)|by apply (H2 o)].
Qed.

Lemma no_validation_cons (e : event) (l : list event) :
  (∀ o, e ≠ Call F_FindMacOsFiles o) → no_validation l → no_validation (e :: l).
Proof.
  unfold no_validation. intros He Hl o Hin.
  apply elem_of_cons in Hin as [Hin|Hin]; [by apply (He o)|by apply (Hl o)].
Qed.

Lemma no_validation_logs (l : list event) : Forall is_log l → no_validation l.
Proof.
  intros Hl o Hin. rewrite Forall_forall in Hl. apply Hl in Hin. exact Hin.
Qed.

Lemma reported_app_l (l1 l2 : list event) : reported l1 → reported (l1 ++ l2).
Proof.
  intros [(msg & H)|(msg & e & H)]; [left; exists msg|right; exists msg, e];
    apply elem_of_app; by left.
Qed.

Lemma reported_app_r (l1 l2 : list event) : reported l2 → reported (l1 ++ l2).
Proof.
  intros [(msg & H)|(msg & e & H)]; [left; exists msg|right; exists msg, e];
    apply elem_of_app; by right.
Qed.

Lemma reported_cons (e : event) (l : list event) : reported l → reported (e :: l).
Proof. apply (reported_app_r [e]). Qed.

(* ===================================================================== *)
(** ** The installation validator *)
(* ===================================================================== *)

(** What [FindMacOsFiles] does, in full. *)
Lemma FindMacOsFiles_run (D : Decoders) (w : world) :
  let present := path_is_valid D (macos_FS (mi w)) in
  let version := present "/System/Library/CoreServices/SystemVersion.plist" in
  let kernel := present "/System/Library/Kernels/kernel" || present "/mach_kernel" in
  FindMacOsFiles D w =
    (Normal version,
     set_trace
       (((if version
          then [Call F_GetUserInfo 0; Call F_GetSystemInfo 0; kernel_log kernel]
          else [Log INFO "Could not find OSX/macOS installation!"])
         ++ [Call F_FindMacOsFiles 0]) ++ trace w) w).
Proof.
  unfold FindMacOsFiles. run. destruct w as [tr fs m fm]. cbn.
  destruct (path_is_valid D (macos_FS m) "/System/Library/CoreServices/SystemVersion.plist");
    cbn; [|reflexivity].
  destruct (path_is_valid D (macos_FS m) "/System/Library/Kernels/kernel"); cbn;
    [reflexivity|].
  destruct (path_is_valid D (macos_FS m) "/mach_kernel"); reflexivity.
Qed.

(** C9. On every file system handle the validator confirms a macOS
    installation exactly when SystemVersion.plist is present at its fixed
    path: its result is the presence of that file. The line about a
    missing kernel is logged exactly when the file is present and there is
    no kernel at either canonical path, and the result is True then too. *)
Theorem FindMacOsFiles_confirms_iff_version_file (D : Decoders) (w : world) :
  let present := path_is_valid D (macos_FS (mi w)) in
  let version := present "/System/Library/CoreServices/SystemVersion.plist" in
  let kernel := present "/System/Library/Kernels/kernel" || present "/mach_kernel" in
  ∃ new,
    trace_grows_by w (FindMacOsFiles D w).2 new ∧
    (FindMacOsFiles D w).1 = Normal version ∧
    (Log INFO "Could not find OSX/macOS kernel!" ∈ new ↔
       version = true ∧ kernel = false).
Proof.
  intros present version kernel. rewrite FindMacOsFiles_run.
  fold present version kernel. eexists. split; [reflexivity|].
  split; [reflexivity|].
  destruct version, kernel; cbn; (split; [intros Hin|intros [? ?]]);
    try done; try (by pick_event);
    repeat (apply elem_of_cons in Hin as [Hin|Hin]; [discriminate Hin|]);
    by apply elem_of_nil in Hin.
Qed.

(* ===================================================================== *)
(** ** Classification of the volumes *)
(* ===================================================================== *)

Lemma last_with_role_None r vols k acc :
  last_with_role r vols k acc = None ↔ acc = None ∧ ∀ v, v ∈ vols → role v ≠ r.
Proof.
  revert k acc. induction vols as [|v rest IH]; intros k acc; cbn.
  - split; [intros ->; split; [done|]; intros v Hv; by apply elem_of_nil in Hv|].
    by intros [-> _].
  - rewrite IH. destruct (decide (role v = r)) as [Hr|Hr].
    + split; [intros [[=] _]|]. intros [_ Hall]. exfalso.
      apply (Hall v); [left|done].
    + split.
      * intros [-> Hall]. split; [done|]. intros v' [->|Hin]%elem_of_cons; auto.
      * intros [-> Hall]. split; [done|]. intros v' Hin. apply Hall. by right.
Qed.

Lemma last_with_role_Some r vols k acc :
  (∃ v, v ∈ vols ∧ role v = r) → is_Some (last_with_role r vols k acc).
Proof.
  intros (v & Hin & Hr).
  destruct (last_with_role r vols k acc) eqn:E; [by eexists|].
  apply last_with_role_None in E as [_ Hall]. by destruct (Hall v Hin).
Qed.

Lemma classify_from (vols : list Volume) (k : nat) (w : world) :
  ∃ new,
    for_each (enumerate k vols) tt classify_volume w
      = (Normal tt, set_trace (new ++ trace w) (set_mi (classified vols k (mi w)) w)) ∧
    Forall is_log new.
Proof.
  revert k w. induction vols as [|v rest IH]; intros k w.
  - exists []. split; [|constructor]. destruct w as [tr fs m fm];
    destruct m as [out pw dd ia pso vs sys data pre upd db mfs dbp hfs]. reflexivity.
  - cbn [enumerate for_each].
    unfold mbind at 1, M_bind at 1.
    assert (∃ new1 m1, classify_volume tt (k, v) w
              = (Normal tt, set_trace (new1 ++ trace w) (set_mi m1 w)) ∧
            Forall is_log new1 ∧
            classified rest (S k) m1 = classified (v :: rest) k (mi w))
      as (new1 & m1 & -> & Hlog1 & Hm1).
    { unfold classify_volume. destruct w as [tr fs m fm];
    destruct m as [out pw dd ia pso vs sys data pre upd db mfs dbp hfs].
      unfold classified. cbn [last_with_role].
      destruct (role v) eqn:Hr; run; cbn;
        [eexists [_], _ | eexists [_], _ | eexists [_], _ | eexists [_], _
        | eexists [], _];
        (split; [reflexivity|]); (split; [repeat constructor|]);
        rewrite ?Hr; reflexivity. }
    destruct (IH (S k) (set_trace (new1 ++ trace w) (set_mi m1 w))) as (new2 & -> & Hlog2).
    exists (new2 ++ new1). split.
    + cbn. rewrite Hm1. by rewrite app_assoc.
    + by apply Forall_app.
Qed.

(* ===================================================================== *)
(** ** The APFS orchestrator *)
(* ===================================================================== *)

(** Up to the try statement the function opens the container and
    classifies its volumes; only debug lines are logged on the way. *)
Lemma FindMacOsPartitionInApfsContainer_opened (D : Decoders)
    (container_size container_start_offset : Z) (container_uuid : list byte)
    (w : world) (vols : list Volume) :
  ApfsContainer D container_size container_start_offset = Ok vols →
  ∃ new0,
    Forall is_log new0 ∧
    FindMacOsPartitionInApfsContainer D container_size container_start_offset
      container_uuid w =
    match
      find_in_container D container_uuid
        {| trace := new0 ++ Call F_FindMacOsPartitionInApfsContainer container_start_offset
                         :: trace w;
           files := files w;
           mi := container_opened vols container_start_offset (mi w);
           found_macos := found_macos w |}
    with
    | (Normal _, w') => (Normal false, w')
    | (Return v, w') => (Normal v, w')
    | (Raise e, w') => (Raise e, w')
    end.
Proof.
  intros Hopen.
  unfold FindMacOsPartitionInApfsContainer, classify_volumes. step.
  rewrite Hopen. step.
  match goal with |- context [for_each _ tt classify_volume ?w0] =>
    destruct (classify_from vols 0 w0) as (new0 & -> & Hlog0) end.
  exists new0. split; [exact Hlog0|]. step.
  unfold container_opened.
  destruct (find_in_container _ _ _) as [[| |] ?]; reflexivity.
Qed.

(** With a system volume and no data volume the try statement never gets
    to the validator, whatever the state of the database. *)
Lemma find_in_container_without_data (D : Decoders) (container_uuid : list byte)
    (w : world) (i : nat) :
  apfs_sys_volume (mi w) = Some i →
  apfs_data_volume (mi w) = None →
  macos_FS (mi w) = None →
  let '(r, w') := find_in_container D container_uuid w in
  ∃ new,
    trace_grows_by w w' new ∧
    no_validation new ∧
    reported new ∧
    macos_FS (mi w') = None ∧
    (r = Normal tt ∨ r = Return false).
Proof.
  destruct w as [tr fs m fm];
    destruct m as [out pw dd ia pso vs sys data pre upd db mfs dbp hfs]. cbn. intros -> -> ->.
  unfold_db. step.
  set (path := apfs_sqlite_path_of _ _).
  explore.
  all: eexists; (split; [grows|]);
    (split; [no_such_event|]); (split; [some_report|]); (split; [reflexivity|]);
    first [by left | by right].
Qed.

(** C3. For every container that opens with a volume of role SYSTEM and no
    volume of role DATA, [FindMacOsPartitionInApfsContainer] returns False,
    having logged at error level; the validator is never called and no file
    system is left active in [mac_info]. *)
Theorem system_without_data_fails (D : Decoders)
    (container_size container_start_offset : Z) (container_uuid : list byte)
    (w : world) (vols : list Volume) :
  ApfsContainer D container_size container_start_offset = Ok vols →
  (∃ v, v ∈ vols ∧ role v = role_system) →
  (∀ v, v ∈ vols → role v ≠ role_data) →
  ∃ w' new,
    FindMacOsPartitionInApfsContainer D container_size container_start_offset
      container_uuid w = (Normal false, w') ∧
    trace_grows_by w w' new ∧
    no_validation new ∧
    reported new ∧
    macos_FS (mi w') = None.
Proof.
  intros Hopen Hsys Hdata.
  destruct (FindMacOsPartitionInApfsContainer_opened D container_size
              container_start_offset container_uuid w vols Hopen)
    as (new0 & Hlog0 & ->).
  destruct (last_with_role_Some role_system vols 0 None Hsys) as [i Hi].
  assert (last_with_role role_data vols 0 None = None) as Hd
    by by apply last_with_role_None.
  match goal with |- context [find_in_container D container_uuid ?w1] =>
    pose proof (find_in_container_without_data D container_uuid w1 i Hi Hd eq_refl)
      as Hdb;
    destruct (find_in_container D container_uuid w1) as [r w2] end.
  destruct Hdb as (new1 & Hgrow & Hnoval & Hrep & Hfs & Hr).
  unfold trace_grows_by in Hgrow. cbn in Hgrow.
  exists w2, (new1 ++ new0 ++ [Call F_FindMacOsPartitionInApfsContainer container_start_offset]).
  split; [by destruct Hr as [-> | ->]|].
  split; [unfold trace_grows_by; rewrite Hgrow; grows|].
  split; [|split; [by apply reported_app_l|exact Hfs]].
  apply no_validation_app; [done|].
  apply no_validation_app; [by apply no_validation_logs|].
  apply no_validation_cons; [done|]. apply no_validation_nil.
Qed.

(** *** Reuse of a valid database *)

Lemma reuse_valid_db (D : Decoders) (container_uuid : list byte) (w : world)
    (d : ApfsDb) :
  let path := apfs_sqlite_path_of (output_path (mi w)) container_uuid in
  files w !! path = Some d →
  db_valid D d (volumes (mi w)) →
  let '(r, w') := open_or_rebuild_db D container_uuid w in
  ∃ new,
    trace_grows_by w w' new ∧
    Forall is_log new ∧
    files w' = files w ∧
    apfs_db (mi w') = Some path ∧
    match apfs_sys_volume (mi w), apfs_data_volume (mi w),
          apfs_preboot_volume (mi w), apfs_update_volume (mi w) with
    | None, _, _, _ | Some _, Some _, Some _, Some _ => r = Normal (true, path)
    | _, _, _, _ => r = Raise AttributeError ∧ macos_FS (mi w') = macos_FS (mi w)
    end.
Proof.
  destruct w as [tr fs m fm];
    destruct m as [out pw dd ia pso vs sys data pre upd db mfs dbp hfs]. cbn. intros Hfs [Hver Hvol].
  unfold_db. step.
  set (path := apfs_sqlite_path_of _ _) in *.
  explore.
  all: eexists; (split; [grows|]); (split; [repeat constructor|]);
    (split; [reflexivity|]); (split; [reflexivity|]); by repeat split.
Qed.

(** *** Rebuild of a stale database *)

Lemma rebuild_stale_db (D : Decoders) (container_uuid : list byte) (w : world)
    (d : ApfsDb) :
  let path := apfs_sqlite_path_of (output_path (mi w)) container_uuid in
  files w !! path = Some d →
  ¬ db_valid D d (volumes (mi w)) →
  let '(r, w') := open_or_rebuild_db D container_uuid w in
  ∃ new d',
    trace_grows_by w w' new ∧
    (∃ post, new = post ++ [CreateSqliteDb_at path; os_remove path; stale_log]) ∧
    files w' = <[path := d']> (files w) ∧
    apfs_db (mi w') = Some path ∧
    (∀ use_existing_db p, r = Normal (use_existing_db, p) →
       use_existing_db = false ∧ p = path ∧ d' = fresh_db D (volumes (mi w))).
Proof.
  destruct w as [tr fs m fm];
    destruct m as [out pw dd ia pso vs sys data pre upd db mfs dbp hfs]. cbn. intros Hfs Hstale.
  unfold_db. step.
  set (path := apfs_sqlite_path_of _ _) in *.
  destruct (bool_decide (db_version d = Some (apfs_db_version D))) eqn:Hver;
    [destruct (bool_decide (db_volumes d = record_of <$> vs)) eqn:Hvol|].
  { destruct Hstale. split; [exact (bool_decide_eq_true_1 _ Hver)|exact (bool_decide_eq_true_1 _ Hvol)]. }
  all: explore.
  all: eexists _, _; (split; [grows|]);
    (split; [eexists; unfold stale_log; grows|]);
    (split; [rewrite ?insert_insert_eq, ?insert_delete_eq; reflexivity|]);
    (split; [reflexivity|]);
    intros b p [= <- <-]; by repeat split.
Qed.

Lemma rebuild_stale_db_succeeds (D : Decoders) (container_uuid : list byte)
    (w : world) (d : ApfsDb) :
  let path := apfs_sqlite_path_of (output_path (mi w)) container_uuid in
  files w !! path = Some d →
  ¬ db_valid D d (volumes (mi w)) →
  rebuild_succeeds D (mi w) →
  (open_or_rebuild_db D container_uuid w).1 = Normal (false, path).
Proof.
  destruct w as [tr fs m fm];
    destruct m as [out pw dd ia pso vs sys data pre upd db mfs dbp hfs]. cbn. intros Hfs Hstale (Henc & Hread & Hsys).
  cbn in Henc, Hsys.
  unfold_db. step.
  set (path := apfs_sqlite_path_of _ _) in *.
  destruct (bool_decide (db_version d = Some (apfs_db_version D))) eqn:Hver;
    [destruct (bool_decide (db_volumes d = record_of <$> vs)) eqn:Hvol|].
  { destruct Hstale. split; [exact (bool_decide_eq_true_1 _ Hver)|exact (bool_decide_eq_true_1 _ Hvol)]. }
  all: explore.
  all: try reflexivity.
  all: try (destruct Hsys as [[? ?] ?]; [by eexists|]; congruence).
Qed.

Lemma fresh_db_valid (D : Decoders) (vols : list Volume) :
  db_valid D (fresh_db D vols) vols.
Proof. split; reflexivity. Qed.

Lemma is_log_not_os_remove (new : list event) (path : string) :
  Forall is_log new → os_remove path ∉ new.
Proof. intros Hl Hin. rewrite Forall_forall in Hl. exact (Hl _ Hin). Qed.

(** C6. When a database file exists for the container, it is reused
    exactly when its schema version is the expected one and its recorded
    volume roles and identifiers are those of the live volumes: then the
    file is left as it is, nothing is removed, created or read again.
    Otherwise the file is removed, a new one is created at the same path,
    and when the rebuild completes it holds exactly the record that the live
    volumes give, whatever the old file held; that record is valid. *)
Theorem cache_reused_iff_valid (D : Decoders) (container_uuid : list byte)
    (w : world) (d : ApfsDb) :
  let path := apfs_sqlite_path_of (output_path (mi w)) container_uuid in
  let vols := volumes (mi w) in
  let r := (open_or_rebuild_db D container_uuid w).1 in
  let w' := (open_or_rebuild_db D container_uuid w).2 in
  files w !! path = Some d →
  ∃ new,
    trace_grows_by w w' new ∧
    (os_remove path ∈ new ↔ ¬ db_valid D d vols) ∧
    (∀ use_existing_db p, r = Normal (use_existing_db, p) →
       p = path ∧ (use_existing_db = true ↔ db_valid D d vols)) ∧
    (db_valid D d vols →
       files w' = files w ∧ apfs_db (mi w') = Some path ∧ Forall is_log new) ∧
    (¬ db_valid D d vols →
       (∃ post, new = post ++ [CreateSqliteDb_at path; os_remove path; stale_log]) ∧
       (∃ d', files w' = <[path := d']> (files w) ∧
              (∀ use_existing_db p, r = Normal (use_existing_db, p) →
                 d' = fresh_db D vols)) ∧
       (rebuild_succeeds D (mi w) →
          r = Normal (false, path) ∧
          files w' = <[path := fresh_db D vols]> (files w))) ∧
    db_valid D (fresh_db D vols) vols.
Proof.
  intros path vols r w' Hfs. subst r w'.
  destruct (decide (db_valid D d vols)) as [Hvalid|Hstale].
  - pose proof (reuse_valid_db D container_uuid w d Hfs Hvalid) as Hreuse.
    destruct (open_or_rebuild_db D container_uuid w) as [r w'].
    destruct Hreuse as (new & Hgrow & Hlog & Hfiles & Hdb & Hr).
    exists new. cbn [fst snd]. split; [exact Hgrow|].
    split; [split; [intros Hin; by destruct (is_log_not_os_remove new path Hlog)|done]|].
    split.
    { assert (r = Normal (true, path) ∨ r = Raise AttributeError) as Hr'.
      { destruct (apfs_sys_volume (mi w)), (apfs_data_volume (mi w)),
          (apfs_preboot_volume (mi w)), (apfs_update_volume (mi w));
          first [by left | right; by destruct Hr]. }
      intros b p Hrn. destruct Hr' as [Hr'|Hr']; rewrite Hr' in Hrn;
        [injection Hrn as <- <-|discriminate Hrn].
      split; [done|]. split; [intros _; exact Hvalid|done]. }
    split; [done|]. split; [done|]. apply fresh_db_valid.
  - pose proof (rebuild_stale_db D container_uuid w d Hfs Hstale) as Hrebuild.
    pose proof (rebuild_stale_db_succeeds D container_uuid w d Hfs Hstale) as Hok.
    destruct (open_or_rebuild_db D container_uuid w) as [r w'].
    destruct Hrebuild as (new & d' & Hgrow & [post Hpost] & Hfiles & Hdb & Hr).
    exists new. cbn [fst snd] in *. split; [exact Hgrow|].
    split.
    { split; [done|]. intros _. rewrite Hpost. rewrite elem_of_app. right.
      by pick_event. }
    split.
    { intros b p Hrn. destruct (Hr b p Hrn) as (-> & -> & _).
      split; [done|]. split; [done|]. intros Hv. by destruct Hstale. }
    split; [done|]. split; [|apply fresh_db_valid].
    intros _. split; [by exists post|]. split.
    { exists d'. split; [exact Hfiles|]. intros b p Hrn.
      by destruct (Hr b p Hrn) as (_ & _ & ->). }
    intros Hsucc. specialize (Hok Hsucc). split; [exact Hok|].
    destruct (Hr false path Hok) as (_ & _ & Hd'). rewrite Hfiles, Hd'. reflexivity.
Qed.

(** *** Reuse with a SYSTEM volume and no PREBOOT or UPDATE volume *)

Lemma find_in_container_reuse_incomplete (D : Decoders) (container_uuid : list byte)
    (w : world) (d : ApfsDb) (i : nat) :
  let path := apfs_sqlite_path_of (output_path (mi w)) container_uuid in
  files w !! path = Some d →
  db_valid D d (volumes (mi w)) →
  apfs_sys_volume (mi w) = Some i →
  apfs_preboot_volume (mi w) = None ∨ apfs_update_volume (mi w) = None →
  let '(r, w') := find_in_container D container_uuid w in
  ∃ new,
    trace_grows_by w w' new ∧
    r = Normal tt ∧
    no_validation new ∧
    reuse_failure_log AttributeError ∈ new ∧
    files w' = files w ∧
    macos_FS (mi w') = macos_FS (mi w).
Proof.
  destruct w as [tr fs m fm];
    destruct m as [out pw dd ia pso vs sys data pre upd db mfs dbp hfs]. cbn. intros Hfs [Hver Hvol] -> Hmiss.
  unfold_db. step.
  set (path := apfs_sqlite_path_of _ _) in *.
  destruct Hmiss as [-> | ->]; explore.
  all: eexists; (split; [grows|]); (split; [reflexivity|]);
    (split; [no_such_event|]); (split; [by pick_event|]); by split.
Qed.

(** C10. With a valid database in the output folder, a container that has
    a SYSTEM volume and lacks a PREBOOT or an UPDATE volume is a failure:
    attaching the database to the missing volume raises, the exception is
    caught and logged, and [FindMacOsPartitionInApfsContainer] returns False
    without calling the validator, whether or not there is a DATA volume. *)
Theorem reuse_fails_without_preboot_or_update (D : Decoders)
    (container_size container_start_offset : Z) (container_uuid : list byte)
    (w : world) (vols : list Volume) (d : ApfsDb) :
  let path := apfs_sqlite_path_of (output_path (mi w)) container_uuid in
  ApfsContainer D container_size container_start_offset = Ok vols →
  files w !! path = Some d →
  db_valid D d vols →
  (∃ v, v ∈ vols ∧ role v = role_system) →
  (∀ v, v ∈ vols → role v ≠ role_preboot) ∨ (∀ v, v ∈ vols → role v ≠ role_update) →
  ∃ w' new,
    FindMacOsPartitionInApfsContainer D container_size container_start_offset
      container_uuid w = (Normal false, w') ∧
    trace_grows_by w w' new ∧
    no_validation new ∧
    reuse_failure_log AttributeError ∈ new ∧
    files w' = files w ∧
    macos_FS (mi w') = None.
Proof.
  destruct w as [tr fs m fm];
    destruct m as [out pw dd ia pso vs sys data pre upd db mfs dbp hfs]. cbn.
  set (w := Build_world _ _ _ _).
  intros Hopen Hfs Hvalid Hsys Hmiss.
  destruct (FindMacOsPartitionInApfsContainer_opened D container_size
              container_start_offset container_uuid w vols Hopen)
    as (new0 & Hlog0 & ->).
  destruct (last_with_role_Some role_system vols 0 None Hsys) as [i Hi].
  assert (last_with_role role_preboot vols 0 None = None
          ∨ last_with_role role_update vols 0 None = None) as Hmiss'.
  { destruct Hmiss; [left|right]; by apply last_with_role_None. }
  match goal with |- context [find_in_container D container_uuid ?w1] =>
    pose proof (find_in_container_reuse_incomplete D container_uuid w1 d i
                  Hfs Hvalid Hi Hmiss') as Hrun;
    destruct (find_in_container D container_uuid w1) as [r w2] end.
  destruct Hrun as (new1 & Hgrow & -> & Hnoval & Hlog & Hfiles & Hmacos).
  run_in Hgrow. cbn in Hgrow.
  exists w2, (new1 ++ new0 ++ [Call F_FindMacOsPartitionInApfsContainer container_start_offset]).
  split; [reflexivity|].
  split; [run; cbn; rewrite Hgrow; grows|].
  split.
  { apply no_validation_app; [done|].
    apply no_validation_app; [by apply no_validation_logs|].
    apply no_validation_cons; [done|]. apply no_validation_nil. }
  split; [apply elem_of_app; by left|]. by split.
Qed.

(** *** Encrypted volumes and no working credential *)



(* ===================================================================== *)
(** ** What a statement can add to the trace *)
(* ===================================================================== *)

Section Emits.

Variable P : event → Prop.

Lemma emits_unchanged {A} (m : M A) :
  (∀ w, found_macos (m w).2 = found_macos w ∧ trace (m w).2 = trace w) →
  emits P m.
Proof.
  intros Hm w. destruct (Hm w) as [Hfound Htrace]. split; [exact Hfound|].
  exists []. by split.
Qed.

Lemma emits_ret {A} (a : A) : emits P (mret a : M A).
Proof. by apply emits_unchanged. Qed.

Lemma emits_raise {A} (e : exn) : emits P (raise e : M A).
Proof. by apply emits_unchanged. Qed.

Lemma emits_return {A} (v : bool) : emits P (return_ v : M A).
Proof. by apply emits_unchanged. Qed.

Lemma emits_lift {A} (r : result A) : emits P (lift r).
Proof. destruct r; [apply emits_ret|apply emits_raise]. Qed.

Lemma emits_get_mi : emits P get_mi.
Proof. by apply emits_unchanged. Qed.

Lemma emits_get_files : emits P get_files.
Proof. by apply emits_unchanged. Qed.

Lemma emits_modify_mi (f : MacInfo → MacInfo) : emits P (modify_mi f).
Proof. by apply emits_unchanged. Qed.

Lemma emits_modify_files (f : gmap string ApfsDb → gmap string ApfsDb) :
  emits P (modify_files f).
Proof. by apply emits_unchanged. Qed.

Lemma emits_emit (e : event) : P e → emits P (emit e).
Proof.
  intros He w. split; [reflexivity|]. exists [e]. split; [reflexivity|].
  by constructor.
Qed.

Lemma emits_then (w w1 w2 : world) :
  (found_macos w1 = found_macos w ∧
   ∃ new, trace w1 = new ++ trace w ∧ Forall P new) →
  (found_macos w2 = found_macos w1 ∧
   ∃ new, trace w2 = new ++ trace w1 ∧ Forall P new) →
  found_macos w2 = found_macos w ∧
  ∃ new, trace w2 = new ++ trace w ∧ Forall P new.
Proof.
  intros (Hf1 & new1 & Hnew1 & HP1) (Hf2 & new2 & Hnew2 & HP2).
  split; [congruence|]. exists (new2 ++ new1). split.
  - by rewrite Hnew2, Hnew1, app_assoc.
  - by apply Forall_app.
Qed.

Lemma emits_bind {A B} (m : M A) (k : A → M B) :
  emits P m → (∀ a, emits P (k a)) → emits P (m ≫= k).
Proof.
  intros Hm Hk w. unfold mbind, M_bind.
  specialize (Hm w). destruct (m w) as [[a|v|e] w1]; cbn [snd] in *;
    [|exact Hm|exact Hm].
  exact (emits_then w w1 _ Hm (Hk a w1)).
Qed.

Lemma emits_bind_lift {A B} (r : result A) (k : A → M B) :
  (∀ a, r = Ok a → emits P (k a)) → emits P (lift r ≫= k).
Proof.
  intros Hk. destruct r as [a|e].
  - intros w. exact (Hk a eq_refl w).
  - by apply emits_unchanged.
Qed.

Lemma emits_try {A} (body : M A) (handler : exn → M A) :
  emits P body → (∀ e, emits P (handler e)) → emits P (try_except body handler).
Proof.
  intros Hm Hk w. unfold try_except.
  specialize (Hm w). destruct (body w) as [[a|v|e] w1]; cbn [snd] in *;
    [exact Hm|exact Hm|].
  exact (emits_then w w1 _ Hm (Hk e w1)).
Qed.

Lemma emits_call (body : M bool) : emits P body → emits P (call body).
Proof.
  intros Hm w. unfold call. specialize (Hm w).
  destruct (body w) as [[a|v|e] w1]; exact Hm.
Qed.

Lemma emits_for_each {A S} (xs : list A) (s : S) (body : S → A → M S) :
  (∀ s x, x ∈ xs → emits P (body s x)) → emits P (for_each xs s body).
Proof.
  revert s. induction xs as [|x rest IH]; intros s Hbody; cbn [for_each].
  - apply emits_ret.
  - apply emits_bind.
    + apply Hbody. by left.
    + intros s'. apply IH. intros s'' y Hy. apply Hbody. by right.
Qed.

End Emits.

(** One rule of the above at a time, by the shape of the statement. *)
Ltac emits_step :=
  lazymatch goal with
  | |- emits _ (mbind _ (lift _)) => apply emits_bind_lift; intros ? ?
  | |- emits _ (mbind _ _) => apply emits_bind; [|intros ?]
  | |- emits _ (mret _) => apply emits_ret
  | |- emits _ (raise _) => apply emits_raise
  | |- emits _ (return_ _) => apply emits_return
  | |- emits _ (lift _) => apply emits_lift
  | |- emits _ get_mi => apply emits_get_mi
  | |- emits _ get_files => apply emits_get_files
  | |- emits _ (modify_mi _) => apply emits_modify_mi
  | |- emits _ (modify_files _) => apply emits_modify_files
  | |- emits _ (emit _) => apply emits_emit
  | |- emits _ (log _ _) => apply emits_emit
  | |- emits _ (log_exception _ _) => apply emits_emit
  | |- emits _ (try_except _ _) => apply emits_try; [|intros ?]
  | |- emits _ (call _) => apply emits_call
  | |- emits _ (for_each _ _ _) => apply emits_for_each; intros ? ? ?
  | |- emits _ (if ?c then _ else _) => destruct c eqn:?
  | |- emits _ (match ?x with _ => _ end) => destruct x eqn:?
  end.

Section EmitsProgram.

Context {I : Type} `{Img_Info I}.
Variable img : I.
Variable D : Decoders.
Variable P : event → Prop.
Hypothesis P_log : ∀ lvl msg, P (Log lvl msg).
Hypothesis P_log_exception : ∀ msg e, P (LogException msg e).
Hypothesis P_os_remove : ∀ path, P (os_remove path).
Hypothesis P_CreateSqliteDb : ∀ path, P (CreateSqliteDb_at path).
Hypothesis P_internal : ∀ f o, f ∈ internal_calls → P (Call f o).

Ltac emits_event :=
  first [ apply P_log | apply P_log_exception | apply P_os_remove | apply P_CreateSqliteDb
        | apply P_internal; by pick_event ].

Ltac emits_auto := repeat first [emits_step | emits_event].

Lemma emits_FindMacOsFiles : emits P (FindMacOsFiles D).
Proof. unfold FindMacOsFiles, IsValidFilePath. emits_auto. Qed.

Lemma emits_open_or_rebuild_db (container_uuid : list byte) :
  emits P (open_or_rebuild_db D container_uuid).
Proof. unfold_db. emits_auto. Qed.

Lemma emits_find_macos_volume : emits P (find_macos_volume D).
Proof.
  unfold find_macos_volume, try_volume.
  emits_auto; try apply emits_FindMacOsFiles; emits_auto.
Qed.

Lemma emits_classify_volumes : emits P classify_volumes.
Proof. unfold classify_volumes, classify_volume. emits_auto. Qed.

Lemma emits_FindMacOsPartitionInApfsContainer
    (container_size container_start_offset : Z) (container_uuid : list byte) :
  P (Call F_FindMacOsPartitionInApfsContainer container_start_offset) →
  emits P (FindMacOsPartitionInApfsContainer D container_size
             container_start_offset container_uuid).
Proof.
  intros Hcall. unfold FindMacOsPartitionInApfsContainer, find_in_container.
  emits_auto; try assumption;
    first [apply emits_classify_volumes | apply emits_open_or_rebuild_db
          | apply emits_find_macos_volume].
Qed.

Lemma emits_IsMacOsPartition (partition_start_offset : Z) :
  P (Call F_IsMacOsPartition partition_start_offset) →
  emits P (IsMacOsPartition D partition_start_offset).
Proof.
  intros Hcall. unfold IsMacOsPartition.
  emits_auto; try assumption; try apply emits_FindMacOsFiles; emits_auto.
Qed.

Lemma emits_IsApfsBootContainer (gpt_part_offset : Z) :
  P (Call F_IsApfsBootContainer gpt_part_offset) →
  emits P (IsApfsBootContainer img gpt_part_offset).
Proof. intros Hcall. unfold IsApfsBootContainer. emits_auto; assumption. Qed.

(** The scan of one partition adds calls only for a candidate, and then at
    the offset of that partition. *)
Lemma emits_scan_part (block_size : Z) (gpt : Z * Z) (part : Part) :
  (∀ o, P (Call F_IsApfsBootContainer o)) →
  (candidate D part → ∀ e, evaluates (block_size * start part) e → P e) →
  emits P (scan_part img D block_size gpt part).
Proof.
  intros Hboot Hcand. unfold scan_part. destruct gpt as [hdr parts].
  destruct (bool_decide _ && bool_decide _); [emits_auto|].
  destruct (bool_decide (Z.land (flags part) TSK_VS_PART_FLAG_ALLOC ≠ 0)) eqn:Halloc;
    [|emits_auto].
  apply bool_decide_eq_true_1 in Halloc.
  apply emits_bind_lift. intros label Hlabel.
  destruct (decide (label = "EFI SYSTEM PARTITION")) as [|Hefi]; [emits_auto|].
  destruct (decide (label = "APPLE_PARTITION_MAP")) as [|Hapm]; [emits_auto|].
  assert (∀ e, evaluates (block_size * start part) e → P e) as Hev.
  { apply Hcand. split; [exact Halloc|]. by exists label. }
  unfold call_IsApfsContainer, call_GetApfsContainerUuid.
  emits_auto;
    first [ apply Hev; unfold evaluates; tauto
          | apply emits_IsApfsBootContainer; apply Hboot
          | apply emits_FindMacOsPartitionInApfsContainer; apply Hev; unfold evaluates; tauto
          | apply emits_IsMacOsPartition; apply Hev; unfold evaluates; tauto ].
Qed.

Lemma emits_FindMacOsPartition (vol_info : list Part) (block_size : Z) :
  P (Call F_FindMacOsPartition 0) →
  (∀ o, P (Call F_IsApfsBootContainer o)) →
  (∀ part, part ∈ vol_info → candidate D part →
     ∀ e, evaluates (block_size * start part) e → P e) →
  emits P (FindMacOsPartition img D vol_info block_size).
Proof.
  intros Hcall Hboot Hcand. unfold FindMacOsPartition.
  apply emits_call, emits_bind; [by apply emits_emit|].
  intros _. apply emits_bind; [|intros _; apply emits_return].
  apply emits_for_each. intros gpt part Hin.
  apply emits_scan_part; [exact Hboot|by apply Hcand].
Qed.

End EmitsProgram.

(* ===================================================================== *)
(** ** Labels without regard to case *)
(* ===================================================================== *)

Lemma upper_lower_ascii (c : ascii) : upper_ascii (lower_ascii c) = upper_ascii c.
Proof. destruct c as [[] [] [] [] [] [] [] []]; reflexivity. Qed.

Lemma lower_ascii_is_ascii (c : ascii) :
  is_ascii_char (lower_ascii c) = is_ascii_char c.
Proof. destruct c as [[] [] [] [] [] [] [] []]; reflexivity. Qed.

Lemma is_ascii_byte_char (x : byte) :
  is_ascii_byte x = is_ascii_char (ascii_of_byte x).
Proof. destruct x; reflexivity. Qed.

Lemma forallb_lower (l : list ascii) :
  forallb is_ascii_char (lower l) = forallb is_ascii_char l.
Proof.
  induction l as [|c l IH]; [reflexivity|]. cbn.
  by rewrite lower_ascii_is_ascii, <- IH.
Qed.

Lemma forallb_ascii_of_byte (d : list byte) :
  forallb is_ascii_char (map ascii_of_byte d) = forallb is_ascii_byte d.
Proof.
  induction d as [|x d IH]; [reflexivity|]. cbn.
  by rewrite is_ascii_byte_char, IH.
Qed.

Lemma upper_lower (l : list ascii) : upper (lower l) = upper l.
Proof.
  induction l as [|c l IH]; [reflexivity|]. cbn.
  rewrite upper_lower_ascii. f_equal. exact IH.
Qed.

(** A label that equals an ASCII one without regard to case decodes, and
    its upper-casing is that of the ASCII label. *)
Lemma eq_ignore_case_decode (D : Decoders) (d : list byte) (label : string) :
  forallb is_ascii_char (list_ascii_of_string label) = true →
  eq_ignore_case d label →
  decode_upper D d = Ok (string_of_list_ascii (upper (list_ascii_of_string label))).
Proof.
  unfold eq_ignore_case, decode_upper. intros Hascii Heq.
  assert (forallb is_ascii_byte d = true) as ->.
  { rewrite <- forallb_ascii_of_byte, <- forallb_lower, Heq, forallb_lower.
    exact Hascii. }
  do 2 f_equal. by rewrite <- upper_lower, Heq, upper_lower.
Qed.

Lemma eq_ignore_case_length (d : list byte) (label : string) :
  eq_ignore_case d label → length d = String.length label.
Proof.
  unfold eq_ignore_case, lower. intros Heq.
  apply (f_equal (@length ascii)) in Heq.
  rewrite !length_map in Heq. rewrite Heq.
  clear. induction label as [|c s IH]; [reflexivity|]. cbn. by rewrite IH.
Qed.

Lemma candidate_not_skipped (D : Decoders) (part : Part) :
  candidate D part → ¬ skipped part.
Proof.
  intros [Halloc (label & Hlabel & Hefi & Hapm)] [Hun|[Heq|Heq]].
  - by destruct Halloc.
  - apply (eq_ignore_case_decode D) in Heq; [|reflexivity].
    rewrite Heq in Hlabel. injection Hlabel as <-. by destruct Hefi.
  - apply (eq_ignore_case_decode D) in Heq; [|reflexivity].
    rewrite Heq in Hlabel. injection Hlabel as <-. by destruct Hapm.
Qed.

(* ===================================================================== *)
(** ** The partition scan *)
(* ===================================================================== *)

(** A skipped partition goes through the loop body without a call: at most
    one debug line is logged, nothing else changes. *)
Lemma scan_part_skipped {I : Type} `{Img_Info I} (img : I) (D : Decoders)
    (block_size : Z) (gpt : Z * Z) (part : Part) (w : world) :
  skipped part →
  ∃ gpt' new,
    scan_part img D block_size gpt part w
      = (Normal gpt', set_trace (new ++ trace w) w) ∧
    Forall is_log new.
Proof.
  assert (∀ s : Z * Z,
            ∃ new, (Normal s, w) = (Normal s, set_trace (new ++ trace w) w)
                   ∧ Forall is_log new) as Hsame.
  { intros s. exists []. split; [by destruct w|constructor]. }
  intros Hskip. unfold scan_part. destruct gpt as [hdr parts].
  destruct (bool_decide (Z.land (flags part) TSK_VS_PART_FLAG_META ≠ 0)
            && bool_decide (desc part = b"GPT Header")) eqn:Hmeta.
  { eexists. apply Hsame. }
  destruct (bool_decide (Z.land (flags part) TSK_VS_PART_FLAG_ALLOC ≠ 0)) eqn:Halloc;
    [|eexists; apply Hsame].
  apply bool_decide_eq_true_1 in Halloc.
  destruct Hskip as [Hun|[Heq|Heq]]; [by destruct Halloc| |];
    apply (eq_ignore_case_decode D) in Heq; try reflexivity;
    rewrite Heq; run; cbn; eexists _, [_];
    (split; [reflexivity|repeat constructor]).
Qed.

(** The calls that evaluate a candidate are made for candidates only: each
    one in the trace of a scan is at the offset of a partition of the table
    that is not skipped. *)
Lemma scan_evaluates_candidates_only {I : Type} `{Img_Info I} (img : I)
    (D : Decoders) (vol_info : list Part) (block_size : Z) :
  emits (λ e, ∀ o, evaluates o e →
           ∃ part, part ∈ vol_info ∧ ¬ skipped part ∧ o = block_size * start part)
        (FindMacOsPartition img D vol_info block_size).
Proof.
  apply emits_FindMacOsPartition.
  - intros lvl msg o [Hev|[Hev|[Hev|Hev]]]; discriminate Hev.
  - intros msg e o [Hev|[Hev|[Hev|Hev]]]; discriminate Hev.
  - intros path o [Hev|[Hev|[Hev|Hev]]]; discriminate Hev.
  - intros path o [Hev|[Hev|[Hev|Hev]]]; discriminate Hev.
  - intros f o' Hf o Hev.
    repeat (apply elem_of_cons in Hf as [-> | Hf];
            [by destruct Hev as [Hev|[Hev|[Hev|Hev]]]|]).
    by apply elem_of_nil in Hf.
  - intros o [Hev|[Hev|[Hev|Hev]]]; discriminate Hev.
  - intros o' o [Hev|[Hev|[Hev|Hev]]]; discriminate Hev.
  - intros part Hin Hcand e He o Ho. exists part. split; [exact Hin|].
    split; [by apply (candidate_not_skipped D)|].
    destruct He as [-> | [-> | [-> | ->]]];
      destruct Ho as [Ho|[Ho|[Ho|Ho]]]; congruence.
Qed.

(** C5. A partition-table entry that is not flagged allocated, or whose
    description equals "EFI System Partition" or "APPLE_PARTITION_MAP"
    without regard to letter case, goes through the scan without any call:
    its iteration logs at most one debug line and changes nothing else. In
    the trace of a whole scan, every call of the APFS signature detector, of
    the HFS candidate check and of the APFS orchestrator is made at the
    offset of an entry of the table that is not skipped. *)
Theorem skipped_part_is_never_evaluated {I : Type} `{Img_Info I} (img : I)
    (D : Decoders) (block_size : Z) :
  (∀ gpt part w,
     skipped part →
     ∃ gpt' new,
       scan_part img D block_size gpt part w
         = (Normal gpt', set_trace (new ++ trace w) w) ∧
       Forall is_log new) ∧
  (∀ vol_info w,
     ∃ new,
       trace_grows_by w (FindMacOsPartition img D vol_info block_size w).2 new ∧
       ∀ e o, e ∈ new → evaluates o e →
         ∃ part, part ∈ vol_info ∧ ¬ skipped part ∧ o = block_size * start part).
Proof.
  split.
  - intros gpt part w. apply scan_part_skipped.
  - intros vol_info w.
    destruct (scan_evaluates_candidates_only img D vol_info block_size w)
      as (_ & new & Hnew & HP).
    exists new. split; [exact Hnew|].
    intros e o He. rewrite Forall_forall in HP. by apply HP.
Qed.

(* ===================================================================== *)
(** ** The main program: whole-image detection *)
(* ===================================================================== *)

Lemma call_never_returns (body : M bool) (w : world) (v : bool) :
  (call body w).1 ≠ Return v.
Proof. unfold call. by destruct (body w) as [[| |] ?]. Qed.

Lemma not_call_in (fs : list fn) (new : list event) (f : fn) (o : Z) :
  Forall (not_call fs) new → f ∈ fs → Call f o ∉ new.
Proof.
  intros Hall Hf Hin. rewrite Forall_forall in Hall.
  exact (Hall _ Hin f o eq_refl Hf).
Qed.

Lemma FindMacOsPartition_never_returns {I : Type} `{Img_Info I} (img : I)
    (D : Decoders) (vol_info : list Part) (block_size : Z) (w : world) (v : bool) :
  (FindMacOsPartition img D vol_info block_size w).1 ≠ Return v.
Proof. unfold FindMacOsPartition. apply call_never_returns. Qed.

(** Membership in a list of new events that is put together from single
    events and from the events of calls. *)
Ltac find_event :=
  repeat first [ apply list_elem_of_here
               | apply list_elem_of_further
               | apply elem_of_app; right ].

Ltac absent_event :=
  let Hin := fresh "Hin" in
  intros Hin;
  repeat first
    [ apply elem_of_cons in Hin as [Hin|Hin]; [discriminate Hin|]
    | apply elem_of_app in Hin as [Hin|Hin]; [done|] ];
  by apply elem_of_nil in Hin.

Ltac not_called :=
  let Hin := fresh "Hin" in
  intros ? ? [= <- <-] Hin;
  repeat (apply elem_of_cons in Hin as [Hin|Hin]; [discriminate Hin|]);
  by apply elem_of_nil in Hin.

(** Neither the orchestrator nor the partition scan reads the partition
    table or checks the whole image for HFS. *)
Lemma orchestrator_calls (D : Decoders) (container_size offset : Z)
    (container_uuid : list byte) :
  emits (not_call [F_IsHFSVolume; F_Volume_Info])
        (FindMacOsPartitionInApfsContainer D container_size offset container_uuid).
Proof.
  apply emits_FindMacOsPartitionInApfsContainer.
  - intros lvl msg f o [=].
  - intros msg e f o [=].
  - intros path f o [=].
  - intros path f o [=].
  - intros f o Hf g o' [= <- <-] Hg.
    repeat (apply elem_of_cons in Hf as [-> | Hf];
            [repeat (apply elem_of_cons in Hg as [Hg|Hg]; [discriminate Hg|]);
             by apply elem_of_nil in Hg|]).
    by apply elem_of_nil in Hf.
  - not_called.
Qed.

Lemma scan_calls {I : Type} `{Img_Info I} (img : I) (D : Decoders)
    (vol_info : list Part) (block_size : Z) :
  emits (not_call [F_IsHFSVolume; F_Volume_Info])
        (FindMacOsPartition img D vol_info block_size).
Proof.
  apply emits_FindMacOsPartition.
  - intros lvl msg f o [=].
  - intros msg e f o [=].
  - intros path f o [=].
  - intros path f o [=].
  - intros f o Hf g o' [= <- <-] Hg.
    repeat (apply elem_of_cons in Hf as [-> | Hf];
            [repeat (apply elem_of_cons in Hg as [Hg|Hg]; [discriminate Hg|]);
             by apply elem_of_nil in Hg|]).
    by apply elem_of_nil in Hf.
  - not_called.
  - intros o. not_called.
  - intros part _ _ e [-> | [-> | [-> | ->]]]; not_called.
Qed.

(** C2, as amended. When the APFS signature is present at offset 0 of the
    image, the main program calls the orchestrator and skips the HFS check
    of the whole image. If the orchestrator returns True, discovery ends
    there: [found_macos] is set and the partition table is not read. If it
    returns False, the partition table is read next (the fallback for a
    full disk image), and discovery ends after that scan. *)
Theorem whole_image_apfs_then_fallback {I : Type} `{Img_Info I} (img : I)
    (D : Decoders) (w w1 : world) (uuid : list byte) (found : bool) :
  found_macos w = false →
  IsApfsContainer img 0 = Ok true →
  GetApfsContainerUuid img 0 = Ok uuid →
  FindMacOsPartitionInApfsContainer D (get_size img) 0 uuid
    (at_whole_image_container w) = (Normal found, w1) →
  ∃ w' new,
    detect_macos img D w = (Normal tt, w') ∧
    trace_grows_by w w' new ∧
    (Call F_IsHFSVolume 0 ∉ new) ∧
    (Call F_Volume_Info 0 ∈ new ↔ found = false) ∧
    (found = true → w' = set_found_macos true w1).
Proof.
  intros Hfound Hsig Huuid Horch.
  pose proof (orchestrator_calls D (get_size img) 0 uuid (at_whole_image_container w))
    as (Hkeep & new1 & Hnew1 & HP1).
  rewrite Horch in Hkeep, Hnew1. cbn [snd] in Hkeep, Hnew1.
  destruct w as [tr fs m fm], w1 as [tr1 fs1 m1 fm1].
  cbn in Hfound, Hkeep, Hnew1. subst fm fm1 tr1.
  unfold detect_macos, call_IsApfsContainer, call_GetApfsContainerUuid.
  step. rewrite Hsig. step. rewrite Huuid. step.
  match goal with
  | |- context [FindMacOsPartitionInApfsContainer D _ 0 uuid ?W] =>
      change W with (at_whole_image_container
                       {| trace := tr; files := fs; mi := m; found_macos := false |})
  end.
  rewrite Horch. step.
  assert (Call F_IsHFSVolume 0 ∉ new1) as Hhfs1
    by (apply (not_call_in _ _ _ _ HP1); by pick_event).
  assert (Call F_Volume_Info 0 ∉ new1) as Hvol1
    by (apply (not_call_in _ _ _ _ HP1); by pick_event).
  destruct found; step.
  - eexists _, _. split; [reflexivity|]. split; [grows|].
    split; [absent_event|]. split; [|done].
    split; [|done]. absent_event.
  - destruct (Volume_Info D) as [[vol_info block_size]|e]; step.
    + match goal with
      | |- context [FindMacOsPartition img D vol_info block_size ?W] =>
          pose proof (scan_calls img D vol_info block_size W)
            as (_ & new2 & Hnew2 & HP2);
          pose proof (FindMacOsPartition_never_returns img D vol_info block_size W)
            as Hret;
          destruct (FindMacOsPartition img D vol_info block_size W) as [r [tr2 fs2 m2 fm2]]
      end.
      cbn in Hnew2, Hret. subst tr2.
      assert (Call F_IsHFSVolume 0 ∉ new2) as Hhfs2
        by (apply (not_call_in _ _ _ _ HP2); by pick_event).
      destruct r as [found'|v|e]; [|by destruct (Hret v)|]; step;
        [destruct (Disk_Info_Write D) as [[]|?]; step|];
        (eexists _, _; split; [reflexivity|]; split; [grows|];
         split; [absent_event|]; split; [|done]; split; [done|];
         intros _; by find_event).
    + eexists _, _. split; [reflexivity|]. split; [grows|].
      split; [absent_event|]. split; [|done]. split; [done|].
      intros _. by find_event.
Qed.

(* ===================================================================== *)
(** ** Concrete evidence *)
(* ===================================================================== *)

(** C2, as stated, fails: the image carries the APFS signature at offset 0,
    its container holds no volume, the orchestrator therefore returns
    False, and the main program goes on to read the partition table. *)
Lemma whole_image_apfs_failure_enters_scan :
  IsApfsContainer Evidence.container_image 0 = Ok true ∧
  (FindMacOsPartitionInApfsContainer Evidence.nothing
     (get_size Evidence.container_image) 0 Evidence.uuid_1
     (at_whole_image_container Evidence.initial)).1 = Normal false ∧
  Call F_Volume_Info 0
    ∈ trace (detect_macos Evidence.container_image Evidence.nothing Evidence.initial).2.
Proof.
  split; [reflexivity|]. split; [vm_compute; reflexivity|].
  vm_compute. by find_event.
Qed.

Lemma whole_image_apfs_then_fallback_witness :
  ∃ w' new,
    detect_macos Evidence.container_image Evidence.nothing Evidence.initial
      = (Normal tt, w') ∧
    trace_grows_by Evidence.initial w' new ∧
    Call F_Volume_Info 0 ∈ new.
Proof.
  destruct (whole_image_apfs_then_fallback Evidence.container_image Evidence.nothing
              Evidence.initial
              (FindMacOsPartitionInApfsContainer Evidence.nothing
                 (get_size Evidence.container_image) 0 Evidence.uuid_1
                 (at_whole_image_container Evidence.initial)).2
              Evidence.uuid_1 false)
    as (w' & new & Hrun & Hgrow & _ & Hscan & _).
  - reflexivity.
  - reflexivity.
  - vm_compute. reflexivity.
  - vm_compute. reflexivity.
  - exists w', new. split; [exact Hrun|]. split; [exact Hgrow|].
    apply Hscan. reflexivity.
Defined.

Lemma system_without_data_fails_witness :
  ∃ w' new,
    FindMacOsPartitionInApfsContainer Evidence.system_only 1000 0 Evidence.uuid_1
      Evidence.initial = (Normal false, w') ∧
    trace_grows_by Evidence.initial w' new ∧
    no_validation new ∧
    reported new ∧
    macos_FS (mi w') = None.
Proof.
  apply (system_without_data_fails Evidence.system_only 1000 0 Evidence.uuid_1
           Evidence.initial Evidence.system_only_volumes).
  - reflexivity.
  - eexists. split; [by pick_event|reflexivity].
  - intros v Hv.
    repeat (apply elem_of_cons in Hv as [-> | Hv]; [discriminate|]).
    by apply elem_of_nil in Hv.
Defined.

(** C4 fails on a disk whose APFS container comes before its macOS
    volume. The table holds the GPT header, the EFI system partition, an
    APFS container without macOS and an HFS+ volume with macOS. The scan
    returns the orchestrator's False for the container and ends there: the
    HFS+ volume behind it is never looked at, although the same scan finds
    macOS on it when the container is not in the table. *)
Theorem scan_ends_at_first_apfs_container :
  let table := [Evidence.gpt_header; Evidence.efi_part; Evidence.apfs_part;
                Evidence.hfs_part; Evidence.unallocated_part] in
  let without := [Evidence.gpt_header; Evidence.efi_part; Evidence.hfs_part;
                  Evidence.unallocated_part] in
  let scan t := FindMacOsPartition Evidence.gpt_disk_image (Evidence.gpt_disk t) t 512
                  Evidence.initial in
  candidate (Evidence.gpt_disk table) Evidence.hfs_part ∧
  (scan table).1 = Normal false ∧
  Call F_FindMacOsPartitionInApfsContainer (512 * start Evidence.apfs_part)
    ∈ trace (scan table).2 ∧
  (∀ e, evaluates (512 * start Evidence.hfs_part) e → e ∉ trace (scan table).2) ∧
  (scan without).1 = Normal true.
Proof.
  cbv zeta. split.
  { split; [by vm_compute|]. eexists. split; [vm_compute; reflexivity|].
    split; discriminate. }
  split; [vm_compute; reflexivity|].
  split; [vm_compute; by find_event|].
  split; [|vm_compute; reflexivity].
  intros e He. vm_compute. intros Hin.
  destruct He as [-> | [-> | [-> | ->]]];
    repeat (apply elem_of_cons in Hin as [Hin|Hin]; [discriminate Hin|]);
    by apply elem_of_nil in Hin.
Qed.

Lemma skipped_part_is_never_evaluated_witness :
  ∃ gpt' new,
    scan_part Evidence.gpt_disk_image (Evidence.gpt_disk [Evidence.efi_part]) 512
      (512, 1024) Evidence.efi_part Evidence.initial
      = (Normal gpt', set_trace (new ++ trace Evidence.initial) Evidence.initial) ∧
    Forall is_log new.
Proof.
  apply (proj1 (skipped_part_is_never_evaluated Evidence.gpt_disk_image
                  (Evidence.gpt_disk [Evidence.efi_part]) 512)).
  right. left. reflexivity.
Defined.

Lemma cache_reused_iff_valid_witness :
  ∃ new,
    trace_grows_by Evidence.stale
      (open_or_rebuild_db Evidence.split_container Evidence.uuid_1 Evidence.stale).2 new ∧
    os_remove Evidence.db_path ∈ new ∧
    files (open_or_rebuild_db Evidence.split_container Evidence.uuid_1 Evidence.stale).2
      = <[Evidence.db_path := fresh_db Evidence.split_container Evidence.split_volumes]>
          (files Evidence.stale).
Proof.
  assert (files Evidence.stale
            !! apfs_sqlite_path_of (output_path (mi Evidence.stale)) Evidence.uuid_1
          = Some Evidence.stale_db) as Hfile by (vm_compute; reflexivity).
  assert (¬ db_valid Evidence.split_container Evidence.stale_db
              (volumes (mi Evidence.stale))) as Hstale
    by (intros [Hver _]; discriminate Hver).
  destruct (cache_reused_iff_valid Evidence.split_container Evidence.uuid_1
              Evidence.stale Evidence.stale_db Hfile)
    as (new & Hgrow & Hremove & _ & _ & Hrebuild & _).
  exists new. split; [exact Hgrow|]. split; [by apply Hremove|].
  destruct (Hrebuild Hstale) as (_ & _ & Hdone). apply Hdone.
  split; [reflexivity|]. split; [reflexivity|]. intros _. split; [by eexists|reflexivity].
Defined.


(** The log tells a locked container from a readable one without macOS:
    the first run reports the DecryptionError, the second reports nothing
    at error level. With the password the locked container is read and
    macOS is found on it. *)
Example locked_container_is_told_apart :
  let run D w := FindMacOsPartitionInApfsContainer D 1000 0 Evidence.uuid_1 w in
  read_failure_log DecryptionError
    ∈ trace (run Evidence.locked_container Evidence.initial).2 ∧
  ¬ reported (trace (run Evidence.data_only Evidence.initial).2) ∧
  (run Evidence.data_only Evidence.initial).1 = Normal false ∧
  (run Evidence.locked_container
     (set_mi (set_password "secret" (mi Evidence.initial)) Evidence.initial)).1
  = Normal true.
Proof.
  cbv zeta. split; [vm_compute; by pick_event|].
  split; [|split; vm_compute; reflexivity].
  vm_compute. intros [(msg & Hin)|(msg & e & Hin)];
    repeat (apply elem_of_cons in Hin as [Hin|Hin]; [discriminate Hin|]);
    by apply elem_of_nil in Hin.
Qed.

Lemma reuse_fails_without_preboot_or_update_witness :
  ∃ w' new,
    FindMacOsPartitionInApfsContainer Evidence.split_container 1000 0 Evidence.uuid_1
      Evidence.cached = (Normal false, w') ∧
    trace_grows_by Evidence.cached w' new ∧
    no_validation new ∧
    reuse_failure_log AttributeError ∈ new ∧
    files w' = files Evidence.cached ∧
    macos_FS (mi w') = None.
Proof.
  apply (reuse_fails_without_preboot_or_update Evidence.split_container 1000 0
           Evidence.uuid_1 Evidence.cached Evidence.split_volumes
           {| db_version := Some 5; db_volumes := record_of <$> Evidence.split_volumes |}).
  - reflexivity.
  - vm_compute. reflexivity.
  - split; reflexivity.
  - eexists. split; [by pick_event|reflexivity].
  - right. intros v Hv.
    repeat (apply elem_of_cons in Hv as [-> | Hv]; [discriminate|]).
    by apply elem_of_nil in Hv.
Defined.

(** Without the database of an earlier run the same container is found:
    the rebuild attaches the database to the system and data volumes only. *)
Example split_container_found_on_first_run :
  (FindMacOsPartitionInApfsContainer Evidence.split_container 1000 0 Evidence.uuid_1
     Evidence.initial).1 = Normal true.
Proof. vm_compute. reflexivity. Qed.

(** An entry flagged unallocated by the partition-table reader is skipped. *)
Example unallocated_part_is_skipped : skipped Evidence.unallocated_part.
Proof. left. reflexivity. Qed.

(* ===================================================================== *)
(** ** The launcher: input types and the end of the process *)
(* ===================================================================== *)

Lemma list_index_None {A} `{EqDecision A} (l : list A) (x : A) :
  list_index l x = None ↔ x ∉ l.
Proof.
  induction l as [|y l IH]; cbn.
  - split; [intros _ Hin; by apply elem_of_nil in Hin|done].
  - destruct (decide (y = x)) as [->|Hne].
    + split; [done|]. intros Hnot. destruct Hnot. by left.
    + destruct (list_index l x) eqn:E; cbn.
      * split; [done|]. intros Hnot. exfalso.
        assert (x ∉ l) as Hl by (intros Hin; apply Hnot; by right).
        apply IH in Hl. done.
      * split; [|done]. intros _ [->|Hin]%elem_of_cons; [done|].
        by apply (proj1 IH).
Qed.

Lemma IsItemPresentInList_elem_of {A} `{EqDecision A} (l : list A) (x : A) :
  IsItemPresentInList l x = true ↔ x ∈ l.
Proof.
  unfold IsItemPresentInList. destruct (list_index l x) eqn:E.
  - split; [|done]. intros _. destruct (decide (x ∈ l)) as [|Hnot]; [done|].
    apply list_index_None in Hnot. congruence.
  - split; [done|]. intros Hin. by apply list_index_None in E.
Qed.

Lemma IsItemPresentInList_not_elem_of {A} `{EqDecision A} (l : list A) (x : A) :
  IsItemPresentInList l x = false ↔ x ∉ l.
Proof.
  rewrite <- IsItemPresentInList_elem_of. by destruct (IsItemPresentInList l x).
Qed.

Lemma lower_upper_ascii (c : ascii) : lower_ascii (upper_ascii c) = lower_ascii c.
Proof. destruct c as [[] [] [] [] [] [] [] []]; reflexivity. Qed.

Lemma lower_upper_str (s : string) : lower_str (upper_str s) = lower_str s.
Proof. induction s as [|c s IH]; [reflexivity|]. cbn. by rewrite lower_upper_ascii, IH. Qed.

Lemma upper_lower_str (s : string) : upper_str (lower_str s) = upper_str s.
Proof. induction s as [|c s IH]; [reflexivity|]. cbn. by rewrite upper_lower_ascii, IH. Qed.

(** Upper-casing gives an upper-case name exactly for the strings that
    equal it without regard to case. *)
Lemma upper_str_eq (s name : string) :
  upper_str name = name → (upper_str s = name ↔ same_ignoring_case s name).
Proof.
  unfold same_ignoring_case. intros Hname. split.
  - intros <-. by rewrite lower_upper_str.
  - intros Heq. by rewrite <- upper_lower_str, Heq, upper_lower_str.
Qed.

Section InputTypes.

Variable unicode_upper : string → string.

(** X1. On an input type of ASCII characters [CheckInputType] answers
    True exactly when the type is one of the nine names AFF4, AXIOMZIP,
    DD, DMG, E01, MOUNTED, SPARSE, VMDK, VR, written in any mix of upper
    and lower case. *)
Theorem CheckInputType_ignores_case (input_type : string) :
  is_ascii_str input_type = true →
  (CheckInputType unicode_upper input_type = true ↔
   ∃ name, name ∈ ["AFF4"; "AXIOMZIP"; "DD"; "DMG"; "E01"; "MOUNTED"; "SPARSE";
                   "VMDK"; "VR"] ∧
           same_ignoring_case input_type name).
Proof.
  intros Hascii. unfold CheckInputType, str_upper. rewrite Hascii. cbn zeta.
  rewrite bool_decide_eq_true. split.
  - intros Hin. exists (upper_str input_type). split; [exact Hin|].
    unfold same_ignoring_case. by rewrite lower_upper_str.
  - intros (name & Hin & Hsame).
    assert (upper_str name = name) as Hname.
    { repeat (apply elem_of_cons in Hin as [->|Hin]; [reflexivity|]).
      by apply elem_of_nil in Hin. }
    apply (upper_str_eq input_type name Hname) in Hsame. by rewrite Hsame.
Qed.

(** X2. The input types [CheckInputType] accepts are exactly those for
    which the image loading has a branch, and for an accepted type the
    detection on [img] is entered exactly when that branch has assigned
    [img]: the mounted folder and the two zip collections never reach the
    signature detectors. *)
Theorem accepted_input_type_has_loader (input_type : string) :
  match loader_of unicode_upper input_type with
  | Some l =>
      CheckInputType unicode_upper input_type = true ∧
      detection_entered unicode_upper input_type = opens_image l
  | None => CheckInputType unicode_upper input_type = false
  end.
Proof.
  unfold loader_of, CheckInputType, detection_entered. cbn zeta.
  generalize (str_upper unicode_upper input_type). intros t.
  repeat (destruct (decide _) as [->|?]; [by vm_compute|]).
  destruct (bool_decide (t ∈ ["DD"; "DMG"])) eqn:Hdd.
  - apply bool_decide_eq_true in Hdd.
    repeat (apply elem_of_cons in Hdd as [->|Hdd]; [by vm_compute|]).
    by apply elem_of_nil in Hdd.
  - apply bool_decide_eq_false in Hdd.
    repeat (destruct (decide _) as [->|?]; [by vm_compute|]).
    apply bool_decide_eq_false. intros Hin.
    repeat (apply elem_of_cons in Hin as [->|Hin];
            [first [done | destruct Hdd; by pick_event]|]).
    by apply elem_of_nil in Hin.
Qed.

End InputTypes.

(** X3. [Exit] ends the process with exit status 0 exactly when the logger
    exists and the message is not empty; the message then goes to the log
    and nothing to stderr. In every other case the exit status is 1,
    nothing is logged and the message, even an empty one, goes to stderr. *)
Theorem Exit_status (log_exists : bool) (message : string) :
  let '(logged, ending) := Exit log_exists message in
  (exit_status ending = 0 ↔ log_exists = true ∧ message ≠ EmptyString) ∧
  (exit_status ending = 0 →
     logged = [Log INFO message] ∧ stderr_text ending = None) ∧
  (exit_status ending ≠ 0 →
     exit_status ending = 1 ∧ logged = [] ∧ stderr_text ending = Some message).
Proof.
  unfold Exit. destruct log_exists, message as [|c s]; cbn; repeat split; try done.
  all: try (by intros [? ?]). all: try (by intros [_ ?]).
Qed.

(* ===================================================================== *)
(** ** The launcher: the plugins to run *)
(* ===================================================================== *)

Lemma occurrences_app (name : string) (l1 l2 : list string) :
  occurrences name (l1 ++ l2) = (occurrences name l1 + occurrences name l2)%nat.
Proof. induction l1 as [|n l1 IH]; [reflexivity|]. cbn. rewrite IH. lia. Qed.

Lemma occurrences_elem_of (name : string) (l : list string) :
  (0 < occurrences name l)%nat ↔ name ∈ l.
Proof.
  induction l as [|n l IH]; cbn.
  - split; [lia|]. intros Hin. by apply elem_of_nil in Hin.
  - destruct (decide (n = name)) as [->|Hne].
    + split; [intros _; by left|lia].
    + rewrite elem_of_cons, <- IH. split; [intros Hpos; right; lia|].
      intros [->|Hpos]; [done|lia].
Qed.

Lemma occurrences_NoDup (name : string) (l : list string) :
  NoDup l → (occurrences name l ≤ 1)%nat.
Proof.
  induction 1 as [|n l Hnot _ IH]; cbn; [lia|].
  destruct (decide (n = name)) as [->|Hne]; [|lia].
  assert (¬ (0 < occurrences name l)%nat) by (by rewrite occurrences_elem_of). lia.
Qed.

Lemma list_remove_occurrences (l : list string) (x : string) :
  x ∈ l →
  ∃ l', list_remove l x = Some l' ∧
        ∀ name, occurrences name l'
                = (occurrences name l - (if decide (x = name) then 1 else 0))%nat.
Proof.
  induction l as [|y l IH]; [intros Hin; by apply elem_of_nil in Hin|].
  intros Hin. cbn. destruct (decide (y = x)) as [->|Hne].
  - exists l. split; [reflexivity|]. intros name.
    destruct (decide (x = name)); lia.
  - apply elem_of_cons in Hin as [->|Hin]; [done|].
    destruct (IH Hin) as (l' & -> & Hocc). exists (y :: l'). split; [reflexivity|].
    intros name. cbn. rewrite Hocc.
    destruct (decide (y = name)) as [->|?], (decide (x = name)) as [->|?];
      try lia; try done.
Qed.

(** The exclusions are taken out one occurrence at a time, and the loop
    never fails. *)
Lemma remove_excluded_occurrences (plugins_not_to_run plugins_to_run : list string) :
  ∃ l, remove_excluded plugins_not_to_run plugins_to_run = Some l ∧
       ∀ name, occurrences name l
               = (occurrences name plugins_to_run
                  - occurrences name plugins_not_to_run)%nat.
Proof.
  revert plugins_to_run.
  induction plugins_not_to_run as [|x rest IH]; intros plugins_to_run; cbn.
  - exists plugins_to_run. split; [reflexivity|]. intros name. lia.
  - destruct (IsItemPresentInList plugins_to_run x) eqn:Hin.
    + apply IsItemPresentInList_elem_of in Hin.
      destruct (list_remove_occurrences plugins_to_run x Hin) as (l1 & -> & Hocc1).
      cbn. destruct (IH l1) as (l & -> & Hocc). exists l. split; [reflexivity|].
      intros name. rewrite Hocc, Hocc1. destruct (decide (x = name)); lia.
    + apply IsItemPresentInList_not_elem_of in Hin.
      destruct (IH plugins_to_run) as (l & -> & Hocc). exists l.
      split; [reflexivity|]. intros name. rewrite Hocc.
      destruct (decide (x = name)) as [->|?]; [|lia].
      assert (¬ (0 < occurrences name plugins_to_run)%nat)
        by (by rewrite occurrences_elem_of).
      lia.
Qed.

Lemma all_plugin_names_Some (plugins : list Plugin) :
  all_plugin_names plugins = Some (Plugin_Name <$> plugins).
Proof. reflexivity. Qed.

(** With names that are all different, what is left after the exclusions
    are the names that are not excluded. *)
Lemma occurrences_difference (l base excl : list string) :
  NoDup base →
  (∀ name, occurrences name l = (occurrences name base - occurrences name excl)%nat) →
  ∀ name, name ∈ l ↔ name ∈ base ∧ name ∉ excl.
Proof.
  intros Hbase Hocc name.
  rewrite <- !occurrences_elem_of, Hocc.
  pose proof (occurrences_NoDup name base Hbase). lia.
Qed.

Section Selection.

Variable unicode_upper : string → string.
Variable CheckUserEnteredPluginNames : list string → list Plugin → bool.

(** X4. When ALL is among the names asked for, the names are not checked
    and every plugin is selected, less one occurrence for each time its
    name is excluded with a trailing '-'. When the plugins have different
    names, the selected ones are exactly the plugins that are not
    excluded. *)
Theorem select_plugins_ALL (plugins : list Plugin) (args_plugin : list string) :
  "ALL" ∈ (asked unicode_upper args_plugin).1 →
  ∃ l,
    select_plugins unicode_upper CheckUserEnteredPluginNames plugins args_plugin
      = Selected l (asked unicode_upper args_plugin).2 ∧
    (∀ name, occurrences name l
             = (occurrences name (Plugin_Name <$> plugins)
                - occurrences name (asked unicode_upper args_plugin).2)%nat) ∧
    (NoDup (Plugin_Name <$> plugins) →
     ∀ name, name ∈ l ↔
       name ∈ (Plugin_Name <$> plugins) ∧ name ∉ (asked unicode_upper args_plugin).2).
Proof.
  unfold select_plugins, asked. intros Hall.
  destruct (split_plugin_names _ [] []) as [to_run not_to_run]. cbn [fst snd] in *.
  apply IsItemPresentInList_elem_of in Hall. rewrite Hall, all_plugin_names_Some. cbn.
  destruct (remove_excluded_occurrences not_to_run (Plugin_Name <$> plugins))
    as (l & -> & Hocc).
  exists l. split; [reflexivity|]. split; [exact Hocc|].
  intros Hnodup. by apply occurrences_difference.
Qed.

(** X5. When FAST is asked for and ALL is not, the names are not checked
    either: every plugin is selected, less the exclusions of the user and
    IDEVICEBACKUPS, SPOTLIGHT and UNIFIEDLOGS. *)
Theorem select_plugins_FAST (plugins : list Plugin) (args_plugin : list string) :
  "ALL" ∉ (asked unicode_upper args_plugin).1 →
  "FAST" ∈ (asked unicode_upper args_plugin).1 →
  let excluded :=
    (asked unicode_upper args_plugin).2 ++ ["IDEVICEBACKUPS"; "SPOTLIGHT"; "UNIFIEDLOGS"] in
  ∃ l,
    select_plugins unicode_upper CheckUserEnteredPluginNames plugins args_plugin
      = Selected l excluded ∧
    (∀ name, occurrences name l
             = (occurrences name (Plugin_Name <$> plugins)
                - occurrences name excluded)%nat) ∧
    (NoDup (Plugin_Name <$> plugins) →
     ∀ name, name ∈ l ↔ name ∈ (Plugin_Name <$> plugins) ∧ name ∉ excluded).
Proof.
  unfold select_plugins, asked. intros Hall Hfast.
  destruct (split_plugin_names _ [] []) as [to_run not_to_run]. cbn [fst snd] in *.
  apply IsItemPresentInList_not_elem_of in Hall.
  apply IsItemPresentInList_elem_of in Hfast.
  rewrite Hall, Hfast, all_plugin_names_Some. cbn zeta. cbn [mbind option_bind].
  destruct (remove_excluded_occurrences
              (not_to_run ++ ["IDEVICEBACKUPS"; "SPOTLIGHT"; "UNIFIEDLOGS"])
              (Plugin_Name <$> plugins)) as (l & -> & Hocc).
  exists l. split; [reflexivity|]. split; [exact Hocc|].
  intros Hnodup. by apply occurrences_difference.
Qed.

(** X6. When neither ALL nor FAST is asked for, the names asked for and
    excluded are checked together, and a rejected name ends the run. The
    accepted names are selected, less one occurrence for each exclusion:
    a name is run exactly when it is asked for more often than it is
    excluded. *)
Theorem select_plugins_by_name (plugins : list Plugin) (args_plugin : list string) :
  "ALL" ∉ (asked unicode_upper args_plugin).1 →
  "FAST" ∉ (asked unicode_upper args_plugin).1 →
  let to_run := (asked unicode_upper args_plugin).1 in
  let not_to_run := (asked unicode_upper args_plugin).2 in
  if CheckUserEnteredPluginNames (to_run ++ not_to_run) plugins
  then ∃ l,
         select_plugins unicode_upper CheckUserEnteredPluginNames plugins args_plugin
           = Selected l not_to_run ∧
         ∀ name, name ∈ l ↔
           (occurrences name not_to_run < occurrences name to_run)%nat
  else select_plugins unicode_upper CheckUserEnteredPluginNames plugins args_plugin
       = Exits "Exiting -> Invalid plugin name entered.".
Proof.
  unfold select_plugins, asked. intros Hall Hfast.
  destruct (split_plugin_names _ [] []) as [to_run not_to_run]. cbn [fst snd] in *.
  apply IsItemPresentInList_not_elem_of in Hall, Hfast. rewrite Hall, Hfast. cbn zeta.
  destruct (CheckUserEnteredPluginNames (to_run ++ not_to_run) plugins); [|reflexivity].
  destruct (remove_excluded_occurrences not_to_run to_run) as (l & -> & Hocc).
  exists l. split; [reflexivity|]. intros name.
  rewrite <- occurrences_elem_of, Hocc. lia.
Qed.

End Selection.

Lemma select_plugins_ALL_witness :
  ∃ l,
    select_plugins id Launch.known Launch.plugins ["all"; "wifi-"]
      = Selected l ["WIFI"] ∧
    ∀ name, name ∈ l ↔ name ∈ ["WIFI"; "SPOTLIGHT"; "SAFARI"] ∧ name ∉ ["WIFI"].
Proof.
  destruct (select_plugins_ALL id Launch.known Launch.plugins ["all"; "wifi-"])
    as (l & Hsel & _ & Hin).
  - vm_compute. by pick_event.
  - exists l. split; [exact Hsel|]. apply Hin. vm_compute.
    repeat constructor; intros Hin'; 
      repeat (apply elem_of_cons in Hin' as [Hin'|Hin']; [discriminate Hin'|]);
      by apply elem_of_nil in Hin'.
Defined.

Lemma select_plugins_FAST_witness :
  ∃ l,
    select_plugins id Launch.known Launch.plugins ["Fast"; "safari-"]
      = Selected l ["SAFARI"; "IDEVICEBACKUPS"; "SPOTLIGHT"; "UNIFIEDLOGS"] ∧
    ∀ name, occurrences name l
            = (occurrences name ["WIFI"; "SPOTLIGHT"; "SAFARI"]
               - occurrences name ["SAFARI"; "IDEVICEBACKUPS"; "SPOTLIGHT"; "UNIFIEDLOGS"])%nat.
Proof.
  destruct (select_plugins_FAST id Launch.known Launch.plugins ["Fast"; "safari-"])
    as (l & Hsel & Hocc & _).
  - vm_compute. intros Hin.
    repeat (apply elem_of_cons in Hin as [Hin|Hin]; [discriminate Hin|]).
    by apply elem_of_nil in Hin.
  - vm_compute. by pick_event.
  - exists l. split; [exact Hsel|exact Hocc].
Defined.

Lemma select_plugins_by_name_witness :
  ∃ l,
    select_plugins id Launch.known Launch.plugins ["wifi"; "safari"; "wifi-"]
      = Selected l ["WIFI"] ∧
    ∀ name, name ∈ l ↔
      (occurrences name ["WIFI"] < occurrences name ["WIFI"; "SAFARI"])%nat.
Proof.
  apply (select_plugins_by_name id Launch.known Launch.plugins
           ["wifi"; "safari"; "wifi-"]).
  - vm_compute. intros Hin.
    repeat (apply elem_of_cons in Hin as [Hin|Hin]; [discriminate Hin|]).
    by apply elem_of_nil in Hin.
  - vm_compute. intros Hin.
    repeat (apply elem_of_cons in Hin as [Hin|Hin]; [discriminate Hin|]).
    by apply elem_of_nil in Hin.
Defined.

(* ===================================================================== *)
(** ** The launcher: the extent files *)
(* ===================================================================== *)

Lemma append_String (c : ascii) (s t : string) :
  String c s +:+ t = String c (s +:+ t).
Proof. reflexivity. Qed.

Lemma append_empty (t : string) : EmptyString +:+ t = t.
Proof. reflexivity. Qed.

Lemma append_assoc (s t u : string) : (s +:+ t) +:+ u = s +:+ (t +:+ u).
Proof. induction s as [|c s IH]; [reflexivity|]. by rewrite !append_String, IH. Qed.

Lemma rsplit_at_None (sep : ascii) (s : string) :
  rsplit_at sep s = None ↔ free_of sep s.
Proof.
  induction s as [|c s IH]; cbn; [done|].
  destruct (rsplit_at sep s) as [[h t]|].
  - split; [done|]. intros [_ Hs]. by apply IH in Hs.
  - destruct (Ascii.eqb c sep) eqn:E.
    + apply Ascii.eqb_eq in E as ->. split; [done|]. by intros [? _].
    + apply Ascii.eqb_neq in E. split; [|done]. intros _. split; [exact E|by apply IH].
Qed.

Lemma rsplit_at_Some (sep : ascii) (s head tail : string) :
  rsplit_at sep s = Some (head, tail) →
  s = head +:+ String sep tail ∧ free_of sep tail.
Proof.
  revert head tail. induction s as [|c s IH]; intros head tail; cbn; [done|].
  destruct (rsplit_at sep s) as [[h t]|] eqn:Hs.
  - intros [= <- <-]. destruct (IH h t eq_refl) as [-> Hfree].
    by rewrite append_String.
  - destruct (Ascii.eqb c sep) eqn:E; [|done]. apply Ascii.eqb_eq in E as ->.
    intros [= <- <-]. split; [reflexivity|]. by apply rsplit_at_None.
Qed.

Lemma free_of_app (c : ascii) (s t : string) :
  free_of c (s +:+ t) ↔ free_of c s ∧ free_of c t.
Proof.
  induction s as [|c' s IH]; [rewrite append_empty; cbn; tauto|].
  rewrite append_String. cbn. rewrite IH. tauto.
Qed.

Lemma rsplit_at_app (sep : ascii) (head tail : string) :
  free_of sep tail → rsplit_at sep (head +:+ String sep tail) = Some (head, tail).
Proof.
  intros Hfree. induction head as [|c head IH].
  - rewrite append_empty. cbn. rewrite (proj2 (rsplit_at_None sep tail) Hfree).
    by rewrite Ascii.eqb_refl.
  - rewrite append_String. cbn. by rewrite IH.
Qed.

(** X9. The file name [OpenExtentDataFiles] takes from an extent
    descriptor is the last component of the descriptor's name, and the
    three cases settle it for every name: a name with a '/' gives what
    follows its last '/', backslashes included; a name without '/' but with
    a backslash gives what follows its last backslash; a name with neither
    is taken whole. In each case the file name is the end of the name and
    holds no '/'. *)
Theorem extent_file_name_is_last_component (extent_data_filename : string) :
  let filename := extent_file_name extent_data_filename in
  free_of "/" filename ∧
  (∃ head, extent_data_filename = head +:+ filename) ∧
  (free_of "/" extent_data_filename → free_of backslash filename) ∧
  (∀ head tail, extent_data_filename = head +:+ String "/" tail → free_of "/" tail →
     filename = tail) ∧
  (∀ head tail, free_of "/" extent_data_filename →
     extent_data_filename = head +:+ String backslash tail → free_of backslash tail →
     filename = tail) ∧
  (free_of "/" extent_data_filename → free_of backslash extent_data_filename →
     filename = extent_data_filename).
Proof.
  unfold extent_file_name, rpartition. cbn zeta.
  destruct (rsplit_at "/" extent_data_filename) as [[h t]|] eqn:Hslash.
  - pose proof Hslash as Hsplit.
    apply rsplit_at_Some in Hsplit as [Hname Hfree]. cbn.
    assert (¬ free_of "/" extent_data_filename) as Hhas
      by (intros Hno; apply rsplit_at_None in Hno; congruence).
    split; [exact Hfree|].
    split; [exists (h +:+ "/"); by rewrite Hname, append_assoc|].
    split; [done|].
    split; [|split; [intros ? ? ?|intros ?]; done].
    intros head tail Heq Htail.
    rewrite Heq, (rsplit_at_app _ head tail Htail) in Hslash.
    by injection Hslash as _ <-.
  - pose proof (proj1 (rsplit_at_None _ _) Hslash) as Hno. cbn.
    destruct (rsplit_at backslash extent_data_filename) as [[h t]|] eqn:Hback.
    + pose proof Hback as Hsplit.
      apply rsplit_at_Some in Hsplit as [Hname Hfree]. cbn.
      split; [rewrite Hname in Hno; by apply free_of_app in Hno as [_ [_ ?]]|].
      split; [exists (h +:+ String backslash EmptyString); by rewrite Hname, append_assoc|].
      split; [done|].
      split; [|split].
      * intros head tail Heq Htail.
        rewrite Heq, (rsplit_at_app _ head tail Htail) in Hslash. congruence.
      * intros head tail _ Heq Htail.
        rewrite Heq, (rsplit_at_app _ head tail Htail) in Hback.
        by injection Hback as _ <-.
      * intros _ Hnone. apply rsplit_at_None in Hnone. congruence.
    + cbn. split; [exact Hno|]. split; [by exists EmptyString|].
      split; [intros _; by apply rsplit_at_None|].
      split; [|split].
      * intros head tail Heq Htail.
        rewrite Heq, (rsplit_at_app _ head tail Htail) in Hslash. congruence.
      * intros head tail _ Heq Htail.
        rewrite Heq, (rsplit_at_app _ head tail Htail) in Hback. congruence.
      * reflexivity.
Qed.

(** The three kinds of name, on the names of a VMware descriptor. *)
Example extent_file_name_examples :
  extent_file_name "disks/win\disk-s001.vmdk" = "win\disk-s001.vmdk" ∧
  extent_file_name "C:\vm\disk-s001.vmdk" = "disk-s001.vmdk" ∧
  extent_file_name "disk-s001.vmdk" = "disk-s001.vmdk" ∧
  extent_file_name "vm/" = "".
Proof. repeat split; vm_compute; reflexivity. Qed.

Section Extents.

Variable os_path_join : string → string → string.
Variable os_path_exists_on_disk : string → bool.
Variable open_rb : list string → string → option os_error.
Variable open_extent_data_files_file_objects : list string → option exn.

Lemma locate_extent_data_files_all (base_directory : string)
    (extent_descriptors : list string) :
  let paths := (λ n, os_path_join base_directory (extent_file_name n))
                 <$> extent_descriptors in
  if forallb os_path_exists_on_disk paths
  then locate_extent_data_files os_path_join os_path_exists_on_disk base_directory
         extent_descriptors = paths
  else (length (locate_extent_data_files os_path_join os_path_exists_on_disk
                  base_directory extent_descriptors)
        < length extent_descriptors)%nat.
Proof.
  induction extent_descriptors as [|n rest IH]; cbn; [reflexivity|].
  destruct (os_path_exists_on_disk (os_path_join base_directory (extent_file_name n)));
    cbn; [|lia].
  cbn zeta in IH. destruct (forallb _ _); [by rewrite IH|lia].
Qed.

Lemma all_open_cons (file_objects : list string) (path : string) (rest : list string) :
  all_open open_rb file_objects (path :: rest) →
  open_rb file_objects path = None ∧ all_open open_rb (file_objects ++ [path]) rest.
Proof.
  intros Hall. split.
  - specialize (Hall [] path rest eq_refl). by rewrite app_nil_r in Hall.
  - intros before q after ->. rewrite <- app_assoc. cbn.
    by apply (Hall (path :: before) q after).
Qed.

Lemma open_extent_data_files_all (extent_data_files file_objects : list string) :
  all_open open_rb file_objects extent_data_files →
  open_extent_data_files open_rb extent_data_files file_objects
  = inl (file_objects ++ extent_data_files).
Proof.
  revert file_objects. induction extent_data_files as [|path rest IH];
    intros file_objects Hall; cbn.
  - by rewrite app_nil_r.
  - apply all_open_cons in Hall as [-> Hall]. rewrite (IH _ Hall).
    by rewrite <- app_assoc.
Qed.

Lemma open_extent_data_files_stops (opened : list string) (path : string)
    (rest file_objects : list string) (e : os_error) :
  all_open open_rb file_objects opened →
  open_rb (file_objects ++ opened) path = Some e →
  open_extent_data_files open_rb (opened ++ path :: rest) file_objects
  = inr (file_objects ++ opened, e).
Proof.
  revert file_objects. induction opened as [|q opened IH];
    intros file_objects Hall Hfail; cbn.
  - rewrite app_nil_r in *. by rewrite Hfail.
  - apply all_open_cons in Hall as [-> Hall].
    rewrite (IH (file_objects ++ [q]) Hall); rewrite <- app_assoc; done.
Qed.

(** X10. When the handle counts as many extents as it has descriptors,
    [OpenExtentDataFiles] ends in one of four ways, by the file names of
    the descriptors in the base directory. If one of them does not exist,
    RuntimeError is raised and no file is opened. If all of them exist,
    they are opened in the order of the descriptors: the first [open] to
    fail raises its OSError (a directory of that name gives
    IsADirectoryError), with the files before it left open and nothing
    handed to the handle; when every file opens, the file objects are
    handed to the handle in that order, and what the handle raises on them
    is raised. *)
Theorem OpenExtentDataFiles_all_or_none (extent_descriptors : list string)
    (base_directory : string) :
  let paths := (λ n, os_path_join base_directory (extent_file_name n))
                 <$> extent_descriptors in
  let result :=
    OpenExtentDataFiles os_path_join os_path_exists_on_disk open_rb
      open_extent_data_files_file_objects extent_descriptors
      (length extent_descriptors) base_directory in
  if forallb os_path_exists_on_disk paths
  then
    (∀ opened path rest e,
       paths = opened ++ path :: rest → all_open open_rb [] opened →
       open_rb opened path = Some e →
       result = OpenRaises opened e) ∧
    (all_open open_rb [] paths →
       result = match open_extent_data_files_file_objects paths with
                | None => Opened paths
                | Some e => HandleRaises paths e
                end) ∧
    result ≠ RuntimeError "Unable to locate all extent data files."
  else result = RuntimeError "Unable to locate all extent data files.".
Proof.
  unfold OpenExtentDataFiles. cbn zeta.
  pose proof (locate_extent_data_files_all base_directory extent_descriptors) as Hloc.
  cbn zeta in Hloc. destruct (forallb _ _).
  - rewrite Hloc, length_fmap. destruct (decide _) as [|_]; [done|].
    split; [|split].
    + intros opened path rest e -> Hall Hfail.
      by rewrite (open_extent_data_files_stops opened path rest [] e Hall Hfail).
    + intros Hall. by rewrite (open_extent_data_files_all _ [] Hall).
    + destruct (open_extent_data_files _ _ _) as [file_objects|[file_objects e]];
        [destruct (open_extent_data_files_file_objects _)|]; discriminate.
  - destruct (decide _) as [|Heq]; [reflexivity|]. exfalso. apply Heq. intros Hlen. lia.
Qed.

End Extents.

Lemma OpenExtentDataFiles_all_or_none_witness :
  OpenExtentDataFiles Launch.join Launch.on_disk Launch.second_is_directory (λ _, None)
    Launch.extent_names 3 "/vm"
  = OpenRaises ["/vm/disk-s001.vmdk"] IsADirectoryError.
Proof.
  pose proof (OpenExtentDataFiles_all_or_none Launch.join Launch.on_disk
                Launch.second_is_directory (λ _, None) Launch.extent_names "/vm") as H.
  cbv zeta in H.
  match type of H with
  | if ?c then _ else _ => let v := eval vm_compute in c in change c with v in H
  end.
  cbv iota in H. destruct H as (Hstops & _ & _).
  apply (Hstops ["/vm/disk-s001.vmdk"] "/vm/disk-s002.vmdk" ["/vm/disk-s003.vmdk"]
           IsADirectoryError).
  - vm_compute. reflexivity.
  - intros before path after Heq. destruct before as [|q before].
    + injection Heq as <- _. reflexivity.
    + injection Heq as _ Heq. by destruct before.
  - reflexivity.
Defined.

(* ===================================================================== *)
(** ** What a True result stands for *)
(* ===================================================================== *)

Section Sound.

Variable D : Decoders.

Lemma triple_bind {A B} (P : world → Prop) (m : M A) (k : A → M B)
    (Q1 : A → world → Prop) QN QR QE :
  triple P m Q1 QR QE → (∀ a, triple (Q1 a) (k a) QN QR QE) →
  triple P (m ≫= k) QN QR QE.
Proof.
  intros Hm Hk w HP. unfold mbind, M_bind. specialize (Hm w HP).
  destruct (m w) as [[a|v|e] w1]; [|exact Hm|exact Hm].
  exact (Hk a w1 Hm).
Qed.

Lemma triple_try {A} (P : world → Prop) (body : M A) (handler : exn → M A)
    QN QR QE QE' :
  triple P body QN QR QE → (∀ e, triple (QE e) (handler e) QN QR QE') →
  triple P (try_except body handler) QN QR QE'.
Proof.
  intros Hm Hh w HP. unfold try_except. specialize (Hm w HP).
  destruct (body w) as [[a|v|e] w1]; [exact Hm|exact Hm|].
  exact (Hh e w1 Hm).
Qed.

Lemma triple_call (P : world → Prop) (body : M bool) QN QR QR' QE :
  triple P body QN QR QE → (∀ v w, QR v w → QN v w) →
  triple P (call body) QN QR' QE.
Proof.
  intros Hm Hret w HP. unfold call. specialize (Hm w HP).
  destruct (body w) as [[a|v|e] w1]; [exact Hm|by apply Hret|exact Hm].
Qed.

Lemma triple_for_each {A S} (P : world → Prop) (xs : list A) (s : S)
    (body : S → A → M S) QR QE :
  (∀ s x, triple (any_post s) (body s x) any_post QR QE) →
  triple P (for_each xs s body) any_post QR QE.
Proof.
  intros Hbody. revert P s. induction xs as [|x rest IH]; intros P s; cbn [for_each].
  - by intros w _.
  - apply (triple_bind _ _ _ any_post).
    + intros w _. by apply Hbody.
    + intros s'. apply IH.
Qed.

(** A statement that never returns from the function is sound whatever
    it does. *)
Lemma sound_no_return {A} (P : world → Prop) (m : M A) :
  (∀ w v, (m w).1 ≠ Return v) → sound D P m any_post.
Proof.
  intros Hm w _. specialize (Hm w). destruct (m w) as [[a|v|e] w1]; [done| |done].
  by destruct (Hm v).
Qed.

Lemma sound_mret {A} P (a : A) : sound D P (mret a) any_post.
Proof. by apply sound_no_return. Qed.

Lemma sound_raise {A} P (e : exn) : sound D P (raise e : M A) any_post.
Proof. by apply sound_no_return. Qed.

Lemma sound_lift {A} P (r : result A) : sound D P (lift r) any_post.
Proof. apply sound_no_return. by destruct r. Qed.

Lemma sound_emit P (e : event) : sound D P (emit e) any_post.
Proof. by apply sound_no_return. Qed.

Lemma sound_get_mi P : sound D P get_mi any_post.
Proof. by apply sound_no_return. Qed.

Lemma sound_modify_mi P (f : MacInfo → MacInfo) : sound D P (modify_mi f) any_post.
Proof. by apply sound_no_return. Qed.

Lemma sound_get_files P : sound D P get_files any_post.
Proof. by apply sound_no_return. Qed.

Lemma sound_modify_files P (f : gmap string ApfsDb → gmap string ApfsDb) :
  sound D P (modify_files f) any_post.
Proof. by apply sound_no_return. Qed.

Lemma sound_call_any P (body : M bool) : sound D P (call body) any_post.
Proof. apply sound_no_return. intros w v. apply call_never_returns. Qed.

Lemma sound_return {A} (P : world → Prop) (v : bool) (QN : A → world → Prop) :
  (∀ w, P w → found_post D v w) → sound D P (return_ v) QN.
Proof. intros HP w Hw. by apply HP. Qed.

Lemma sound_try {A} (P : world → Prop) (body : M A) (handler : exn → M A) QN :
  sound D P body QN → (∀ e, sound D (any_post e) (handler e) QN) →
  sound D P (try_except body handler) QN.
Proof. apply triple_try. Qed.

Lemma sound_FindMacOsFiles P : sound D P (FindMacOsFiles D) (found_post D).
Proof.
  intros w _. rewrite FindMacOsFiles_run. unfold found_post, confirmed. cbn.
  by destruct w as [tr fs m fm].
Qed.

End Sound.

(** One rule at a time, by the shape of the statement. *)
Ltac sound_side :=
  let w := fresh "w" in
  let HP := fresh "HP" in
  let Hv := fresh "Hv" in
  intros w HP Hv;
  first [ discriminate Hv | exact (HP Hv) | exact (HP eq_refl) ].

Ltac sound_step :=
  lazymatch goal with
  | |- sound _ _ (mbind _ _) _ =>
      eapply triple_bind;
      [|let x := fresh "x" in
        intros x;
        lazymatch type of x with
        | (_ * _)%type => destruct x
        | _ => idtac
        end]
  | |- sound _ _ (mret _) _ => apply sound_mret
  | |- sound _ _ (raise _) _ => apply sound_raise
  | |- sound _ _ (return_ _) _ => apply sound_return; sound_side
  | |- sound _ _ (lift _) _ => apply sound_lift
  | |- sound _ _ get_mi _ => apply sound_get_mi
  | |- sound _ _ get_files _ => apply sound_get_files
  | |- sound _ _ (modify_mi _) _ => apply sound_modify_mi
  | |- sound _ _ (modify_files _) _ => apply sound_modify_files
  | |- sound _ _ (emit _) _ => apply sound_emit
  | |- sound _ _ (log _ _) _ => apply sound_emit
  | |- sound _ _ (log_exception _ _) _ => apply sound_emit
  | |- sound _ _ (FindMacOsFiles _) _ => apply sound_FindMacOsFiles
  | |- sound _ _ (try_except _ _) _ => apply sound_try; [|intros ?]
  | |- sound _ _ (for_each _ _ _) _ => apply triple_for_each; intros ? ?
  | |- sound _ _ (if ?c then _ else _) _ => destruct c eqn:?
  | |- sound _ _ (match ?x with _ => _ end) _ => destruct x eqn:?
  | |- triple _ _ _ (found_post _) any_post => fold_sound
  end
with fold_sound :=
  lazymatch goal with
  | |- triple ?P ?m ?QN (found_post ?D) any_post => change (sound D P m QN)
  end.

Ltac sound_auto := repeat sound_step.

Section SoundProgram.

Context {I : Type} `{Img_Info I}.
Variable img : I.
Variable D : Decoders.

Lemma sound_IsMacOsPartition P (partition_start_offset : Z) :
  sound D P (IsMacOsPartition D partition_start_offset) (found_post D).
Proof.
  unfold IsMacOsPartition. eapply triple_call; [|by intros v w]. sound_auto.
Qed.

Lemma sound_open_or_rebuild_db P (container_uuid : list byte) :
  sound D P (open_or_rebuild_db D container_uuid) any_post.
Proof. unfold_db. unfold IsValidFilePath. sound_auto. Qed.

Lemma sound_find_macos_volume P : sound D P (find_macos_volume D) any_post.
Proof. unfold find_macos_volume, try_volume. sound_auto. Qed.

Lemma sound_FindMacOsPartitionInApfsContainer P
    (container_size container_start_offset : Z) (container_uuid : list byte) :
  sound D P (FindMacOsPartitionInApfsContainer D container_size container_start_offset
               container_uuid) (found_post D).
Proof.
  unfold FindMacOsPartitionInApfsContainer, classify_volumes, classify_volume,
    find_in_container.
  eapply triple_call; [|by intros v w].
  repeat first [ sound_step | apply sound_open_or_rebuild_db
               | apply sound_find_macos_volume ].
Qed.

Lemma sound_IsApfsBootContainer P (gpt_part_offset : Z) :
  sound D P (IsApfsBootContainer img gpt_part_offset) any_post.
Proof. apply sound_call_any. Qed.

Lemma sound_scan_part P (block_size : Z) (gpt : Z * Z) (part : Part) :
  sound D P (scan_part img D block_size gpt part) any_post.
Proof.
  unfold scan_part, call_IsApfsContainer, call_GetApfsContainerUuid.
  destruct gpt as [gpt_header_offset gpt_partitions_offset].
  repeat first [ sound_step
               | apply sound_FindMacOsPartitionInApfsContainer
               | apply sound_IsMacOsPartition
               | apply sound_IsApfsBootContainer ].
Qed.

Lemma sound_FindMacOsPartition P (vol_info : list Part) (block_size : Z) :
  sound D P (FindMacOsPartition img D vol_info block_size) (found_post D).
Proof.
  unfold FindMacOsPartition. eapply triple_call; [|by intros v w].
  repeat first [ sound_step | apply sound_scan_part ].
Qed.

End SoundProgram.

Section Discovery.

Context {I : Type} `{Img_Info I}.
Variable img : I.
Variable D : Decoders.

Lemma IsMacOsPartition_keeps_found (partition_start_offset : Z) (w : world) :
  found_macos (IsMacOsPartition D partition_start_offset w).2 = found_macos w.
Proof. by apply (emits_IsMacOsPartition D (λ _, True)). Qed.

Lemma FindMacOsPartitionInApfsContainer_keeps_found
    (container_size container_start_offset : Z) (container_uuid : list byte) (w : world) :
  found_macos (FindMacOsPartitionInApfsContainer D container_size container_start_offset
                 container_uuid w).2 = found_macos w.
Proof. by apply (emits_FindMacOsPartitionInApfsContainer D (λ _, True)). Qed.

Lemma FindMacOsPartition_keeps_found (vol_info : list Part) (block_size : Z) (w : world) :
  found_macos (FindMacOsPartition img D vol_info block_size w).2 = found_macos w.
Proof. by apply (emits_FindMacOsPartition img D (λ _, True)). Qed.

Lemma IsMacOsPartition_never_returns (partition_start_offset : Z) (w : world) (v : bool) :
  (IsMacOsPartition D partition_start_offset w).1 ≠ Return v.
Proof. unfold IsMacOsPartition. apply call_never_returns. Qed.

Lemma FindMacOsPartitionInApfsContainer_never_returns
    (container_size container_start_offset : Z) (container_uuid : list byte)
    (w : world) (v : bool) :
  (FindMacOsPartitionInApfsContainer D container_size container_start_offset
     container_uuid w).1 ≠ Return v.
Proof. unfold FindMacOsPartitionInApfsContainer. apply call_never_returns. Qed.

(** The fallback of lines 641-649 on its own. *)
Lemma partition_stage_sound (w : world) :
  found_macos w = false →
  let w' :=
    (try_except (
       emit (Call F_Volume_Info 0);;
       '(vol_info, block_size) ← lift (Volume_Info D);
       found ← FindMacOsPartition img D vol_info block_size;
       assign_found_macos found;;
       lift (Disk_Info_Write D))
     (λ e, log_exception "Error while trying to read partitions on disk" e) w).2 in
  found_macos w' = true → confirmed D w'.
Proof.
  intros Hfm. destruct w as [tr fs m fm]. cbn in Hfm. subst fm. step.
  destruct (Volume_Info D) as [[vol_info block_size]|e]; step; [|done].
  match goal with
  | |- context [FindMacOsPartition img D vol_info block_size ?W] =>
      pose proof (sound_FindMacOsPartition img D (λ _, True) vol_info block_size W Logic.I)
        as Hsound;
      pose proof (FindMacOsPartition_keeps_found vol_info block_size W) as Hkeep;
      pose proof (FindMacOsPartition_never_returns img D vol_info block_size W) as Hret;
      destruct (FindMacOsPartition img D vol_info block_size W) as [r [tr2 fs2 m2 fm2]]
  end.
  cbn in Hkeep, Hret. subst fm2.
  destruct r as [found|v|e]; [|by destruct (Hret v)|]; step; [|done].
  destruct (Disk_Info_Write D) as [[]|?]; step; intros ->; by apply Hsound.
Qed.

(** X11. When the APFS orchestrator returns True, the validator's file,
    /System/Library/CoreServices/SystemVersion.plist, is present on the
    file system that [mac_info.macos_FS] is left pointing to. *)
Theorem FindMacOsPartitionInApfsContainer_sound
    (container_size container_start_offset : Z) (container_uuid : list byte) (w : world) :
  let run := FindMacOsPartitionInApfsContainer D container_size container_start_offset
               container_uuid w in
  run.1 = Normal true → confirmed D run.2.
Proof.
  cbn zeta. intros Hrun.
  pose proof (sound_FindMacOsPartitionInApfsContainer D (λ _, True) container_size
                container_start_offset container_uuid w Logic.I) as Hsound.
  destruct (FindMacOsPartitionInApfsContainer _ _ _ _ _) as [r w'].
  cbn in Hrun. subst r. by apply Hsound.
Qed.

(** X12. When the partition scan returns True, the validator's file is
    present on the file system that [mac_info.macos_FS] is left pointing
    to: the scan never reports a partition the validator has not
    confirmed. *)
Theorem FindMacOsPartition_sound (vol_info : list Part) (block_size : Z) (w : world) :
  let run := FindMacOsPartition img D vol_info block_size w in
  run.1 = Normal true → confirmed D run.2.
Proof.
  cbn zeta. intros Hrun.
  pose proof (sound_FindMacOsPartition img D (λ _, True) vol_info block_size w Logic.I)
    as Hsound.
  destruct (FindMacOsPartition _ _ _ _ _) as [r w'].
  cbn in Hrun. subst r. by apply Hsound.
Qed.

(** X13. However the detection of the main program ends, normally or with
    an exception, [found_macos] is True afterwards only if the validator's
    file is present on the file system that [mac_info.macos_FS] points
    to. *)
Theorem detect_macos_sound (w : world) :
  found_macos w = false →
  let w' := (detect_macos img D w).2 in
  found_macos w' = true → confirmed D w'.
Proof.
  intros Hfm. unfold detect_macos.
  remember (try_except _ _) as stage2 eqn:Hstage2.
  assert (∀ w1, found_macos w1 = false →
            found_macos (stage2 w1).2 = true → confirmed D (stage2 w1).2) as Hstage.
  { subst stage2. exact partition_stage_sound. }
  clear Hstage2. destruct w as [tr fs m fm]. cbn in Hfm. subst fm.
  unfold call_IsApfsContainer, call_GetApfsContainerUuid, call_IsHFSVolume. step.
  destruct (IsApfsContainer img 0) as [[|]|e]; step; [| |done].
  - destruct (GetApfsContainerUuid img 0) as [uuid|e]; step; [|done].
    match goal with
    | |- context [FindMacOsPartitionInApfsContainer D ?s 0 uuid ?W] =>
        pose proof (sound_FindMacOsPartitionInApfsContainer D (λ _, True) s 0 uuid W Logic.I)
          as Hsound;
        pose proof (FindMacOsPartitionInApfsContainer_keeps_found s 0 uuid W) as Hkeep;
        pose proof (FindMacOsPartitionInApfsContainer_never_returns s 0 uuid W) as Hret;
        destruct (FindMacOsPartitionInApfsContainer D s 0 uuid W) as [r [tr1 fs1 m1 fm1]]
    end.
    cbn in Hkeep, Hret. subst fm1.
    destruct r as [found|v|e]; [|by destruct (Hret v)|]; step; [|done].
    destruct found; step; [intros _; by apply Hsound|].
    by apply (Hstage {| trace := tr1; files := fs1; mi := m1; found_macos := false |}).
  - destruct (IsHFSVolume img 0) as [[|]|e]; step; [| |done].
    + match goal with
      | |- context [IsMacOsPartition D 0 ?W] =>
          pose proof (sound_IsMacOsPartition D (λ _, True) 0 W Logic.I) as Hsound;
          pose proof (IsMacOsPartition_keeps_found 0 W) as Hkeep;
          pose proof (IsMacOsPartition_never_returns 0 W) as Hret;
          destruct (IsMacOsPartition D 0 W) as [r [tr1 fs1 m1 fm1]]
      end.
      cbn in Hkeep, Hret. subst fm1.
      destruct r as [found|v|e]; [|by destruct (Hret v)|]; step; [|done].
      destruct found; step; [intros _; by apply Hsound|].
      by apply (Hstage {| trace := tr1; files := fs1; mi := m1; found_macos := false |}).
    + by apply (Hstage {| trace := _; files := fs; mi := m; found_macos := false |}).
Qed.

End Discovery.

(* ===================================================================== *)
(** ** What is raised and what is caught *)
(* ===================================================================== *)

Section Raised.

Context {I : Type} `{Img_Info I}.
Variable img : I.
Variable D : Decoders.

(** X14. [IsApfsBootContainer] returns True exactly when the sixteen bytes
    at the GPT entry are the APFS partition type, False exactly when they
    are sixteen other bytes, and raises ValueError for the offset when the
    read fails or gives fewer than sixteen bytes. It changes nothing
    but the log. *)
Theorem IsApfsBootContainer_spec (gpt_part_offset : Z) (w : world) :
  let at_entry := read img gpt_part_offset 16 in
  let run := IsApfsBootContainer img gpt_part_offset w in
  (∃ new, run.2 = set_trace (new ++ trace w) w) ∧
  (run.1 = Normal true ↔ at_entry = Ok apfs_boot_uuid) ∧
  (run.1 = Normal false ↔
     ∃ data, at_entry = Ok data ∧ length data = 16%nat ∧ data ≠ apfs_boot_uuid) ∧
  (run.1 = Raise (CannotSeek gpt_part_offset) ↔
     (∃ e, at_entry = Exc e) ∨ ∃ data, at_entry = Ok data ∧ length data ≠ 16%nat).
Proof.
  cbn zeta. unfold IsApfsBootContainer, UUID_of_bytes. destruct w as [tr fs m fm]. step.
  destruct (read img gpt_part_offset 16) as [data|e]; step.
  - destruct (decide (length data = 16%nat)) as [Hlen|Hlen]; step.
    + destruct (decide (data = apfs_boot_uuid)) as [->|Hne]; step.
      * split; [by eexists [_; _]|]. repeat split; try done.
        -- intros (d & [= <-] & _ & Hd). done.
        -- intros [(e & [=])|(d & [= <-] & Hd)]. done.
      * split; [by eexists [_; _]|]. repeat split; try done.
        -- intros [= ->]. done.
        -- intros _. by exists data.
        -- intros [(e & [=])|(d & [= <-] & Hd)]. done.
    + split; [by eexists [_]|]. repeat split; try done.
      * intros [= ->]. done.
      * intros (d & [= <-] & Hd & _). done.
      * intros _. right. by exists data.
  - split; [by eexists [_]|]. repeat split; try done.
    + intros (d & [=] & _).
    + intros _. left. by exists e.
Qed.

Ltac not_hfs_macos :=
  let Hf := fresh "Hf" in
  let Hn := fresh "Hn" in
  eexists _, _; (split; [reflexivity|]); (split; [|done]); (split; [done|]);
  intros [(? & Hf & Hn & ? & ?) _]; try discriminate Hf; injection Hf as <-;
  first [ by eapply Hn | congruence ].

(** X15. [IsMacOsPartition] never raises: whatever the file system
    decoder, the opening of the root folder or the native parser do, it
    returns True or False. It returns True exactly when the file system at
    the offset is HFS+, its root folder opens, the native parser starts
    and SystemVersion.plist is present there; [mac_info] then points to
    that partition. *)
Theorem IsMacOsPartition_answer (partition_start_offset : Z) (w : world) :
  ∃ found w',
    IsMacOsPartition D partition_start_offset w = (Normal found, w') ∧
    (found = true ↔
       hfs_opens D partition_start_offset ∧
       path_is_valid D (Some (TskFs partition_start_offset))
         "/System/Library/CoreServices/SystemVersion.plist" = true) ∧
    (found = true →
       macos_FS (mi w') = Some (TskFs partition_start_offset) ∧
       macos_partition_start_offset (mi w') = partition_start_offset ∧
       hfs_native (mi w') = Some partition_start_offset).
Proof.
  unfold IsMacOsPartition, hfs_opens. destruct w as [tr fs m fm]. step.
  destruct (FS_Info D partition_start_offset) as [fsi|e] eqn:Hfs; step;
    [|not_hfs_macos].
  destruct (ftype fsi) as [| |value] eqn:Htype; step; [| |not_hfs_macos].
  all: destruct (open_dir_root fsi) as [[]|e1] eqn:Hroot; step; [|not_hfs_macos].
  all: destruct (hfs_native_Initialize D partition_start_offset) as [[]|e2] eqn:Hinit;
    step; [|not_hfs_macos].
  all: rewrite FindMacOsFiles_run; step.
  all: eexists _, _; (split; [reflexivity|]); split; [|done].
  all: split; [|by intros [_ ->]].
  all: intros Hfound; split; [|exact Hfound].
  all: exists fsi; repeat split; try done; intros value; by rewrite Htype.
Qed.

Lemma try_except_never_raises {A} (body : M A) (handler : exn → M A) (w : world) :
  (∀ e w' e', (handler e w').1 ≠ Raise e') →
  ∀ e, (try_except body handler w).1 ≠ Raise e.
Proof.
  intros Hh e. unfold try_except. destruct (body w) as [[| |e0] w']; [done|done|].
  apply Hh.
Qed.

Lemma find_in_container_never_raises (container_uuid : list byte) (w : world) (e : exn) :
  (find_in_container D container_uuid w).1 ≠ Raise e.
Proof. unfold find_in_container. by apply try_except_never_raises. Qed.

(** X16. The orchestrator raises exactly when the container cannot be
    opened, and then with the decoder's own exception, after the global
    [mac_info] has been replaced by one for the container ([is_apfs] is
    True and the start offset is that of the container). Once the
    container is open everything is caught: the function returns True or
    False. *)
Theorem FindMacOsPartitionInApfsContainer_raises_iff
    (container_size container_start_offset : Z) (container_uuid : list byte) (w : world) :
  let run := FindMacOsPartitionInApfsContainer D container_size container_start_offset
               container_uuid w in
  match ApfsContainer D container_size container_start_offset with
  | Ok _ => ∃ found, run.1 = Normal found
  | Exc e =>
      run.1 = Raise e ∧
      is_apfs (mi run.2) = true ∧
      macos_partition_start_offset (mi run.2) = container_start_offset ∧
      files run.2 = files w
  end.
Proof.
  cbn zeta.
  destruct (ApfsContainer D container_size container_start_offset) as [vols|e] eqn:Hopen.
  - destruct (FindMacOsPartitionInApfsContainer_opened D container_size
                container_start_offset container_uuid w vols Hopen) as (new0 & _ & ->).
    match goal with |- context [find_in_container D container_uuid ?W] =>
      pose proof (find_in_container_never_raises container_uuid W) as Hraise;
      destruct (find_in_container D container_uuid W) as [[| |e] ?] end.
    + by eexists.
    + by eexists.
    + by destruct (Hraise e).
  - unfold FindMacOsPartitionInApfsContainer. destruct w as [tr fs m fm]. step.
    rewrite Hopen. step. done.
Qed.

Lemma FindMacOsPartitionInApfsContainer_outcome
    (container_size container_start_offset : Z) (container_uuid : list byte) (w : world) :
  match ApfsContainer D container_size container_start_offset with
  | Ok _ => ∃ found, (FindMacOsPartitionInApfsContainer D container_size
                        container_start_offset container_uuid w).1 = Normal found
  | Exc e => (FindMacOsPartitionInApfsContainer D container_size
                container_start_offset container_uuid w).1 = Raise e
  end.
Proof.
  destruct (ApfsContainer D container_size container_start_offset) as [vols|e] eqn:Hopen.
  - destruct (FindMacOsPartitionInApfsContainer_opened D container_size
                container_start_offset container_uuid w vols Hopen) as (new0 & _ & ->).
    match goal with |- context [find_in_container D container_uuid ?W] =>
      pose proof (find_in_container_never_raises container_uuid W) as Hraise;
      destruct (find_in_container D container_uuid W) as [[| |e] ?] end.
    + by eexists.
    + by eexists.
    + by destruct (Hraise e).
  - unfold FindMacOsPartitionInApfsContainer. destruct w as [tr fs m fm]. step.
    rewrite Hopen. step. done.
Qed.

Lemma IsMacOsPartition_outcome (partition_start_offset : Z) (w : world) :
  ∃ found, (IsMacOsPartition D partition_start_offset w).1 = Normal found.
Proof.
  unfold IsMacOsPartition, call, mbind, M_bind, emit.
  match goal with |- context [try_except ?b ?h ?W] =>
    pose proof (try_except_never_raises b h W) as Hraise;
    destruct (try_except b h W) as [[| |e] ?] end.
  - by eexists.
  - by eexists.
  - exfalso. by apply (Hraise ltac:(done) e).
Qed.

(** Whatever the partition table and the scan do, the fallback of lines
    641-649 completes. *)
Lemma partition_stage_completes (w : world) :
  ∃ w',
    try_except (
      emit (Call F_Volume_Info 0);;
      '(vol_info, block_size) ← lift (Volume_Info D);
      found ← FindMacOsPartition img D vol_info block_size;
      assign_found_macos found;;
      lift (Disk_Info_Write D))
    (λ e, log_exception "Error while trying to read partitions on disk" e) w
    = (Normal tt, w').
Proof.
  destruct w as [tr fs m fm]. step.
  destruct (Volume_Info D) as [[vol_info block_size]|e]; step; [|by eexists].
  match goal with
  | |- context [FindMacOsPartition img D vol_info block_size ?W] =>
      pose proof (FindMacOsPartition_never_returns img D vol_info block_size W) as Hret;
      destruct (FindMacOsPartition img D vol_info block_size W) as [r [tr2 fs2 m2 fm2]]
  end.
  cbn in Hret. destruct r as [found|v|e]; [|by destruct (Hret v)|]; step; [|by eexists].
  destruct (Disk_Info_Write D) as [[]|?]; step; by eexists.
Qed.

(** X17. The detection of the main program raises exactly on a failure of
    the checks on the whole image: a signature or the container uuid
    cannot be read at the start of the image, or the container at offset 0
    cannot be opened. Nothing handles these. Every failure of the
    partition table and of the scan is caught and logged, and the detection
    completes. *)
Theorem detect_macos_raises_iff (w : world) :
  match (detect_macos img D w).1 with
  | Normal _ => ∀ e, ¬ whole_image_failure img D e
  | Return _ => False
  | Raise e => whole_image_failure img D e
  end.
Proof.
  unfold detect_macos, whole_image_failure.
  remember (try_except _ _) as stage2 eqn:Hstage2.
  assert (∀ w1, ∃ w', stage2 w1 = (Normal tt, w')) as Hstage.
  { subst stage2. exact partition_stage_completes. }
  clear Hstage2. destruct w as [tr fs m fm].
  unfold call_IsApfsContainer, call_GetApfsContainerUuid, call_IsHFSVolume. step.
  destruct (IsApfsContainer img 0) as [[|]|e]; step; [| |by left].
  - destruct (GetApfsContainerUuid img 0) as [uuid|e]; step;
      [|right; left; split; [done|by left]].
    match goal with
    | |- context [FindMacOsPartitionInApfsContainer D ?s 0 uuid ?W] =>
        pose proof (FindMacOsPartitionInApfsContainer_outcome s 0 uuid W) as Hout;
        destruct (FindMacOsPartitionInApfsContainer D s 0 uuid W) as [r [tr1 fs1 m1 fm1]]
    end.
    destruct (ApfsContainer D (get_size img) 0) as [vols|e].
    + destruct Hout as (found & Hout). cbn in Hout. subst r. step.
      assert (∀ e, ¬ (Ok true = Exc e
                      ∨ Ok true = Ok true ∧ (Ok uuid = Exc e
                          ∨ (∃ u, Ok uuid = Ok u) ∧ @Ok (list Volume) vols = Exc e)
                      ∨ @Ok bool true = Ok false ∧ IsHFSVolume img 0 = Exc e)) as Hno.
      { intros e [[=]|[[_ [[=]|[_ [=]]]]|[[=] _]]]. }
      destruct found; step; [exact Hno|].
      match goal with |- context [stage2 ?W] =>
        destruct (Hstage W) as (w' & ->) end.
      exact Hno.
    + cbn in Hout. subst r. step. right. left. split; [done|]. right.
      split; [by eexists|done].
  - destruct (IsHFSVolume img 0) as [[|]|e]; step; [| |by right; right].
    + match goal with
      | |- context [IsMacOsPartition D 0 ?W] =>
          destruct (IsMacOsPartition_outcome 0 W) as (found & Hout);
          destruct (IsMacOsPartition D 0 W) as [r [tr1 fs1 m1 fm1]]
      end.
      cbn in Hout. subst r. step.
      assert (∀ e, ¬ (Ok false = Exc e
                      ∨ @Ok bool false = Ok true ∧ (GetApfsContainerUuid img 0 = Exc e
                          ∨ (∃ u, GetApfsContainerUuid img 0 = Ok u)
                            ∧ ApfsContainer D (get_size img) 0 = Exc e)
                      ∨ Ok false = Ok false ∧ @Ok bool true = Exc e)) as Hno.
      { intros e [[=]|[[[=] _]|[_ [=]]]]. }
      destruct found; step; [exact Hno|].
      match goal with |- context [stage2 ?W] =>
        destruct (Hstage W) as (w' & ->) end.
      exact Hno.
    + assert (∀ e, ¬ (Ok false = Exc e
                      ∨ @Ok bool false = Ok true ∧ (GetApfsContainerUuid img 0 = Exc e
                          ∨ (∃ u, GetApfsContainerUuid img 0 = Ok u)
                            ∧ ApfsContainer D (get_size img) 0 = Exc e)
                      ∨ Ok false = Ok false ∧ @Ok bool false = Exc e)) as Hno.
      { intros e [[=]|[[[=] _]|[_ [=]]]]. }
      destruct fm; step; [exact Hno|].
      match goal with |- context [stage2 ?W] =>
        destruct (Hstage W) as (w' & ->) end.
      exact Hno.
Qed.

End Raised.

(* ===================================================================== *)
(** ** The partition scan *)
(* ===================================================================== *)

Lemma for_each_app {A S} (xs ys : list A) (s : S) (body : S → A → M S) (w : world) :
  for_each (xs ++ ys) s body w =
  match for_each xs s body w with
  | (Normal s', w') => for_each ys s' body w'
  | (Return v, w') => (Return v, w')
  | (Raise e, w') => (Raise e, w')
  end.
Proof.
  revert s w. induction xs as [|x xs IH]; intros s w; cbn [app for_each]; [reflexivity|].
  unfold mbind, M_bind. destruct (body s x w) as [[s'|v|e] w']; [apply IH|done|done].
Qed.

Section Scan.

Context {I : Type} `{Img_Info I}.
Variable img : I.
Variable D : Decoders.

(** X18. The scan ends at the first partition that is confirmed: when it
    returns True on a partition table, it does the same, with the same
    log and the same [mac_info], on every table that continues it. *)
Theorem FindMacOsPartition_stops_at_first_confirmation
    (vol_info more : list Part) (block_size : Z) (w : world) :
  (FindMacOsPartition img D vol_info block_size w).1 = Normal true →
  FindMacOsPartition img D (vol_info ++ more) block_size w
  = FindMacOsPartition img D vol_info block_size w.
Proof.
  unfold FindMacOsPartition, call, mbind, M_bind, emit.
  rewrite for_each_app.
  destruct (for_each vol_info _ _ _) as [[gpt|v|e] w']; cbn; [discriminate|done|done].
Qed.

(** X19. An APFS container whose entry in the GPT does not carry the APFS
    partition type is passed over: after the two signature checks the scan
    goes on to the next partition. The container is not opened, the
    partition is not tried as HFS+ either, and [mac_info] and the output
    folder stay as they are. *)
Theorem unmarked_container_is_passed_over (block_size : Z) (gpt : Z * Z) (part : Part)
    (w : world) (entry : list byte) :
  ¬ (Z.land (flags part) TSK_VS_PART_FLAG_META ≠ 0 ∧ desc part = b"GPT Header") →
  candidate D part →
  IsApfsContainer img (block_size * start part) = Ok true →
  read img (gpt.2 + 128 * slot_num part) 16 = Ok entry →
  length entry = 16%nat →
  entry ≠ apfs_boot_uuid →
  ∃ new,
    scan_part img D block_size gpt part w
      = (Normal gpt, set_trace (new ++ trace w) w) ∧
    Forall (signature_checks (block_size * start part) (gpt.2 + 128 * slot_num part)) new.
Proof.
  intros Hmeta (Halloc & label & Hlabel & Hefi & Hapm) Hsig Hentry Hlen Hne.
  destruct gpt as [gpt_header_offset gpt_partitions_offset]. cbn [snd] in *.
  unfold scan_part, call_IsApfsContainer, IsApfsBootContainer, UUID_of_bytes.
  destruct w as [tr fs m fm].
  destruct (bool_decide (Z.land (flags part) TSK_VS_PART_FLAG_META ≠ 0)
            && bool_decide (desc part = b"GPT Header")) eqn:Hhdr.
  { apply andb_true_iff in Hhdr as [H1 H2].
    destruct Hmeta. split; [exact (bool_decide_eq_true_1 _ H1)|
                           exact (bool_decide_eq_true_1 _ H2)]. }
  rewrite (bool_decide_eq_true_2 _ Halloc). step. rewrite Hlabel. step.
  destruct (decide (label = "EFI SYSTEM PARTITION")) as [|_]; [done|].
  destruct (decide (label = "APPLE_PARTITION_MAP")) as [|_]; [done|].
  step. rewrite Hsig. step. rewrite Hentry. step.
  destruct (decide (length entry = 16%nat)) as [_|]; [|done]. step.
  destruct (decide (entry = apfs_boot_uuid)) as [|_]; [done|]. step.
  eexists [_; _; _; _]. split; [reflexivity|].
  unfold signature_checks.
  repeat (apply Forall_cons; split;
          [first [by left | by right; left | by right; right]|]).
  apply Forall_nil. done.
Qed.

End Scan.

(* ===================================================================== *)
(** ** The volumes of a container by role *)
(* ===================================================================== *)

Lemma last_position_cons_0 (r : VolumeRoleType) (v : Volume) (rest : list Volume) :
  last_position r (v :: rest) 0 ↔ role v = r ∧ ∀ v', v' ∈ rest → role v' ≠ r.
Proof.
  unfold last_position. split.
  - intros [(v0 & [= <-] & Hr) Hlast]. split; [exact Hr|].
    intros v' Hin. apply list_elem_of_lookup in Hin as [j Hj].
    apply (Hlast (S j) v'); [lia|exact Hj].
  - intros [Hr Hrest]. split; [by exists v|].
    intros [|j] v' Hlt Hj; [lia|]. apply Hrest. by apply (list_elem_of_lookup_2 _ j).
Qed.

Lemma last_position_cons_S (r : VolumeRoleType) (v : Volume) (rest : list Volume)
    (j : nat) :
  last_position r (v :: rest) (S j) ↔ last_position r rest j.
Proof.
  unfold last_position. split.
  - intros [Hj Hlast]. split; [exact Hj|].
    intros j' v' Hlt Hj'. apply (Hlast (S j') v'); [lia|exact Hj'].
  - intros [Hj Hlast]. split; [exact Hj|].
    intros [|j'] v' Hlt Hj'; [lia|]. apply (Hlast j' v'); [lia|exact Hj'].
Qed.

Lemma last_with_role_spec (r : VolumeRoleType) (vols : list Volume) (k : nat)
    (acc : option nat) (i : nat) :
  last_with_role r vols k acc = Some i ↔
  (∃ j, i = (k + j)%nat ∧ last_position r vols j) ∨
  ((∀ v, v ∈ vols → role v ≠ r) ∧ acc = Some i).
Proof.
  revert k acc. induction vols as [|v rest IH]; intros k acc; cbn [last_with_role].
  - split.
    + intros ->. right. split; [|done]. intros v Hv. by apply elem_of_nil in Hv.
    + intros [(j & _ & (v & Hv & _) & _)|[_ ->]]; [by destruct j|done].
  - rewrite IH. destruct (decide (role v = r)) as [Hr|Hr].
    + split.
      * intros [(j & -> & Hj)|[Hrest [= <-]]]; left.
        -- exists (S j). split; [lia|]. by apply last_position_cons_S.
        -- exists 0%nat. split; [lia|]. by apply last_position_cons_0.
      * intros [([|j] & -> & Hj)|[Hall _]].
        -- right. apply last_position_cons_0 in Hj as [_ Hrest].
           split; [exact Hrest|]. f_equal. lia.
        -- left. exists j. split; [lia|]. by apply last_position_cons_S in Hj.
        -- exfalso. apply (Hall v); [by left|exact Hr].
    + split.
      * intros [(j & -> & Hj)|[Hrest ->]].
        -- left. exists (S j). split; [lia|]. by apply last_position_cons_S.
        -- right. split; [|done]. intros v' [->|Hin]%elem_of_cons; auto.
      * intros [([|j] & -> & Hj)|[Hall ->]].
        -- apply last_position_cons_0 in Hj as [Hv _]. done.
        -- left. exists j. split; [lia|]. by apply last_position_cons_S in Hj.
        -- right. split; [|done]. intros v' Hin. apply Hall. by right.
Qed.

Lemma last_with_role_handle (r : VolumeRoleType) (vols : list Volume)
    (before : option nat) :
  handle_after r vols before (last_with_role r vols 0 before).
Proof.
  intros i. rewrite last_with_role_spec. split.
  - intros [(j & -> & Hj)|Hkeep]; [by left|by right].
  - intros [Hi|Hkeep]; [left; by exists i|by right].
Qed.

(** X20. The loop over the volumes of the container never fails, and all
    it does is write to the log and set the four volume handles of
    [mac_info]: every other field of [mac_info], the files and
    [found_macos] are as before. Each handle is left on the last volume of
    its role: a later volume of the same role replaces an earlier one, and
    a handle whose role no volume has keeps what it held. *)
Theorem classify_volumes_last_wins (w : world) :
  let vols := volumes (mi w) in
  ∃ new sys data preboot update,
    classify_volumes w
    = (Normal tt,
       set_trace (new ++ trace w)
         (set_mi
            (set_apfs_sys_volume sys
               (set_apfs_data_volume data
                  (set_apfs_preboot_volume preboot
                     (set_apfs_update_volume update (mi w)))))
            w)) ∧
    Forall is_log new ∧
    handle_after role_system vols (apfs_sys_volume (mi w)) sys ∧
    handle_after role_data vols (apfs_data_volume (mi w)) data ∧
    handle_after role_preboot vols (apfs_preboot_volume (mi w)) preboot ∧
    handle_after role_update vols (apfs_update_volume (mi w)) update.
Proof.
  cbn zeta. unfold classify_volumes. unfold mbind at 1, M_bind at 1, get_mi.
  destruct (classify_from (volumes (mi w)) 0 w) as (new & -> & Hlog).
  exists new. do 4 eexists.
  split; [unfold classified; reflexivity|]. split; [exact Hlog|].
  repeat split; apply last_with_role_handle.
Qed.

(** Two system volumes in one container: the handle is left on the
    second, the data handle keeps what it held, and the other fields of
    [mac_info] are untouched. *)
Example classify_volumes_two_system_volumes :
  let vols := [Evidence.vol "Macintosh HD" role_system "V-1" false;
               Evidence.vol "Recovery" (role_other 4) "V-2" false;
               Evidence.vol "Macintosh HD 2" role_system "V-3" false] in
  let m := set_apfs_data_volume (Some 7%nat) (set_volumes vols Evidence.blank_mac_info) in
  mi (classify_volumes (set_mi m Evidence.initial)).2
  = set_apfs_sys_volume (Some 2%nat) m.
Proof. vm_compute. reflexivity. Qed.

(* ===================================================================== *)
(** ** The name of the database of a container *)
(* ===================================================================== *)

Lemma byte_of_hex_of_byte (x : byte) :
  byte_of_hex (hex_digit (Byte.to_N x / 16)) (hex_digit (Byte.to_N x mod 16)) = x.
Proof. destruct x; reflexivity. Qed.

Lemma hex_of_bytes_cons (x : byte) (bs : list byte) :
  hex_of_bytes (x :: bs)
  = String (hex_digit (Byte.to_N x / 16))
      (String (hex_digit (Byte.to_N x mod 16)) (hex_of_bytes bs)).
Proof. reflexivity. Qed.

Lemma bytes_of_hex_of_bytes (bs : list byte) : bytes_of_hex (hex_of_bytes bs) = bs.
Proof.
  induction bs as [|x bs IH]; [reflexivity|].
  rewrite hex_of_bytes_cons. cbn [bytes_of_hex].
  rewrite byte_of_hex_of_byte. f_equal. exact IH.
Qed.

Lemma hex_of_bytes_length (bs : list byte) :
  String.length (hex_of_bytes bs) = (2 * length bs)%nat.
Proof.
  induction bs as [|x bs IH]; [reflexivity|].
  rewrite hex_of_bytes_cons. cbn [String.length length]. rewrite IH. lia.
Qed.

(** Two strings of the same length that are followed by the same text or
    by different texts. *)
Lemma append_inj (s1 s2 t1 t2 : string) :
  String.length s1 = String.length s2 → s1 +:+ t1 = s2 +:+ t2 → s1 = s2 ∧ t1 = t2.
Proof.
  revert s2. induction s1 as [|c s1 IH]; intros [|c2 s2] Hlen; try discriminate Hlen.
  - by rewrite !append_empty.
  - rewrite !append_String. intros [= -> Heq]. cbn in Hlen.
    destruct (IH s2 ltac:(lia) Heq) as [-> ->]. done.
Qed.

Lemma length_append (s t : string) :
  String.length (s +:+ t) = (String.length s + String.length t)%nat.
Proof.
  induction s as [|c s IH]; [by rewrite append_empty|].
  rewrite append_String. cbn. by rewrite IH.
Qed.

Lemma hex_of_bytes_inj (bs1 bs2 : list byte) :
  hex_of_bytes bs1 = hex_of_bytes bs2 → bs1 = bs2.
Proof. intros Heq. by rewrite <- (bytes_of_hex_of_bytes bs1), Heq, bytes_of_hex_of_bytes. Qed.

Lemma uuid_str_upper_inj (u1 u2 : list byte) :
  length u1 = 16%nat → length u2 = 16%nat →
  uuid_str_upper u1 = uuid_str_upper u2 → u1 = u2.
Proof.
  intros H1 H2. unfold uuid_str_upper. intros Heq.
  repeat match type of Heq with
  | hex_of_bytes ?a +:+ _ = hex_of_bytes ?b +:+ _ =>
      apply append_inj in Heq as [?%hex_of_bytes_inj Heq];
      [|rewrite !hex_of_bytes_length, !length_take, ?length_drop; lia]
  | "-" +:+ _ = "-" +:+ _ =>
      apply append_inj in Heq as [_ Heq]; [|reflexivity]
  end.
  apply hex_of_bytes_inj in Heq.
  rewrite <- (take_drop 4 u1), <- (take_drop 4 u2).
  rewrite <- (take_drop 2 (drop 4 u1)), <- (take_drop 2 (drop 4 u2)).
  rewrite !drop_drop. cbn [Nat.add].
  rewrite <- (take_drop 2 (drop 6 u1)), <- (take_drop 2 (drop 6 u2)).
  rewrite !drop_drop. cbn [Nat.add].
  rewrite <- (take_drop 2 (drop 8 u1)), <- (take_drop 2 (drop 8 u2)).
  rewrite !drop_drop. cbn [Nat.add].
  congruence.
Qed.

(** X21. Containers with different uuids have different databases in the
    same output folder: the file name APFS_Volumes_<uuid>.db determines
    the sixteen bytes of the uuid. *)
Theorem apfs_sqlite_path_of_inj (out : string) (uuid1 uuid2 : list byte) :
  length uuid1 = 16%nat → length uuid2 = 16%nat →
  uuid1 ≠ uuid2 →
  apfs_sqlite_path_of out uuid1 ≠ apfs_sqlite_path_of out uuid2.
Proof.
  intros H1 H2 Hne Heq. apply Hne. unfold apfs_sqlite_path_of in Heq.
  apply append_inj in Heq as [_ Heq]; [|reflexivity].
  apply append_inj in Heq as [_ Heq]; [|reflexivity].
  apply append_inj in Heq as [_ Heq]; [|reflexivity].
  assert (String.length (uuid_str_upper uuid1) = String.length (uuid_str_upper uuid2))
    as Hlen.
  { apply (f_equal String.length) in Heq. rewrite !length_append in Heq.
    cbn in Heq. lia. }
  apply append_inj in Heq as [Heq _]; [|exact Hlen].
  by apply uuid_str_upper_inj.
Qed.

(* ===================================================================== *)
(** ** The plugins are run *)
(* ===================================================================== *)

Lemma append_inj_r (s t1 t2 : string) : s +:+ t1 = s +:+ t2 → t1 = t2.
Proof. intros Heq. by apply append_inj in Heq as [_ ?]. Qed.

(** What the loop over the plugins adds to the log, plugin by plugin. *)
Lemma run_plugins_log (plugins_to_run : list string) (plugins : list Plugin) (w : world) :
  ∃ new,
    for_each plugins tt (run_plugin plugins_to_run) w
      = (Normal tt, set_trace (new ++ trace w) w) ∧
    (∀ name, Log INFO ("Running plugin " +:+ name) ∈ new ↔
       name ∈ plugins_to_run ∧ ∃ p, p ∈ plugins ∧ Plugin_Name p = name) ∧
    (∀ name e,
       LogException ("An exception occurred while running plugin - " +:+ name) e ∈ new ↔
       name ∈ plugins_to_run ∧
       ∃ p, p ∈ plugins ∧ Plugin_Name p = name ∧ Plugin_Start p = Exc e).
Proof.
  revert w. induction plugins as [|p rest IH]; intros w.
  - exists []. split; [by destruct w|]. split.
    + intros name. split; [intros Hin; by apply elem_of_nil in Hin|].
      intros [_ (p & Hp & _)]. by apply elem_of_nil in Hp.
    + intros name e. split; [intros Hin; by apply elem_of_nil in Hin|].
      intros [_ (p & Hp & _)]. by apply elem_of_nil in Hp.
  - cbn [for_each]. unfold mbind at 1, M_bind at 1.
    assert (∃ new1,
              run_plugin plugins_to_run tt p w
                = (Normal tt, set_trace (new1 ++ trace w) w) ∧
              (∀ name, Log INFO ("Running plugin " +:+ name) ∈ new1 ↔
                 name ∈ plugins_to_run ∧ Plugin_Name p = name) ∧
              (∀ name e,
                 LogException ("An exception occurred while running plugin - " +:+ name) e
                   ∈ new1 ↔
                 name ∈ plugins_to_run ∧ Plugin_Name p = name ∧ Plugin_Start p = Exc e))
      as (new1 & -> & Hrun1 & Hexc1).
    { unfold run_plugin. destruct w as [tr fs m fm].
      destruct (IsItemPresentInList plugins_to_run (Plugin_Name p)) eqn:Hsel.
      - apply IsItemPresentInList_elem_of in Hsel. step.
        destruct (Plugin_Start p) as [[]|e0] eqn:Hstart; step.
        + exists [Log INFO ("Running plugin " +:+ Plugin_Name p);
                  Log INFO "--------------------------------------------------"].
          split; [reflexivity|]. split.
          * intros name. rewrite !elem_of_cons, elem_of_nil. split.
            -- intros [[= Heq]|[Heq|[]]];
                 [apply append_inj_r in Heq as ->; done
                 |vm_compute in Heq; discriminate Heq].
            -- intros [_ <-]. by left.
          * intros name e. rewrite !elem_of_cons, elem_of_nil. split.
            -- intros [[=]|[[=]|[]]].
            -- intros (_ & _ & [=]).
        + exists [LogException
                    ("An exception occurred while running plugin - " +:+ Plugin_Name p) e0;
                  Log INFO ("Running plugin " +:+ Plugin_Name p);
                  Log INFO "--------------------------------------------------"].
          split; [reflexivity|]. split.
          * intros name. rewrite !elem_of_cons, elem_of_nil. split.
            -- intros [[=]|[[= Heq]|[Heq|[]]]];
                 [apply append_inj_r in Heq as ->; done
                 |vm_compute in Heq; discriminate Heq].
            -- intros [_ <-]. right. by left.
          * intros name e. rewrite !elem_of_cons, elem_of_nil. split.
            -- intros [[= Heq <-]|[[=]|[[=]|[]]]].
               apply append_inj_r in Heq as ->. done.
            -- intros (_ & <- & [= <-]). by left.
      - apply IsItemPresentInList_not_elem_of in Hsel. exists [].
        split; [reflexivity|]. split.
        + intros name. split; [intros Hin; by apply elem_of_nil in Hin|].
          by intros [? <-].
        + intros name e. split; [intros Hin; by apply elem_of_nil in Hin|].
          by intros (? & <- & _). }
    destruct (IH (set_trace (new1 ++ trace w) w)) as (new2 & -> & Hrun2 & Hexc2).
    exists (new2 ++ new1). split.
    { destruct w as [tr fs m fm]. cbn. by rewrite app_assoc. }
    split.
    + intros name. rewrite elem_of_app, Hrun1, Hrun2. split.
      * intros [[Hsel (q & Hq & Hname)]|[Hsel Hname]].
        -- split; [exact Hsel|]. exists q. split; [by right|exact Hname].
        -- split; [exact Hsel|]. exists p. split; [by left|exact Hname].
      * intros [Hsel (q & [->|Hq]%elem_of_cons & Hname)].
        -- by right.
        -- left. split; [exact Hsel|]. by exists q.
    + intros name e. rewrite elem_of_app, Hexc1, Hexc2. split.
      * intros [[Hsel (q & Hq & Hname)]|(Hsel & Hname & Hstart)].
        -- split; [exact Hsel|]. exists q. split; [by right|exact Hname].
        -- split; [exact Hsel|]. exists p. split; [by left|done].
      * intros [Hsel (q & [->|Hq]%elem_of_cons & Hname)].
        -- by right.
        -- left. split; [exact Hsel|]. by exists q.
Qed.

(** X22. When macOS was found and the native HFS parser, if it is needed,
    starts, every plugin whose name is selected is started, and the run
    completes whatever the plugins do: an exception of a plugin is logged with the name of the plugin and
    the next plugin is started. When macOS was not found no plugin is
    started and the warning is logged. When the native HFS parser does not
    start, its exception ends the run before any plugin. *)
Theorem process_plugins_runs_selected (D : Decoders) (plugins : list Plugin)
    (plugins_to_run : list string) (w : world) :
  let run := process_plugins D plugins plugins_to_run w in
  ∃ new,
    trace run.2 = new ++ trace w ∧
    if found_macos w then
      match (if is_apfs (mi w) then Ok tt
             else hfs_native_Initialize D (macos_partition_start_offset (mi w))) with
      | Ok _ =>
          run.1 = Normal tt ∧
          (∀ name, Log INFO ("Running plugin " +:+ name) ∈ new ↔
             name ∈ plugins_to_run ∧ ∃ p, p ∈ plugins ∧ Plugin_Name p = name) ∧
          (∀ name e,
             LogException ("An exception occurred while running plugin - " +:+ name) e
               ∈ new ↔
             name ∈ plugins_to_run ∧
             ∃ p, p ∈ plugins ∧ Plugin_Name p = name ∧ Plugin_Start p = Exc e)
      | Exc e => run.1 = Raise e ∧ new = []
      end
    else
      run.1 = Normal tt ∧
      new = [Log WARNING ":( Could not find a partition having a macOS installation on it"].
Proof.
  cbn zeta. unfold process_plugins. destruct w as [tr fs m fm]. step.
  destruct fm; step;
    [|eexists; split; [|split; [reflexivity|reflexivity]]; reflexivity].
  destruct (is_apfs m); step.
  - match goal with |- context [for_each plugins tt _ ?W] =>
      destruct (run_plugins_log plugins_to_run plugins W) as (new & -> & Hrun & Hexc) end.
    exists new. cbn. split; [reflexivity|]. split; [reflexivity|].
    split; [exact Hrun|exact Hexc].
  - destruct (hfs_native_Initialize D (macos_partition_start_offset m)) as [[]|e]; step.
    + match goal with |- context [for_each plugins tt _ ?W] =>
        destruct (run_plugins_log plugins_to_run plugins W) as (new & -> & Hrun & Hexc) end.
      exists new. cbn. split; [reflexivity|]. split; [reflexivity|].
    split; [exact Hrun|exact Hexc].
    + by exists [].
Qed.

(* ===================================================================== *)
(** ** The search through the volumes of a container *)
(* ===================================================================== *)

Section Volumes.

Variable D : Decoders.

Lemma try_volume_run (i : nat) (v : Volume) (w : world) :
  ∃ w',
    try_volume D tt (i, v) w
      = (if volume_confirmed D i then Return true else Normal tt, w') ∧
    macos_FS (mi w') = Some (ApfsVolumeFs i) ∧
    files w' = files w ∧ found_macos w' = found_macos w.
Proof.
  unfold try_volume, volume_confirmed. destruct w as [tr fs m fm]. step.
  rewrite FindMacOsFiles_run. step.
  destruct (path_is_valid D (Some (ApfsVolumeFs i)) _); step; by eexists.
Qed.

Lemma for_each_cons {A S} (x : A) (rest : list A) (s : S) (body : S → A → M S)
    (w : world) :
  for_each (x :: rest) s body w =
  match body s x w with
  | (Normal s', w') => for_each rest s' body w'
  | (Return v, w') => (Return v, w')
  | (Raise e, w') => (Raise e, w')
  end.
Proof. reflexivity. Qed.

Lemma try_volumes_from (vols : list Volume) (k : nat) (w : world) :
  (∀ i, (k ≤ i < k + length vols)%nat → volume_confirmed D i = true →
        (∀ j, (k ≤ j < i)%nat → volume_confirmed D j = false) →
        ∃ w', for_each (enumerate k vols) tt (try_volume D) w = (Return true, w') ∧
              macos_FS (mi w') = Some (ApfsVolumeFs i)) ∧
  ((∀ i, (k ≤ i < k + length vols)%nat → volume_confirmed D i = false) →
   ∃ w', for_each (enumerate k vols) tt (try_volume D) w = (Normal tt, w')).
Proof.
  revert k w. induction vols as [|v rest IH]; intros k w.
  - split; [intros i Hi; cbn in Hi; lia|]. intros _. by eexists.
  - cbn [enumerate length]. rewrite for_each_cons.
    destruct (try_volume_run k v w) as (w1 & -> & Hfs & _).
    destruct (volume_confirmed D k) eqn:Hk.
    + split.
      * intros i Hi Hvalid Hfirst. destruct (decide (i = k)) as [->|Hne].
        -- by exists w1.
        -- rewrite (Hfirst k) in Hk; [done|lia].
      * intros Hnone. rewrite (Hnone k) in Hk; [done|lia].
    + destruct (IH (S k) w1) as [IH1 IH2]. split.
      * intros i Hi Hvalid Hfirst. destruct (decide (i = k)) as [->|Hne]; [congruence|].
        apply IH1; [lia|exact Hvalid|]. intros j Hj. apply Hfirst. lia.
      * intros Hnone. apply IH2. intros i Hi. apply Hnone. lia.
Qed.

(** X23. In a container without a system volume the volumes are tried in
    the order of the container, and the first one on which the validator's
    file is present is taken: the search returns True with
    [mac_info.macos_FS] on that volume, and the volumes after it are not
    tried. When the file is on no volume, the search goes on to the end
    and leaves [mac_info.macos_FS] at None. *)
Theorem find_macos_volume_takes_first (w : world) :
  apfs_sys_volume (mi w) = None →
  let run := find_macos_volume D w in
  let n := length (volumes (mi w)) in
  (∀ i, first_confirmed D n i →
        run.1 = Return true ∧ macos_FS (mi run.2) = Some (ApfsVolumeFs i)) ∧
  ((∀ i, (i < n)%nat → volume_confirmed D i = false) →
   run.1 = Normal tt ∧ macos_FS (mi run.2) = None).
Proof.
  intros Hsys. cbn zeta. unfold find_macos_volume.
  destruct w as [tr fs m fm]. cbn in Hsys. step. rewrite Hsys.
  match goal with |- context [for_each _ tt _ ?W] =>
    destruct (try_volumes_from (volumes m) 0 W) as [Hfirst Hnone] end.
  split.
  - intros i (Hi & Hvalid & Hleast).
    destruct (Hfirst i ltac:(lia) Hvalid ltac:(intros j Hj; apply Hleast; lia))
      as (w' & Hrun & Hfs).
    rewrite Hrun. by split.
  - intros Hno.
    destruct (Hnone ltac:(intros i Hi; apply Hno; lia)) as (w' & Hrun).
    rewrite Hrun. by destruct w' as [tr' fs' m' fm'].
Qed.

End Volumes.

(* ===================================================================== *)
(** ** Failures of the scan and the whole image as an HFS+ volume *)
(* ===================================================================== *)

Section ScanFailures.

Context {I : Type} `{Img_Info I}.
Variable img : I.
Variable D : Decoders.

(** X24. A signature that cannot be read ends the scan: when the scan
    comes to a candidate partition and the read of its APFS signature
    fails, [FindMacOsPartition] raises ValueError for that offset, and the
    partitions after it are not looked at, whatever they hold. *)
Theorem scan_aborts_on_unreadable_signature (block_size : Z)
    (before after : list Part) (part : Part) (w w1 : world) (gpt : Z * Z) (e : exn) :
  scan_reaches img D block_size before w gpt w1 →
  ¬ (Z.land (flags part) TSK_VS_PART_FLAG_META ≠ 0 ∧ desc part = b"GPT Header") →
  candidate D part →
  read img (block_size * start part + 0x20) 4 = Exc e →
  FindMacOsPartition img D (before ++ part :: after) block_size w
  = (Raise (CannotSeek (block_size * start part + 0x20)),
     set_trace (Call F_IsApfsContainer (block_size * start part)
                :: Log INFO "Looking at FS with volume label '{}'  @ offset {}"
                :: trace w1) w1).
Proof.
  unfold scan_reaches. intros Hreach Hmeta (Halloc & label & Hlabel & Hefi & Hapm) Hread.
  unfold FindMacOsPartition, call. unfold mbind at 1 2, M_bind at 1 2, emit.
  rewrite for_each_app, Hreach, for_each_cons.
  assert (scan_part img D block_size gpt part w1
          = (Raise (CannotSeek (block_size * start part + 0x20)),
             set_trace (Call F_IsApfsContainer (block_size * start part)
                        :: Log INFO "Looking at FS with volume label '{}'  @ offset {}"
                        :: trace w1) w1)) as ->.
  { destruct gpt as [gpt_header_offset gpt_partitions_offset].
    unfold scan_part, call_IsApfsContainer, IsApfsContainer.
    destruct w1 as [tr fs m fm].
    destruct (bool_decide (Z.land (flags part) TSK_VS_PART_FLAG_META ≠ 0)
              && bool_decide (desc part = b"GPT Header")) eqn:Hhdr.
    { apply andb_true_iff in Hhdr as [H1 H2].
      destruct Hmeta. split; [exact (bool_decide_eq_true_1 _ H1)|
                             exact (bool_decide_eq_true_1 _ H2)]. }
    rewrite (bool_decide_eq_true_2 _ Halloc). step. rewrite Hlabel. step.
    destruct (decide (label = "EFI SYSTEM PARTITION")) as [|_]; [done|].
    destruct (decide (label = "APPLE_PARTITION_MAP")) as [|_]; [done|].
    step. rewrite Hread. step. reflexivity. }
  reflexivity.
Qed.

Lemma IsMacOsPartition_calls (partition_start_offset : Z) :
  emits (not_call [F_IsApfsContainer; F_Volume_Info])
        (IsMacOsPartition D partition_start_offset).
Proof.
  apply emits_IsMacOsPartition.
  - intros lvl msg f o [=].
  - intros msg e f o [=].
  - intros f o Hf g o' [= <- <-] Hg.
    repeat (apply elem_of_cons in Hf as [-> | Hf];
            [repeat (apply elem_of_cons in Hg as [Hg|Hg]; [discriminate Hg|]);
             by apply elem_of_nil in Hg|]).
    by apply elem_of_nil in Hf.
  - not_called.
Qed.

(** X25. When the whole image carries the HFS+ signature and no APFS
    signature at offset 0, the main program tries the image as one HFS+
    volume. If that confirms macOS, discovery ends there and the partition
    table is not read; if it does not, the partition table is read
    next. Either way the detection completes. *)
Theorem whole_image_hfs_then_fallback (w w1 : world) (found : bool) :
  found_macos w = false →
  IsApfsContainer img 0 = Ok false →
  IsHFSVolume img 0 = Ok true →
  IsMacOsPartition D 0 (at_whole_image_hfs w) = (Normal found, w1) →
  ∃ w' new,
    detect_macos img D w = (Normal tt, w') ∧
    trace_grows_by w w' new ∧
    (Call F_Volume_Info 0 ∈ new ↔ found = false) ∧
    (found = true → w' = set_found_macos true w1).
Proof.
  intros Hfm Hapfs Hhfs Hrun.
  pose proof (IsMacOsPartition_calls 0 (at_whole_image_hfs w))
    as (Hkeep & new1 & Hnew1 & HP1).
  rewrite Hrun in Hkeep, Hnew1. cbn [snd] in Hkeep, Hnew1.
  unfold detect_macos.
  remember (try_except _ _) as stage2 eqn:Hstage2.
  assert (∀ w0, ∃ w', stage2 w0 = (Normal tt, w') ∧
            ∃ new, trace w' = new ++ [Call F_Volume_Info 0] ++ trace w0) as Hstage.
  { subst stage2. intros [tr0 fs0 m0 fm0]. step.
    destruct (Volume_Info D) as [[vol_info block_size]|e]; step;
      [|eexists; split; [reflexivity|]; by eexists [_]].
    match goal with
    | |- context [FindMacOsPartition img D vol_info block_size ?W] =>
        pose proof (scan_calls img D vol_info block_size W) as (_ & new2 & Hnew2 & _);
        pose proof (FindMacOsPartition_never_returns img D vol_info block_size W) as Hret;
        destruct (FindMacOsPartition img D vol_info block_size W) as [r [tr2 fs2 m2 fm2]]
    end.
    cbn in Hnew2, Hret. subst tr2.
    destruct r as [found'|v|e]; [|by destruct (Hret v)|]; step;
      [destruct (Disk_Info_Write D) as [[]|?]; step|];
      (eexists; split; [reflexivity|]); cbn;
      [by exists new2 | eexists (_ :: new2); reflexivity
      | eexists (_ :: new2); reflexivity]. }
  clear Hstage2.
  destruct w as [tr fs m fm], w1 as [tr1 fs1 m1 fm1].
  cbn in Hfm, Hkeep, Hnew1. subst fm fm1 tr1.
  unfold call_IsApfsContainer, call_IsHFSVolume. step. rewrite Hapfs. step.
  rewrite Hhfs. step.
  match goal with
  | |- context [IsMacOsPartition D 0 ?W] =>
      change W with (at_whole_image_hfs
                       {| trace := tr; files := fs; mi := m; found_macos := false |})
  end.
  rewrite Hrun. step.
  assert (Call F_Volume_Info 0 ∉ new1) as Hvol1
    by (apply (not_call_in _ _ _ _ HP1); by pick_event).
  destruct found; step.
  - eexists _, _. split; [reflexivity|]. split; [grows|].
    split; [|done]. split; [|done]. absent_event.
  - match goal with |- context [stage2 ?W] =>
      destruct (Hstage W) as ([tr2 fs2 m2 fm2] & -> & new2 & Hnew2) end.
    cbn in Hnew2. subst tr2.
    eexists _, (new2 ++ [Call F_Volume_Info 0] ++ new1
                ++ [Call F_IsHFSVolume 0; Call F_IsApfsContainer 0]).
    split; [reflexivity|]. split.
    { unfold trace_grows_by. cbn [trace]. repeat rewrite <- app_assoc. reflexivity. }
    split; [|done]. split; [done|]. intros _.
    apply elem_of_app. right. by left.
Qed.

End ScanFailures.

Lemma find_macos_volume_takes_first_witness :
  let found := find_macos_volume Launch.macos_on_later_volumes Launch.three_volumes_open in
  let missed := find_macos_volume Evidence.nothing Launch.three_volumes_open in
  (found.1 = Return true ∧ macos_FS (mi found.2) = Some (ApfsVolumeFs 1)) ∧
  (missed.1 = Normal tt ∧ macos_FS (mi missed.2) = None).
Proof.
  cbv zeta. split.
  - refine (proj1 (find_macos_volume_takes_first Launch.macos_on_later_volumes
                     Launch.three_volumes_open eq_refl) 1%nat _).
    split; [cbn; lia|]. split; [reflexivity|].
    intros j Hj. assert (j = 0%nat) as -> by lia. reflexivity.
  - refine (proj2 (find_macos_volume_takes_first Evidence.nothing
                     Launch.three_volumes_open eq_refl) _).
    intros i _. reflexivity.
Defined.

(** On the three volumes with macOS on the second and on the third, the
    validator is called for the first and for the second volume and not
    for the third; with macOS on none, it is called for all three. *)
Example find_macos_volume_stops_at_first :
  let calls D :=
    length (List.filter (λ e, if e is Call F_FindMacOsFiles _ then true else false)
              (trace (find_macos_volume D Launch.three_volumes_open).2)) in
  volume_confirmed Launch.macos_on_later_volumes 2 = true ∧
  calls Launch.macos_on_later_volumes = 2%nat ∧
  calls Evidence.nothing = 3%nat.
Proof. cbv zeta. split; [reflexivity|]. split; vm_compute; reflexivity. Qed.

Lemma scan_aborts_on_unreadable_signature_witness :
  (FindMacOsPartition Evidence.short_image (Evidence.gpt_disk [])
     ([] ++ Evidence.hfs_part :: [Evidence.apfs_part]) 512 Evidence.initial).1
  = Raise (CannotSeek (512 * 1409640 + 0x20)).
Proof.
  rewrite (scan_aborts_on_unreadable_signature Evidence.short_image
             (Evidence.gpt_disk []) 512 [] [Evidence.apfs_part] Evidence.hfs_part
             Evidence.initial (set_trace [Call F_FindMacOsPartition 0] Evidence.initial)
             (-1, -1) IOError).
  - reflexivity.
  - reflexivity.
  - intros [Hmeta _]. apply Hmeta. reflexivity.
  - split; [by vm_compute|]. eexists. split; [vm_compute; reflexivity|].
    split; discriminate.
  - reflexivity.
Defined.

Lemma whole_image_hfs_then_fallback_witness :
  ∃ w' new,
    detect_macos Evidence.hfs_image Evidence.nothing Evidence.initial = (Normal tt, w') ∧
    trace_grows_by Evidence.initial w' new ∧
    Call F_Volume_Info 0 ∈ new.
Proof.
  destruct (whole_image_hfs_then_fallback Evidence.hfs_image Evidence.nothing
              Evidence.initial
              (IsMacOsPartition Evidence.nothing 0
                 (at_whole_image_hfs Evidence.initial)).2 false)
    as (w' & new & Hrun & Hgrow & Hscan & _).
  - reflexivity.
  - vm_compute. reflexivity.
  - vm_compute. reflexivity.
  - vm_compute. reflexivity.
  - exists w', new. split; [exact Hrun|]. split; [exact Hgrow|].
    apply Hscan. reflexivity.
Defined.

(* ===================================================================== *)
(** ** The GPT offsets of the scan *)
(* ===================================================================== *)

Section GptOffsets.

Context {I : Type} `{Img_Info I}.
Variable img : I.
Variable D : Decoders.

Lemma scan_part_offsets (block_size : Z) (gpt gpt' : Z * Z) (part : Part) (w w' : world) :
  scan_part img D block_size gpt part w = (Normal gpt', w') →
  gpt' = if is_gpt_header part
         then (block_size * start part, block_size * start part + block_size)
         else gpt.
Proof.
  unfold scan_part, is_gpt_header, call_IsApfsContainer, call_GetApfsContainerUuid.
  destruct gpt as [gpt_header_offset gpt_partitions_offset].
  destruct (bool_decide _ && bool_decide _); [by intros [= <- _]|].
  destruct (bool_decide (Z.land (flags part) TSK_VS_PART_FLAG_ALLOC ≠ 0));
    [|by intros [= <- _]].
  destruct w as [tr fs m fm]. step.
  destruct (decode_upper D (desc part)) as [label|e]; step; [|done].
  destruct (decide (label = "EFI SYSTEM PARTITION")); step; [by intros [= <- _]|].
  destruct (decide (label = "APPLE_PARTITION_MAP")); step; [by intros [= <- _]|].
  destruct (IsApfsContainer img (block_size * start part)) as [[|]|e]; step; [| |done].
  - match goal with |- context [IsApfsBootContainer img ?o ?W] =>
      destruct (IsApfsBootContainer img o W) as [[[|]|v|e] [tr1 fs1 m1 fm1]] end;
      step; try done; [|by intros [= <- _]].
    destruct (GetApfsContainerUuid img (block_size * start part)) as [uuid|e]; step;
      [|done].
    match goal with |- context [FindMacOsPartitionInApfsContainer D ?s ?o uuid ?W] =>
      destruct (FindMacOsPartitionInApfsContainer D s o uuid W) as [[found|v|e] ?] end;
      done.
  - match goal with |- context [IsMacOsPartition D ?o ?W] =>
      destruct (IsMacOsPartition D o W) as [[[|]|v|e] ?] end;
      try done. by intros [= <- _].
Qed.

(** X26. The scan looks for the GPT entry of a partition relative to the
    last 'GPT Header' entry that precedes it in the table: when the scan
    comes to a partition, the offsets it holds are the start of that
    header and the block after it, and they are -1 and -1 when no header
    precedes, so that the entry of slot n is then read at 128 n - 1. *)
Theorem scan_keeps_last_gpt_header (block_size : Z) (before : list Part)
    (w w' : world) (gpt : Z * Z) :
  scan_reaches img D block_size before w gpt w' →
  gpt = gpt_offsets_after block_size before (-1, -1).
Proof.
  unfold scan_reaches. generalize (set_trace (Call F_FindMacOsPartition 0 :: trace w) w).
  generalize (-1, -1). clear w.
  induction before as [|part rest IH]; intros gpt0 w0; cbn [gpt_offsets_after].
  - by intros [= <- _].
  - rewrite for_each_cons.
    destruct (scan_part img D block_size gpt0 part w0) as [[gpt1|v|e] w1] eqn:Hpart;
      [|done|done].
    apply scan_part_offsets in Hpart as ->. apply IH.
Qed.

End GptOffsets.

Lemma scan_keeps_last_gpt_header_witness :
  ∃ w', scan_reaches Evidence.gpt_disk_image (Evidence.gpt_disk []) 512
          [Evidence.gpt_header; Evidence.efi_part] Evidence.initial (512, 1024) w' ∧
        (512, 1024) = gpt_offsets_after 512 [Evidence.gpt_header; Evidence.efi_part] (-1, -1).
Proof.
  eexists. split; [vm_compute; reflexivity|].
  eapply (scan_keeps_last_gpt_header Evidence.gpt_disk_image (Evidence.gpt_disk []) 512
            [Evidence.gpt_header; Evidence.efi_part] Evidence.initial).
  vm_compute. reflexivity.
Defined.

(* ===================================================================== *)
(** ** Further concrete evidence *)
(* ===================================================================== *)

Lemma CheckInputType_ignores_case_witness : CheckInputType id "Sparse" = true.
Proof.
  apply (CheckInputType_ignores_case id "Sparse"); [reflexivity|].
  exists "SPARSE". split; [by pick_event|reflexivity].
Defined.

Lemma FindMacOsPartitionInApfsContainer_sound_witness :
  confirmed Evidence.split_container
    (FindMacOsPartitionInApfsContainer Evidence.split_container 1000 0 Evidence.uuid_1
       Evidence.initial).2.
Proof.
  apply (FindMacOsPartitionInApfsContainer_sound Evidence.split_container 1000 0
           Evidence.uuid_1 Evidence.initial).
  vm_compute. reflexivity.
Defined.

Lemma FindMacOsPartition_sound_witness :
  confirmed (Evidence.gpt_disk [])
    (FindMacOsPartition Evidence.gpt_disk_image (Evidence.gpt_disk [])
       [Evidence.gpt_header; Evidence.efi_part; Evidence.hfs_part] 512
       Evidence.initial).2.
Proof.
  apply (FindMacOsPartition_sound Evidence.gpt_disk_image (Evidence.gpt_disk [])
           [Evidence.gpt_header; Evidence.efi_part; Evidence.hfs_part] 512
           Evidence.initial).
  vm_compute. reflexivity.
Defined.

Lemma detect_macos_sound_witness :
  confirmed Evidence.split_container
    (detect_macos Evidence.container_image Evidence.split_container Evidence.initial).2.
Proof.
  apply (detect_macos_sound Evidence.container_image Evidence.split_container
           Evidence.initial).
  - reflexivity.
  - vm_compute. reflexivity.
Defined.

Lemma FindMacOsPartition_stops_at_first_confirmation_witness :
  FindMacOsPartition Evidence.gpt_disk_image (Evidence.gpt_disk [])
    ([Evidence.gpt_header; Evidence.hfs_part] ++ [Evidence.apfs_part]) 512
    Evidence.initial
  = FindMacOsPartition Evidence.gpt_disk_image (Evidence.gpt_disk [])
      [Evidence.gpt_header; Evidence.hfs_part] 512 Evidence.initial.
Proof.
  apply (FindMacOsPartition_stops_at_first_confirmation Evidence.gpt_disk_image
           (Evidence.gpt_disk []) [Evidence.gpt_header; Evidence.hfs_part]
           [Evidence.apfs_part] 512 Evidence.initial).
  vm_compute. reflexivity.
Defined.

Lemma unmarked_container_is_passed_over_witness :
  ∃ new,
    scan_part Evidence.gpt_disk_image (Evidence.gpt_disk []) 512 (512, 1024)
      Launch.unmarked_part Evidence.initial
      = (Normal (512, 1024), set_trace (new ++ trace Evidence.initial) Evidence.initial) ∧
    Forall (signature_checks (512 * 409640) (1024 + 128 * 2)) new.
Proof.
  apply (unmarked_container_is_passed_over Evidence.gpt_disk_image (Evidence.gpt_disk [])
           512 (512, 1024) Launch.unmarked_part Evidence.initial (replicate 16 x00)).
  - intros [Hmeta _]. apply Hmeta. reflexivity.
  - split; [by vm_compute|]. eexists. split; [vm_compute; reflexivity|].
    split; discriminate.
  - vm_compute. reflexivity.
  - vm_compute. reflexivity.
  - reflexivity.
  - discriminate.
Defined.

Lemma apfs_sqlite_path_of_inj_witness :
  length Evidence.uuid_1 = 16%nat ∧
  apfs_sqlite_path_of "out" Evidence.uuid_1 ≠ apfs_sqlite_path_of "out" apfs_boot_uuid.
Proof.
  split; [reflexivity|].
  apply (apfs_sqlite_path_of_inj "out" Evidence.uuid_1 apfs_boot_uuid).
  - reflexivity.
  - reflexivity.
  - discriminate.
Defined.
